(** * Fossil Journey Tracker: reconstruction cache, trajectory and geometry

    A shallow embedding of the reconstruction-and-cache core of
    [simulator.py] (the Python proxy and the JavaScript it serves), of the
    bulk downloaders [download_gplates_cache.py] / [download_gplates_full.py]
    and of the diagnostic script [test_sync.py].

    Conventions of the embedding:
    - a JavaScript or Python number is an exact rational ([Q]); the
      comparisons are the exact ones, NaN and rounding are outside the model;
    - a JavaScript array or Python list is a [list]; a Python [dict] and the
      cache directory are finite maps ([gmap]) from strings to strings;
    - a Python [str] is a [string] (the bytes of its UTF-8 encoding); a
      cache file holds the characters written to it and is read in text
      mode, with CR LF and CR read as LF; a write that raises may leave the
      file truncated;
    - the page global [trajectoryPoints] is the array it holds; the
      asynchronous functions that fill it take the handlers that run while
      they await as arguments. *)

From Stdlib Require Import ZArith QArith Qabs Qround Qminmax Lia Lqa Bool.
From Stdlib Require Import Ascii String DecimalString.
From Stdlib Require Import Permutation Sorted.
From stdpp Require Import base list strings gmap.

Open Scope Q_scope.

(* ===================================================================== *)
(** * Part I. Definitions                                                 *)
(* ===================================================================== *)

Open Scope Z_scope.

(** ** hashlib.md5 (RFC 1321) *)

Definition mask32 (x : Z) : Z := Z.land x 4294967295.
Definition add32 (x y : Z) : Z := mask32 (x + y).
Definition not32 (x : Z) : Z := Z.lxor x 4294967295.
Definition rotl32 (x c : Z) : Z :=
  mask32 (Z.lor (Z.shiftl x c) (Z.shiftr x (32 - c))).

Definition md5_shifts : list Z :=
  [7; 12; 17; 22; 7; 12; 17; 22; 7; 12; 17; 22; 7; 12; 17; 22;
   5; 9; 14; 20; 5; 9; 14; 20; 5; 9; 14; 20; 5; 9; 14; 20;
   4; 11; 16; 23; 4; 11; 16; 23; 4; 11; 16; 23; 4; 11; 16; 23;
   6; 10; 15; 21; 6; 10; 15; 21; 6; 10; 15; 21; 6; 10; 15; 21].

Definition md5_sines : list Z :=
  [3614090360; 3905402710; 606105819; 3250441966; 4118548399; 1200080426;
   2821735955; 4249261313; 1770035416; 2336552879; 4294925233; 2304563134;
   1804603682; 4254626195; 2792965006; 1236535329; 4129170786; 3225465664;
   643717713; 3921069994; 3593408605; 38016083; 3634488961; 3889429448;
   568446438; 3275163606; 4107603335; 1163531501; 2850285829; 4243563512;
   1735328473; 2368359562; 4294588738; 2272392833; 1839030562; 4259657740;
   2763975236; 1272893353; 4139469664; 3200236656; 681279174; 3936430074;
   3572445317; 76029189; 3654602809; 3873151461; 530742520; 3299628645;
   4096336452; 1126891415; 2878612391; 4237533241; 1700485571; 2399980690;
   4293915773; 2240044497; 1873313359; 4264355552; 2734768916; 1309151649;
   4149444226; 3174756917; 718787259; 3951481745].

Definition md5_state : Type := Z * Z * Z * Z.

Definition md5_init : md5_state :=
  (1732584193, 4023233417, 2562383102, 271733878).

(** Step [i] of the compression of the block of words [M]. *)
Definition md5_step (M : list Z) (st : md5_state) (i : nat) : md5_state :=
  let '(A, B, C, D) := st in
  let i' := Z.of_nat i in
  let '(F, g) :=
    if i' <? 16 then (Z.lor (Z.land B C) (Z.land (not32 B) D), i')
    else if i' <? 32
         then (Z.lor (Z.land D B) (Z.land (not32 D) C), (5 * i' + 1) mod 16)
    else if i' <? 48 then (Z.lxor B (Z.lxor C D), (3 * i' + 5) mod 16)
    else (Z.lxor C (Z.lor B (not32 D)), (7 * i') mod 16) in
  let F' := add32 (add32 (add32 F A) (nth i md5_sines 0))
                  (nth (Z.to_nat g) M 0) in
  (D, add32 B (rotl32 F' (nth i md5_shifts 0)), B, C).

Definition md5_block (st : md5_state) (M : list Z) : md5_state :=
  let '(a0, b0, c0, d0) := st in
  let '(A, B, C, D) := fold_left (md5_step M) (seq 0 64) st in
  (add32 a0 A, add32 b0 B, add32 c0 C, add32 d0 D).

(** Little-endian bytes of a number and back. *)
Fixpoint le_bytes (n : nat) (x : Z) : list Z :=
  match n with
  | O => []
  | S n' => (x mod 256) :: le_bytes n' (x / 256)
  end.

Fixpoint le_word (bytes : list Z) : Z :=
  match bytes with
  | [] => 0
  | b :: tl => b + 256 * le_word tl
  end.

(** The blocks of 16 words of a padded message. *)
Fixpoint md5_blocks (fuel : nat) (bytes : list Z) : list (list Z) :=
  match fuel with
  | O => []
  | S fuel' =>
      match bytes with
      | [] => []
      | _ =>
          map (fun j => le_word (take 4 (drop (4 * j) bytes))) (seq 0 16)
          :: md5_blocks fuel' (drop 64 bytes)
      end
  end.

Definition md5_pad (msg : list Z) : list Z :=
  let len := Z.of_nat (length msg) in
  let zeros := Z.to_nat ((55 - len) mod 64) in
  msg ++ [128] ++ repeat 0 zeros ++ le_bytes 8 (8 * len).

Definition md5_digest (msg : list Z) : md5_state :=
  let padded := md5_pad msg in
  fold_left md5_block (md5_blocks (length padded) padded) md5_init.

Definition hexdigit (n : Z) : ascii :=
  nth (Z.to_nat n)
    ["0"; "1"; "2"; "3"; "4"; "5"; "6"; "7"; "8"; "9";
     "a"; "b"; "c"; "d"; "e"; "f"]%char "0"%char.

Definition hexbyte (b : Z) (rest : string) : string :=
  String (hexdigit (b / 16)) (String (hexdigit (b mod 16)) rest).

Definition hexword (w : Z) (rest : string) : string :=
  fold_right hexbyte rest (le_bytes 4 w).

(** [url.encode()] on a string of one-byte characters. *)
Fixpoint encode (s : string) : list Z :=
  match s with
  | EmptyString => []
  | String c tl => Z.of_N (N_of_ascii c) :: encode tl
  end.

(** [hashlib.md5(url.encode()).hexdigest()] *)
Definition md5_hexdigest (s : string) : string :=
  let '(a, b, c, d) := md5_digest (encode s) in
  hexword a (hexword b (hexword c (hexword d ""))).


Close Scope Z_scope.

(** ** The disk cache and the proxy (simulator.py, Python) *)

Definition CACHE_DIR : string := "gplates_cache".
Definition GPLATES_BASE_URL : string := "https://gws.gplates.org".

(** [CACHE_DIR / f"{url_hash}.json"], relative to the scripts' directory.
    The three downloaders and the proxy define the same function. *)
Definition get_cache_path (url : string) : string :=
  CACHE_DIR +:+ "/" +:+ md5_hexdigest url +:+ ".json".

(** What a call of [Path.write_text] does: it returns; or it raises
    before the file is opened (the directory is missing or not writable);
    or it raises after the file was created or truncated, with only the
    first [written] characters of the text in it (an I/O error, a full
    disk). *)
Inductive write_result : Type :=
| WriteReturns
| OpenRaises
| WriteRaises (written : nat).

(** What the outside world does during one call: [urlopen url] is the
    decoded body of the response, [None] when [urlopen], [read] or
    [decode] raises; [read_ok] tells whether [read_text] returns without
    raising, and [write_text_result] what [write_text] does. *)
Record env : Type := Env {
  urlopen : string -> option string;
  read_ok : bool;
  write_text_result : write_result
}.

(** Whether [write_text] returns without raising. *)
Definition write_ok (e : env) : bool :=
  match write_text_result e with
  | WriteReturns => true
  | _ => false
  end.

(** The cache directory: file path to the characters in the file, with
    the line ends of a POSIX system ([write_text] leaves every character
    as it is; where [os.linesep] is CR LF it writes LF as CR LF, which
    [read_text] undoes). *)
Abbreviation disk_cache := (gmap string string).

(** [Path.write_text(data)] on the file at [path]. *)
Definition write_text (e : env) (path data : string) (d : disk_cache)
    : disk_cache :=
  match write_text_result e with
  | WriteReturns => <[path := data]> d
  | OpenRaises => d
  | WriteRaises written => <[path := substring 0 written data]> d
  end.

(** What [Path.read_text()] returns for a file with the characters [text]:
    the file is opened in text mode with universal newlines, so that CR LF
    and a lone CR are read as LF. *)
Fixpoint universal_newlines (text : string) : string :=
  match text with
  | EmptyString => EmptyString
  | String c rest =>
      if Ascii.eqb c "013" then
        match rest with
        | String "010" _ => universal_newlines rest
        | _ => String "010" (universal_newlines rest)
        end
      else String c (universal_newlines rest)
  end.

(** Whether a text contains a carriage return. *)
Fixpoint has_CR (text : string) : bool :=
  match text with
  | EmptyString => false
  | String c rest => Ascii.eqb c "013" || has_CR rest
  end.

Definition load_from_disk_cache (e : env) (d : disk_cache) (url : string)
    : option string :=
  match d !! get_cache_path url with
  | Some text => if read_ok e then Some (universal_newlines text) else None
  | None => None
  end.

Definition save_to_disk_cache (e : env) (d : disk_cache) (url data : string)
    : disk_cache :=
  write_text e (get_cache_path url) data d.

(** [urlparse(self.path)]: the path and the query of the request. *)
Record parsed : Type := Parsed {
  url_path : string;
  url_query : string
}.

Definition gplates_url (rq : parsed) : string :=
  match url_query rq with
  | EmptyString => GPLATES_BASE_URL +:+ url_path rq
  | q => GPLATES_BASE_URL +:+ url_path rq +:+ "?" +:+ q
  end.

(** The state the handler works on: [GPLATES_MEMORY_CACHE], the cache
    directory, and the URLs passed to [urlopen] so far. *)
Record proxy : Type := Proxy {
  memory : gmap string string;
  disk : disk_cache;
  fetched : list string
}.

Inductive response : Type :=
| Json200 (data : string)
| Error404.

(** [if disk_data:] on a string. *)
Definition py_truthy (s : string) : bool :=
  match s with
  | EmptyString => false
  | String _ _ => true
  end.

(** Step 3 of [do_GET]: fetch from the origin, cache and answer, or
    answer 404 when the fetch raises. *)
Definition fetch_and_answer (e : env) (url : string) (st : proxy)
    : response * proxy :=
  match urlopen e url with
  | Some data =>
      (Json200 data,
       {| memory := <[url := data]> (memory st);
          disk := save_to_disk_cache e (disk st) url data;
          fetched := fetched st ++ [url] |})
  | None =>
      (Error404,
       {| memory := memory st; disk := disk st;
          fetched := fetched st ++ [url] |})
  end.

Definition do_GET (e : env) (rq : parsed) (st : proxy) : response * proxy :=
  let url := gplates_url rq in
  match memory st !! url with
  | Some data => (Json200 data, st)
  | None =>
      match load_from_disk_cache e (disk st) url with
      | Some disk_data =>
          if py_truthy disk_data then
            (Json200 disk_data,
             {| memory := <[url := disk_data]> (memory st);
                disk := disk st; fetched := fetched st |})
          else fetch_and_answer e url st
      | None => fetch_and_answer e url st
      end
  end.



(** ** The bulk downloaders (download_gplates_cache.py, download_gplates_full.py) *)

(** [(url, True, "cached")], [(url, True, "downloaded")] and
    [(url, False, str(e))]. *)
Inductive dl_status : Type := Cached | Downloaded | Failed.

(** [json_loads data] is [true] when [json.loads(data)] returns. *)
Definition download_and_cache (json_loads : string -> bool) (e : env)
    (url : string) (d : disk_cache) : dl_status * disk_cache :=
  let cache_path := get_cache_path url in
  match d !! cache_path with
  | Some _ => (Cached, d)
  | None =>
      match urlopen e url with
      | None => (Failed, d)
      | Some data =>
          if json_loads data then
            (if write_ok e then Downloaded else Failed,
             write_text e cache_path data d)
          else (Failed, d)
      end
  end.

(** Two spellings of one query, and an origin that answers with a page
    that is not JSON. *)
Definition points_time_50 : parsed :=
  Parsed "/reconstruct/reconstruct_points/"
    "points=-43.2,-22.9&time=50&model=MULLER2022".

Definition coastlines_50 : parsed :=
  Parsed "/reconstruct/coastlines/" "time=50&model=MULLER2022".
Definition badPayload : string := "<html><body>502 Bad Gateway</body></html>".
Definition badOrigin : env :=
  {| urlopen := fun _ => Some badPayload; read_ok := true;
     write_text_result := WriteReturns |}.
Definition goodPayload : string := "[[-43.2,-22.9]]".
Definition goodOrigin : env :=
  {| urlopen := fun _ => Some goodPayload; read_ok := true;
     write_text_result := WriteReturns |}.

Definition emptyProxy : proxy :=
  {| memory := ∅; disk := ∅; fetched := [] |}.


(** ** JavaScript numbers *)

(** [a > b] and [a < b] on numbers. *)
Definition js_gt (a b : Q) : bool := negb (Qle_bool a b).
Definition js_lt (a b : Q) : bool := js_gt b a.

(** An object or [null] used as a condition. *)
Definition js_truthy {A : Type} (o : option A) : bool :=
  match o with Some _ => true | None => false end.

(** ** Boundary geometry (simulator.py, JavaScript) *)

(** A coordinate object [{lat, lon}]. *)
Record coord : Type := Coord { lat : Q; lon : Q }.

(** [Math.abs(coord.lon - prevCoord.lon)] *)
Definition lonDiff (prevCoord c : coord) : Q := Qabs (lon c - lon prevCoord).

(** The body of the [for] loop of [splitAtDateLine]: the state is
    [(segments, currentSegment)], both in array order. *)
Fixpoint splitLoop (coordinates : list coord)
    (segments : list (list coord)) (currentSegment : list coord)
    : list (list coord) * list coord :=
  match coordinates with
  | [] => (segments, currentSegment)
  | c :: rest =>
      match last currentSegment with
      | None => (* currentSegment.length === 0 *)
          splitLoop rest segments (currentSegment ++ [c])
      | Some prevCoord =>
          if js_gt (lonDiff prevCoord c) 180 then
            splitLoop rest
              (if (0 <? length currentSegment)%nat
               then segments ++ [currentSegment] else segments)
              [c]
          else splitLoop rest segments (currentSegment ++ [c])
      end
  end.

(** The trailing [if (currentSegment.length > 0) segments.push(...)]. *)
Definition flushSegment (st : list (list coord) * list coord)
    : list (list coord) :=
  if (0 <? length (snd st))%nat then fst st ++ [snd st] else fst st.

Definition splitAtDateLine (coordinates : list coord) : list (list coord) :=
  flushSegment (splitLoop coordinates [] []).


(** [a] is immediately followed by [b] in [l]. *)
Definition adjacent_in {A : Type} (a b : A) (l : list A) : Prop :=
  exists l1 l2, l = l1 ++ a :: b :: l2.

(** [isPointInPolygon(lat, lon, polygon)]: the test applied to the edge
    from [polygon[j]] to [polygon[i]]. *)
Definition edgeCrossed (ptLat ptLon : Q) (pi pj : coord) : bool :=
  let yi := lat pi in let xi := lon pi in
  let yj := lat pj in let xj := lon pj in
  negb (eqb (js_gt yi ptLat) (js_gt yj ptLat))
  && js_lt ptLon ((xj - xi) * (ptLat - yi) / (yj - yi) + xi).

(** [for (let i = 0, j = n - 1; i < n; j = i++)], with [steps = n - i]
    iterations left. *)
Fixpoint pipLoop (ptLat ptLon : Q) (polygon : list coord)
    (steps i j : nat) (inside : bool) : bool :=
  match steps with
  | O => inside
  | S steps' =>
      match polygon !! i, polygon !! j with
      | Some pi, Some pj =>
          pipLoop ptLat ptLon polygon steps' (S i) i
            (if edgeCrossed ptLat ptLon pi pj then negb inside else inside)
      | _, _ => inside
      end
  end.

Definition isPointInPolygon (ptLat ptLon : Q) (polygon : list coord) : bool :=
  let n := length polygon in
  pipLoop ptLat ptLon polygon n 0 (n - 1) false.

(** The edges of the implicitly closed ring, each as (vertex, the vertex
    before it), the first vertex being preceded by the last. *)
Definition ringEdges {A : Type} (polygon : list A) : list (A * A) :=
  match last polygon with
  | None => []
  | Some pn => zip polygon (pn :: polygon)
  end.

(** Even-odd rule: the number of edges that the ray from the point
    crosses, an edge being crossed as [edgeCrossed] says. *)
Definition rayCrossings (ptLat ptLon : Q) (polygon : list coord) : nat :=
  length (List.filter (fun e => edgeCrossed ptLat ptLon (fst e) (snd e))
            (ringEdges polygon)).


(** ** Point in polygon of the diagnostic script (test_sync.py) *)

(** Python's [min(a, b)] and [max(a, b)] on two numbers. *)
Definition py_min (a b : Q) : Q := if js_lt b a then b else a.
Definition py_max (a b : Q) : Q := if js_gt b a then b else a.

(** [(y - p1y) * (p2x - p1x) / (p2y - p1y) + p1x] *)
Definition xintersOf (y : Q) (p1 p2 : Q * Q) : Q :=
  (y - snd p1) * (fst p2 - fst p1) / (snd p2 - snd p1) + fst p1.

(** One iteration of the loop of [point_in_polygon] on the edge from [p1]
    to [p2]; vertices are [(lon, lat)] tuples.  The state is [inside] and
    the local [xinters], which is unbound ([None]) until first assigned and
    keeps its value from one iteration to the next.  Reading it unbound
    raises ([None] as a result). *)
Definition pipStep (x y : Q) (p1 p2 : Q * Q) (st : bool * option Q)
    : option (bool * option Q) :=
  let '(inside, xinters) := st in
  let '(p1x, p1y) := p1 in
  let '(p2x, p2y) := p2 in
  if js_gt y (py_min p1y p2y) then
    if Qle_bool y (py_max p1y p2y) then
      if Qle_bool x (py_max p1x p2x) then
        let xinters' :=
          if negb (Qeq_bool p1y p2y) then Some (xintersOf y p1 p2)
          else xinters in
        if Qeq_bool p1x p2x then Some (negb inside, xinters')
        else
          match xinters' with
          | None => None
          | Some xi =>
              Some (if Qle_bool x xi then negb inside else inside, xinters')
          end
      else Some st
    else Some st
  else Some st.

(** [for i in range(1, n + 1)], with [p1] carried from one iteration to the
    next; [polygon[i % n]] cannot be out of range. *)
Fixpoint pipRange (x y : Q) (polygon : list (Q * Q)) (n : nat)
    (range : list nat) (p1 : Q * Q) (st : bool * option Q) : option bool :=
  match range with
  | [] => Some (fst st)
  | i :: range' =>
      match polygon !! (i mod n)%nat with
      | None => None
      | Some p2 =>
          match pipStep x y p1 p2 st with
          | None => None
          | Some st' => pipRange x y polygon n range' p2 st'
          end
      end
  end.

(** [point_in_polygon(point_lon, point_lat, polygon)]; [None] when the call
    raises ([polygon[0]] on an empty list). *)
Definition point_in_polygon (point_lon point_lat : Q)
    (polygon : list (Q * Q)) : option bool :=
  let n := length polygon in
  match polygon !! 0%nat with
  | None => None
  | Some p1 => pipRange point_lon point_lat polygon n (seq 1 n) p1 (false, None)
  end.

(** The test of one iteration as a property of the edge alone. *)
Definition pyEdgeCrossed (x y : Q) (p1 p2 : Q * Q) : bool :=
  js_gt y (py_min (snd p1) (snd p2))
  && Qle_bool y (py_max (snd p1) (snd p2))
  && Qle_bool x (py_max (fst p1) (fst p2))
  && (Qeq_bool (fst p1) (fst p2) || Qle_bool x (xintersOf y p1 p2)).

(** The edges in the order the Python loop visits them: each vertex with
    the one after it, the last one followed by the first. *)
Definition ringEdgesFwd {A : Type} (polygon : list A) : list (A * A) :=
  match polygon with
  | [] => []
  | p0 :: tl => zip polygon (tl ++ [p0])
  end.

Definition pyRayCrossings (x y : Q) (polygon : list (Q * Q)) : nat :=
  length (List.filter (fun e => pyEdgeCrossed x y (fst e) (snd e))
            (ringEdgesFwd polygon)).

(** The square of the concrete scenario, as JavaScript objects and as
    Python tuples. *)
Definition square_js : list coord :=
  [Coord 0 0; Coord 0 10; Coord 10 10; Coord 10 0].

(** ** Trajectories (simulator.py, JavaScript) *)

(** A trajectory point [{age, lat, lon}]; [isEndPoint] is absent (falsy)
    until [filterInvalidTrajectoryPoints] sets it. *)
Record trajPoint : Type := TrajPoint {
  age : Q;
  tlat : Q;
  tlon : Q;
  isEndPoint : bool
}.

Definition markEndPoint (pt : trajPoint) : trajPoint :=
  {| age := age pt; tlat := tlat pt; tlon := tlon pt; isEndPoint := true |}.

(** [pt.lat < -90 || pt.lat > 90 || pt.lon < -180 || pt.lon > 180] *)
Definition outOfBounds (pt : trajPoint) : bool :=
  js_lt (tlat pt) (-90) || js_gt (tlat pt) 90
  || js_lt (tlon pt) (-180) || js_gt (tlon pt) 180.

Definition maxJumpPerMa : Q := 3.

(** [latDiff > expectedMaxJump || lonDiff > expectedMaxJump] *)
Definition bigJump (lastValidPoint pt : trajPoint) : bool :=
  let latDiff := Qabs (tlat pt - tlat lastValidPoint) in
  let lonDiff := Qabs (tlon pt - tlon lastValidPoint) in
  let ageDiff := age pt - age lastValidPoint in
  let expectedMaxJump := maxJumpPerMa * ageDiff in
  js_gt latDiff expectedMaxJump || js_gt lonDiff expectedMaxJump.

(** The loop of [filterInvalidTrajectoryPoints] from [i = 1] on; the state
    is [validPoints] and [lastValidPoint].  Setting [pt.isEndPoint] updates
    the object that is then pushed and remembered. *)
Fixpoint filterLoop (points validPoints : list trajPoint)
    (lastValidPoint : trajPoint) : list trajPoint :=
  match points with
  | [] => validPoints
  | pt :: rest =>
      if outOfBounds pt then filterLoop rest validPoints lastValidPoint
      else
        let pt' := if bigJump lastValidPoint pt then markEndPoint pt else pt in
        filterLoop rest (validPoints ++ [pt']) pt'
  end.

(** The new value of the global [trajectoryPoints]. *)
Definition filterInvalidTrajectoryPoints (trajectoryPoints : list trajPoint)
    : list trajPoint :=
  match trajectoryPoints with
  | first :: (_ :: _) as rest => filterLoop rest [first] first
  | _ => trajectoryPoints
  end.

(** [trajectoryPoints] is a global of the page.  The functions that build
    it are asynchronous and assign and fill the global itself across their
    awaits; while one of them awaits, the other handlers of the page run
    when they are called, and several of them assign the global too.
    A handler is what it does to the array that the global holds. *)
Definition handler : Type := list trajPoint -> list trajPoint.

Definition runHandlers (handlers : list handler)
    (trajectoryPoints : list trajPoint) : list trajPoint :=
  fold_left (fun points h => h points) handlers trajectoryPoints.

(** [stopJourney()] and [resetView()]: [trajectoryPoints = []]. *)
Definition stopJourney : handler := fun _ => [].
Definition resetView : handler := fun _ => [].

(** Euclidean distance in (lat, lon) between two trajectory points,
    squared: the displacement of section 4.4 of the specification. *)
Definition euclidSq (a b : trajPoint) : Q :=
  (tlat b - tlat a) * (tlat b - tlat a) + (tlon b - tlon a) * (tlon b - tlon a).

(** The coordinates and age of a point, without its flag. *)
Definition position (p : trajPoint) : Q * Q * Q := (age p, tlat p, tlon p).

(** A trajectory with two discontinuities (out and back), and one whose
    second point is 25 degrees away on each axis after 10 age units. *)
Definition twoJumps : list trajPoint :=
  [TrajPoint 0 0 0 false; TrajPoint 10 50 0 false; TrajPoint 20 0 0 false].
Definition diagonalJump : list trajPoint :=
  [TrajPoint 0 0 0 false; TrajPoint 10 25 25 false].

(** ** The reconstruction service as seen by the page *)

(** [Math.sqrt], [Math.cos], [Math.sin] and [Math.PI] are the host's. *)
Class JSMath : Type := {
  Math_sqrt : Q -> Q;
  Math_cos : Q -> Q;
  Math_sin : Q -> Q;
  Math_PI : Q
}.

(** A request [/reconstruct/reconstruct_points/?points=lon,lat&time=..&model=..]
    to the local proxy. *)
Record request : Type := Request {
  rq_lon : Q;
  rq_lat : Q;
  rq_time : Q;
  rq_model : string
}.

(** What [fetch(url)] followed by [r.json()] gives. *)
Inductive fetchResult : Type :=
| FetchRejected                 (* fetch or r.json() rejects *)
| FetchNotOk                    (* r.ok is false *)
| FetchData (coordinates : option (list (Q * Q))).
                                (* the parsed body; [None] without a truthy
                                   [coordinates]; entries are [lon, lat] *)

(** [data && data.coordinates && data.coordinates.length > 0], then
    [(data.coordinates[0][1], data.coordinates[0][0])]. *)
Definition firstCoordinate (r : fetchResult) : option (Q * Q) :=
  match r with
  | FetchData (Some ((lo, la) :: _)) => Some (la, lo)
  | _ => None
  end.

(** ** findAnchorPoint *)

Record anchor : Type := Anchor {
  anchorLat : Q;
  anchorLon : Q;
  offsetLat : Q;
  offsetLon : Q
}.

(** The object [{lat, lon, movement, dist}] a probe resolves to. *)
Record probe : Type := Probe {
  p_lat : Q;
  p_lon : Q;
  movement : Q;
  dist : Q
}.

Definition testAge : Q := 50.
Definition searchDistances : list Q := [1; 2; 3; 5; 8; 10; 15; 20].
Definition searchAngles : list Q := [0; 45; 90; 135; 180; 225; 270; 315].

Section Anchor.
Context `{JSMath}.
Variable fetch : request -> fetchResult.
Variables (lat0 lon0 : Q) (modelName : string).

(** [Math.sqrt(Math.pow(rLat - lat, 2) + Math.pow(rLon - lon, 2))] *)
Definition movementOf (rLat rLon pLat pLon : Q) : Q :=
  Math_sqrt ((rLat - pLat) ^ 2 + (rLon - pLon) ^ 2).

Definition testRequest : request := Request lon0 lat0 testAge modelName.

(** The first [try] block: [true] when it returns [null] because the
    point moved by more than 0.5 degrees. *)
Definition originalMoved : bool :=
  match firstCoordinate (fetch testRequest) with
  | Some (reconLat, reconLon) =>
      js_gt (movementOf reconLat reconLon lat0 lon0) 0.5
  | None => false
  end.

(** [(testLat, testLon)] of one probe. *)
Definition testPoint (d angle : Q) : Q * Q :=
  let rad := angle * Math_PI / 180 in
  (Qmax (-85) (Qmin 85 (lat0 + d * Math_cos rad)), lon0 + d * Math_sin rad).

Definition probeRequest (d angle : Q) : request :=
  Request (snd (testPoint d angle)) (fst (testPoint d angle)) testAge modelName.

(** One element of [testPromises]. *)
Definition testProbe (d angle : Q) : option probe :=
  match firstCoordinate (fetch (probeRequest d angle)) with
  | Some (rLat, rLon) =>
      let testLat := fst (testPoint d angle) in
      let testLon := snd (testPoint d angle) in
      Some {| p_lat := testLat; p_lon := testLon;
              movement := movementOf rLat rLon testLat testLon;
              dist := d |}
  | None => None
  end.

(** [await Promise.all(testPromises)]: the results in the order of
    [searchAngles]. *)
Definition ringResults (d : Q) : list (option probe) :=
  map (testProbe d) searchAngles.

Definition ringRequests (d : Q) : list request :=
  map (probeRequest d) searchAngles.

(** The body of [for (const r of results)] on the state
    [(bestAnchor, bestMovement)]. *)
Definition updateBest (best : option probe * Q) (r : option probe)
    : option probe * Q :=
  match r with
  | Some r =>
      if js_gt (movement r) 0.5 && js_gt (movement r) (snd best)
      then (Some r, movement r) else best
  | None => best
  end.

(** [for (const dist of searchDistances)] with its [break]; [log] is the
    list of requests sent so far. *)
Fixpoint searchLoop (dists : list Q) (best : option probe * Q)
    (log : list request) : (option probe * Q) * list request :=
  match dists with
  | [] => (best, log)
  | d :: rest =>
      let best' := fold_left updateBest (ringResults d) best in
      let log' := log ++ ringRequests d in
      if js_truthy (fst best') && js_gt (snd best') 2
      then (best', log')
      else searchLoop rest best' log'
  end.

Definition anchorOf (bestAnchor : probe) : anchor :=
  {| anchorLat := p_lat bestAnchor;
     anchorLon := p_lon bestAnchor;
     offsetLat := lat0 - p_lat bestAnchor;
     offsetLon := lon0 - p_lon bestAnchor |}.

(** [findAnchorPoint(lat, lon, modelName)]: the anchor or [null], and the
    requests it sent, in order. *)
Definition findAnchorPoint : option anchor * list request :=
  if originalMoved then (None, [testRequest])
  else
    let '(best, log) := searchLoop searchDistances (None, 0) [testRequest] in
    (option_map anchorOf (fst best), log).

End Anchor.

(** [best] is the best of the probes [seen] so far: the state
    [(bestAnchor, bestMovement)] between two iterations. *)
Definition bestIs (best : option probe * Q) (seen : list (option probe))
    : Prop :=
  match fst best with
  | Some p =>
      In (Some p) seen /\ 0.5 < movement p /\ snd best = movement p
      /\ forall q, In (Some q) seen -> movement q <= movement p
  | None =>
      snd best = 0 /\ forall q, In (Some q) seen -> movement q <= 0.5
  end.

(** ** generateFullTrajectoryAsync *)

(** [let step = 20; if (maxAge < 20) step = 5; else if (maxAge < 100) step = 10;] *)
Definition stepOf (maxAge : Q) : Q :=
  if js_lt maxAge 20 then 5 else if js_lt maxAge 100 then 10 else 20.

(** [for (let age = step; age <= maxAge; age += step) ages.push(age)],
    run for at most [fuel] iterations from the current [a]. *)
Fixpoint agesLoop (fuel : nat) (a step maxAge : Q) : list Q :=
  match fuel with
  | O => []
  | S fuel' =>
      if Qle_bool a maxAge then a :: agesLoop fuel' (a + step) step maxAge
      else []
  end.

(** The number of iterations the loop makes. *)
Definition agesFuel (step maxAge : Q) : nat :=
  Z.to_nat (Qfloor (maxAge / step)).

Definition agesOf (maxAge : Q) : list Q :=
  let step := stepOf maxAge in
  agesLoop (agesFuel step maxAge) step step maxAge.

(** The comparator [(a, b) => a.age - b.age] and a stable sort by it. *)
Definition compareAge (a b : trajPoint) : Q := age a - age b.

Fixpoint insertByAge (pt : trajPoint) (sorted : list trajPoint)
    : list trajPoint :=
  match sorted with
  | [] => [pt]
  | q :: tl =>
      if js_lt (compareAge pt q) 0 then pt :: q :: tl
      else q :: insertByAge pt tl
  end.

Definition sortByAge (results : list trajPoint) : list trajPoint :=
  fold_left (fun sorted pt => insertByAge pt sorted) results [].

(** Ages in non-decreasing and in strictly increasing order. *)
Definition ageLe (a b : trajPoint) : Prop := age a <= age b.
Definition ageLt (a b : trajPoint) : Prop := age a < age b.

Section Trajectory.
Context `{JSMath}.
Variable fetch : request -> fetchResult.
Variables (lat0 lon0 maxAge : Q) (modelName : string).

(** [reconLat], [reconLon]: the anchor's coordinates when there is one. *)
Definition reconPoint (anc : option anchor) : Q * Q :=
  match anc with
  | Some a => (anchorLat a, anchorLon a)
  | None => (lat0, lon0)
  end.

Definition ageRequest (anc : option anchor) (a : Q) : request :=
  Request (snd (reconPoint anc)) (fst (reconPoint anc)) a modelName.

(** What the promise of one age resolves to. *)
Definition resultAt (anc : option anchor) (a : Q) : trajPoint :=
  match fetch (ageRequest anc a) with
  | FetchRejected => TrajPoint a lat0 lon0 false        (* .catch *)
  | FetchNotOk => TrajPoint a lat0 lon0 false           (* data is null *)
  | FetchData _ as r =>
      match firstCoordinate r with
      | Some (resultLat, resultLon) =>
          match anc with
          | Some an =>
              TrajPoint a (resultLat + offsetLat an) (resultLon + offsetLon an)
                false
          | None => TrajPoint a resultLat resultLon false
          end
      | None => TrajPoint a lat0 lon0 false             (* fallback *)
      end
  end.

(** [await Promise.all(promises)]: one result per age, in the order of
    [ages]. *)
Definition gatherResults (anc : option anchor) : list trajPoint :=
  map (resultAt anc) (agesOf maxAge).

(** The three stretches of the function between its awaits, as what they
    do to [trajectoryPoints]: [trajectoryPoints = []] at the start,
    [trajectoryPoints.push({age: 0, lat, lon})] once the anchor is known,
    and, once all the results are there, [results.sort(...)] followed by
    [trajectoryPoints.push(pt)] for each of them. *)
Definition beginTrajectory : handler := fun _ => [].
Definition pushOrigin : handler :=
  fun trajectoryPoints => trajectoryPoints ++ [TrajPoint 0 lat0 lon0 false].
Definition pushResults (anc : option anchor) : handler :=
  fun trajectoryPoints => trajectoryPoints ++ sortByAge (gatherResults anc).

(** [generateFullTrajectoryAsync(lat, lon, maxAge)]: the array that it
    returns, which is the one the global holds then, and the requests
    sent, in order of issue.  [during1] are the handlers of the page that
    run while the call awaits [findAnchorPoint] (which awaits its own
    requests and does not touch the global), [during2] those that run
    while it awaits [Promise.all(promises)]. *)
Definition generateFullTrajectoryAsync (during1 during2 : list handler)
    : list trajPoint * list request :=
  let trajectoryPoints := [] in
  let '(anc, log) := findAnchorPoint fetch lat0 lon0 modelName in
  let trajectoryPoints := runHandlers during1 trajectoryPoints in
  let trajectoryPoints := pushOrigin trajectoryPoints in
  let log := log ++ map (ageRequest anc) (agesOf maxAge) in
  let trajectoryPoints := runHandlers during2 trajectoryPoints in
  (pushResults anc trajectoryPoints, log).

(** The chain of [startJourney]: the trajectory is generated, then
    [fetchCoastlines(0)] is awaited, while the handlers [during3] run, then
    [filterInvalidTrajectoryPoints()] is called; the value is the array
    that the global holds afterwards.  (Neither promise rejects: both
    functions catch what their requests throw.) *)
Definition startJourney (during1 during2 during3 : list handler)
    : list trajPoint :=
  filterInvalidTrajectoryPoints
    (runHandlers during3 (fst (generateFullTrajectoryAsync during1 during2))).

End Trajectory.

(** ** A service and host functions to run the definitions on *)

(** Rational stand-ins for the host's functions: Newton's iteration for the
    square root, and the values of cosine and sine at the eight search
    angles (an angle in radians is turned back into degrees). *)
Fixpoint newtonSqrt (steps : nat) (a x : Q) : Q :=
  match steps with
  | O => x
  | S steps' => newtonSqrt steps' a (Qred ((x + a / x) / 2))
  end.

Definition cosTable : list (Q * Q) :=
  [(0, 1); (45, 0.7071); (90, 0); (135, -0.7071); (180, -1);
   (225, -0.7071); (270, 0); (315, 0.7071)].

Definition sinTable : list (Q * Q) :=
  [(0, 0); (45, 0.7071); (90, 1); (135, 0.7071); (180, 0);
   (225, -0.7071); (270, -1); (315, -0.7071)].

Definition tableLookup (table : list (Q * Q)) (deg : Q) : Q :=
  match List.find (fun e => Qeq_bool (fst e) deg) table with
  | Some e => snd e
  | None => 0
  end.

Definition tableMath : JSMath :=
  {| Math_sqrt := fun a =>
       if Qle_bool a 0 then 0 else newtonSqrt 5 a (Qred ((a + 1) / 2));
     Math_cos := fun rad => tableLookup cosTable (rad * 180 / 3.1416);
     Math_sin := fun rad => tableLookup sinTable (rad * 180 / 3.1416);
     Math_PI := 3.1416 |}.

(** A service for which only the points north of latitude 2.5 are on a
    plate: they move by 3 degrees of latitude and 4 of longitude, the
    others stay where they are. *)
Definition northPlate (r : request) : fetchResult :=
  if js_gt (rq_lat r) 2.5
  then FetchData (Some [(rq_lon r + 4, rq_lat r + 3)])
  else FetchData (Some [(rq_lon r, rq_lat r)]).

(** ** Python ranges and integer formatting *)

(** [len(range(start, stop, step))] and [range(start, stop, step)] for a
    positive [step]. *)
Definition range_len (start stop step : Z) : nat :=
  Z.to_nat ((stop - start + step - 1) / step).

Definition range_up (start stop step : Z) : list Z :=
  map (fun k => (start + Z.of_nat k * step)%Z) (seq 0 (range_len start stop step)).

(** [range(start, stop, step)] for any [step]: [None] is the [ValueError]
    of a zero step; a negative step counts down. *)
Definition py_range (start stop step : Z) : option (list Z) :=
  if (step =? 0)%Z then None
  else if (0 <? step)%Z then Some (range_up start stop step)
  else Some (map (fun k => (start + Z.of_nat k * step)%Z)
               (seq 0 (Z.to_nat ((start - stop - step - 1) / (- step))))).

(** [str(n)] and [f"{n}"] for an [int]. *)
Definition py_str (n : Z) : string := NilZero.string_of_int (Z.to_int n).

(** ** download_gplates_cache.py: the ages to download *)

(** [get_ages_for_model(max_age)] *)
Definition get_ages_for_model (max_age : Z) : list Z :=
  [0%Z]
  ++ range_up 10 (Z.min 101 (max_age + 1)) 10
  ++ range_up 120 (Z.min 201 (max_age + 1)) 20
  ++ range_up 250 (max_age + 1) 50.

(** ** download_gplates_full.py: grid, ages, URLs and the estimate *)

(** [ROTATION_MODELS], in insertion order. *)
Definition ROTATION_MODELS : list (string * Z) :=
  [("MULLER2022", 1000%Z); ("MERDITH2021", 1000%Z); ("SETON2012", 200%Z)].

(** The assignment [lat = -85] / [lat = 85] made inside the inner loop. *)
Definition clampLat (lat : Z) : Z :=
  if (lat <? -85)%Z then (-85)%Z else if (85 <? lat)%Z then 85%Z else lat.

(** [generate_grid_coordinates(step)]: pairs [(lat, lon)]. *)
Definition generate_grid_coordinates (step : Z) : option (list (Z * Z)) :=
  match py_range (-90) 91 step, py_range (-180) 180 step with
  | Some lats, Some lons =>
      Some (flat_map (fun lat => map (fun lon => (clampLat lat, lon)) lons)
              lats)
  | _, _ => None
  end.

(** [get_ages_for_model(max_age, step)] of the full downloader. *)
Definition get_ages_for_model_full (max_age step : Z) : option (list Z) :=
  py_range 0 (max_age + 1) step.

(** An element [(kind, model_name, age, coords, url)] of the URL list. *)
Record url_item : Type := UrlItem {
  item_kind : string;
  item_model : string;
  item_age : Z;
  item_coords : option (Z * Z);
  item_url : string
}.

Definition coastlines_url (age : Z) (model_name : string) : string :=
  GPLATES_BASE_URL +:+ "/reconstruct/coastlines/?time=" +:+ py_str age
  +:+ "&model=" +:+ model_name.

Definition points_url (lon lat age : Z) (model_name : string) : string :=
  GPLATES_BASE_URL +:+ "/reconstruct/reconstruct_points/?points="
  +:+ py_str lon +:+ "," +:+ py_str lat +:+ "&time=" +:+ py_str age
  +:+ "&model=" +:+ model_name.

(** The items one model contributes, given the grid and its ages. *)
Definition model_items (coordinates : list (Z * Z)) (model_name : string)
    (ages : list Z) : list url_item :=
  map (fun age =>
         UrlItem "coastlines" model_name age None
           (coastlines_url age model_name)) ages
  ++ flat_map (fun c =>
       map (fun age =>
              UrlItem "points" model_name age (Some c)
                (points_url (snd c) (fst c) age model_name)) ages)
       coordinates.

(** The loop over [models.items()]; a [ValueError] of [get_ages_for_model]
    ends it. *)
Fixpoint models_items (coordinates : list (Z * Z)) (age_step : Z)
    (models : list (string * Z)) : option (list url_item) :=
  match models with
  | [] => Some []
  | (model_name, max_age) :: rest =>
      match get_ages_for_model_full max_age age_step with
      | None => None
      | Some ages =>
          match models_items coordinates age_step rest with
          | None => None
          | Some items => Some (model_items coordinates model_name ages ++ items)
          end
      end
  end.

(** [generate_urls(coord_step, age_step, models)] *)
Definition generate_urls (coord_step age_step : Z)
    (models : list (string * Z)) : option (list url_item) :=
  match generate_grid_coordinates coord_step with
  | None => None
  | Some coordinates => models_items coordinates age_step models
  end.

(** The dictionary returned by [estimate_download]. *)
Record estimate : Type := Estimate {
  n_coords : nat;
  total_files : nat;
  total_coastlines : nat;
  total_points : nat;
  size_mb : Q;
  size_gb : Q;
  time_minutes : Q;
  time_hours : Q
}.

(** The loop of [estimate_download] over [ROTATION_MODELS.items()] on
    [(total_points, total_coastlines)]. *)
Fixpoint estimate_loop (n_coords : nat) (age_step : Z)
    (models : list (string * Z)) (totals : nat * nat) : option (nat * nat) :=
  match models with
  | [] => Some totals
  | (model_name, max_age) :: rest =>
      match get_ages_for_model_full max_age age_step with
      | None => None
      | Some ages =>
          let n_ages := length ages in
          estimate_loop n_coords age_step rest
            (fst totals + n_coords * n_ages, snd totals + n_ages)%nat
      end
  end.

Definition nat_Q (n : nat) : Q := inject_Z (Z.of_nat n).

(** [estimate_download(coord_step, age_step)] *)
Definition estimate_download (coord_step age_step : Z) : option estimate :=
  match generate_grid_coordinates coord_step with
  | None => None
  | Some coords =>
      let n_coords := length coords in
      match estimate_loop n_coords age_step ROTATION_MODELS (0, 0)%nat with
      | None => None
      | Some (total_points, total_coastlines) =>
          let total_files := (total_points + total_coastlines)%nat in
          let avg_size_kb := 2 in
          let total_size_mb := nat_Q total_files * avg_size_kb / 1024 in
          let total_size_gb := total_size_mb / 1024 in
          let downloads_per_sec := 10 in
          let time_seconds := nat_Q total_files / downloads_per_sec in
          let time_minutes := time_seconds / 60 in
          let time_hours := time_minutes / 60 in
          Some {| n_coords := n_coords; total_files := total_files;
                  total_coastlines := total_coastlines;
                  total_points := total_points;
                  size_mb := total_size_mb; size_gb := total_size_gb;
                  time_minutes := time_minutes; time_hours := time_hours |}
      end
  end.

(** The check of the existing cache in [main]: [(cached, to_download)]. *)
Definition partition_cached (d : disk_cache) (url_list : list url_item)
    : nat * list url_item :=
  fold_left
    (fun acc item =>
       match d !! get_cache_path (item_url item) with
       | Some _ => (S (fst acc), snd acc)
       | None => (fst acc, snd acc ++ [item])
       end)
    url_list (0%nat, []).

(** ** simulator.py: the bulk download of the coastlines *)

(** [if load_from_disk_cache(url):] *)
Definition py_truthy_opt (s : option string) : bool :=
  match s with
  | Some text => py_truthy text
  | None => false
  end.

(** The counters of [download_all_gplates_data] and the cache directory. *)
Record dl_report : Type := DlReport {
  completed : nat;
  cached : nat;
  downloaded : nat;
  errors : nat;
  report_disk : disk_cache
}.

Definition all_models : list string := ["MULLER2022"; "SETON2012"; "MERDITH2021"].
Definition all_ages : list Z := range_up 0 550 10.

(** The URLs in the order of the two nested loops. *)
Definition all_urls : list string :=
  flat_map (fun model => map (fun age => coastlines_url age model) all_ages)
    all_models.

(** [total_requests = len(models) * len(ages)] *)
Definition total_requests : nat := (length all_models * length all_ages)%nat.

(** One iteration of the inner loop; [env_of url] is what the outside
    world does while [url] is processed. *)
Definition download_one (env_of : string -> env) (r : dl_report)
    (url : string) : dl_report :=
  let e := env_of url in
  if py_truthy_opt (load_from_disk_cache e (report_disk r) url) then
    {| completed := S (completed r); cached := S (cached r);
       downloaded := downloaded r; errors := errors r;
       report_disk := report_disk r |}
  else
    match urlopen e url with
    | Some data =>
        {| completed := S (completed r); cached := cached r;
           downloaded := S (downloaded r); errors := errors r;
           report_disk := save_to_disk_cache e (report_disk r) url data |}
    | None =>
        {| completed := S (completed r); cached := cached r;
           downloaded := downloaded r; errors := S (errors r);
           report_disk := report_disk r |}
    end.

(** Step 2 of [download_all_gplates_data] (step 1 writes the JavaScript
    libraries to another directory). *)
Definition download_all_gplates_data (env_of : string -> env)
    (d : disk_cache) : dl_report :=
  fold_left (download_one env_of) all_urls
    {| completed := 0; cached := 0; downloaded := 0; errors := 0;
       report_disk := d |}.

(** ** test_sync.py: fetch with cache *)

Section TestSync.
Variable json : Type.

(** [json.loads], [None] when it raises, and [json.dumps]. *)
Variable json_parse : string -> option json.
Variable json_dumps : json -> string.

(** [fetch_url(url)]: the parsed data, [None] when the call raises, and
    the cache directory afterwards.  [json.loads] takes CR and LF alike
    for white space between tokens and refuses both inside a string, so
    that it returns for the text that [read_text] gives what it returns
    for the characters in the file. *)
Definition fetch_url (e : env) (url : string) (d : disk_cache)
    : option json * disk_cache :=
  match d !! get_cache_path url with
  | Some text =>
      if read_ok e then (json_parse text, d) else (None, d)
  | None =>
      match urlopen e url with
      | None => (None, d)
      | Some body =>
          match json_parse body with
          | None => (None, d)
          | Some data =>
              (if write_ok e then Some data else None,
               write_text e (get_cache_path url) (json_dumps data) d)
          end
      end
  end.

End TestSync.

(** [point_in_any_polygon(point_lon, point_lat, polygons)]; [None] when a
    call of [point_in_polygon] raises. *)
Fixpoint point_in_any_polygon (point_lon point_lat : Q)
    (polygons : list (list (Q * Q))) : option bool :=
  match polygons with
  | [] => Some false
  | polygon :: rest =>
      if (3 <=? length polygon)%nat then
        match point_in_polygon point_lon point_lat polygon with
        | None => None
        | Some true => Some true
        | Some false => point_in_any_polygon point_lon point_lat rest
        end
      else point_in_any_polygon point_lon point_lat rest
  end.

(** A validator that accepts only texts starting like a JSON array or
    object, for running examples. *)
Definition startsLikeJson (s : string) : option string :=
  match s with
  | String "[" _ => Some s
  | String "{" _ => Some s
  | _ => None
  end.

(** ** Canvas projection (simulator.py, JavaScript) *)

(** [a >= b] and [a <= b] on numbers. *)
Definition js_ge (a b : Q) : bool := Qle_bool b a.
Definition js_le (a b : Q) : bool := Qle_bool a b.

Record canvas : Type := Canvas { width : Q; height : Q }.
Record canvasPos : Type := CanvasPos { cx : Q; cy : Q }.

Definition latLonToCanvas (ptLat ptLon : Q) (c : canvas) : canvasPos :=
  {| cx := ((ptLon + 180) / 360) * width c;
     cy := ((90 - ptLat) / 180) * height c |}.

Definition canvasToLatLon (x y : Q) (c : canvas) : coord :=
  {| lat := 90 - (y / height c) * 180;
     lon := (x / width c) * 360 - 180 |}.

(** ** Position along the trajectory *)

(** The point at parameter [t] between [p1] and [p2]. *)
Definition lerp (p1 p2 : trajPoint) (t : Q) : coord :=
  {| lat := tlat p1 + t * (tlat p2 - tlat p1);
     lon := tlon p1 + t * (tlon p2 - tlon p1) |}.

(** The loop of [getReconstructedPosition]: [Some] when it returns from
    inside the loop.  (Two equal consecutive ages would divide zero by
    zero, which is not a number in JavaScript.) *)
Fixpoint reconstructedLoop (a : Q) (points : list trajPoint) : option coord :=
  match points with
  | p1 :: ((p2 :: _) as rest) =>
      if js_ge a (age p1) && js_le a (age p2)
      then Some (lerp p1 p2 ((a - age p1) / (age p2 - age p1)))
      else reconstructedLoop a rest
  | _ => None
  end.

(** [getReconstructedPosition(age)] on the globals [trajectoryPoints],
    [originalLat] and [originalLon]. *)
Definition getReconstructedPosition (trajectoryPoints : list trajPoint)
    (originalLat originalLon a : Q) : coord :=
  match last trajectoryPoints with
  | None => Coord originalLat originalLon
  | Some lastPoint =>
      match reconstructedLoop a trajectoryPoints with
      | Some position => position
      | None => Coord (tlat lastPoint) (tlon lastPoint)
      end
  end.

(** The object [{lat, lon, endOfTrajectory}] of [getTrajectoryPosition];
    [endOfTrajectory] is [false] when the object has no such property. *)
Record trajPos : Type := TrajPos {
  pos : coord;
  endOfTrajectory : bool
}.

(** [Math.sqrt(Math.pow(p2.lat - p1.lat, 2) + Math.pow(p2.lon - p1.lon, 2))] *)
Definition jumpOf `{JSMath} (p1 p2 : trajPoint) : Q :=
  Math_sqrt ((tlat p2 - tlat p1) ^ 2 + (tlon p2 - tlon p1) ^ 2).

Fixpoint trajectoryLoop `{JSMath} (a : Q) (points : list trajPoint)
    : option trajPos :=
  match points with
  | p1 :: ((p2 :: _) as rest) =>
      if js_gt (jumpOf p1 p2) 30 && js_ge a (age p1)
      then Some (TrajPos (Coord (tlat p1) (tlon p1)) true)
      else if js_ge a (age p1) && js_le a (age p2)
      then
        let t := if js_gt (age p2 - age p1) 0
                 then (a - age p1) / (age p2 - age p1) else 0 in
        Some (TrajPos (lerp p1 p2 t) false)
      else trajectoryLoop a rest
  | _ => None
  end.

(** [getTrajectoryPosition(age)] *)
Definition getTrajectoryPosition `{JSMath} (trajectoryPoints : list trajPoint)
    (originalLat originalLon a : Q) : trajPos :=
  match last trajectoryPoints with
  | None => TrajPos (Coord originalLat originalLon) false
  | Some lastPoint =>
      match trajectoryLoop a trajectoryPoints with
      | Some position => position
      | None => TrajPos (Coord (tlat lastPoint) (tlon lastPoint)) false
      end
  end.

(** Equality of coordinates as numbers. *)
Definition coord_eq (c1 c2 : coord) : Prop :=
  lat c1 == lat c2 /\ lon c1 == lon c2.

Definition coordOf (p : trajPoint) : coord := Coord (tlat p) (tlon p).

(** A short trajectory to run the definitions on. *)
Definition sampleTrajectory : list trajPoint :=
  [TrajPoint 0 0 0 false; TrajPoint 10 3 4 false; TrajPoint 20 5 8 false].

(** The points that the loop of [filterInvalidTrajectoryPoints] appends
    to [validPoints], starting from a given last valid point. *)
Fixpoint keptFrom (lastValidPoint : trajPoint) (points : list trajPoint)
    : list trajPoint :=
  match points with
  | [] => []
  | pt :: rest =>
      if outOfBounds pt then keptFrom lastValidPoint rest
      else
        let pt' := if bigJump lastValidPoint pt then markEndPoint pt else pt in
        pt' :: keptFrom pt' rest
  end.

(** ** Bounding box of a continent outline *)

(** One iteration of the loop of [isPointInContinent] on
    [(minLat, maxLat, minLon, maxLon)]; the outline holds [[lat, lon]]
    pairs. *)
Definition growBox (box : Q * Q * Q * Q) (vertex : Q * Q) : Q * Q * Q * Q :=
  let '(minLat, maxLat, minLon, maxLon) := box in
  let '(lt, ln) := vertex in
  (Qmin minLat lt, Qmax maxLat lt, Qmin minLon ln, Qmax maxLon ln).

Definition boundingBox (outline : list (Q * Q)) : Q * Q * Q * Q :=
  fold_left growBox outline (90, -90, 180, -180).

(** [isPointInContinent(lat, lon, outline)] *)
Definition isPointInContinent (ptLat ptLon : Q) (outline : list (Q * Q))
    : bool :=
  let '(minLat, maxLat, minLon, maxLon) := boundingBox outline in
  js_ge ptLat minLat && js_le ptLat maxLat
  && js_ge ptLon minLon && js_le ptLon maxLon.

(** The outline as the array of [{lat, lon}] objects that
    [isPointInPolygon] takes. *)
Definition outlineCoords (outline : list (Q * Q)) : list coord :=
  map (fun vertex => Coord (fst vertex) (snd vertex)) outline.

(** Whether a vertex is above the latitude of the point, and the first
    half of the edge test. *)
Definition aboveLat (ptLat : Q) (v : coord) : bool := js_gt (lat v) ptLat.
Definition straddles (ptLat : Q) (e : coord * coord) : bool :=
  negb (eqb (aboveLat ptLat (fst e)) (aboveLat ptLat (snd e))).

(** ** Coastline features *)

(** A processed coastline feature [{type, coordinates}]; [coordinates] is
    [None] when the property is missing. *)
Record feature : Type := Feature {
  f_type : string;
  f_coordinates : option (list coord)
}.

(** The features that the two searches look at: the coordinates when
    [feature.type !== 'polygon' || !feature.coordinates ||
    feature.coordinates.length < 3] is false. *)
Definition polygonOf (f : feature) : option (list coord) :=
  if String.eqb (f_type f) "polygon" then
    match f_coordinates f with
    | Some cs => if (length cs <? 3)%nat then None else Some cs
    | None => None
    end
  else None.

Fixpoint containingLoop (features : list feature) (ptLat ptLon : Q)
    : option feature :=
  match features with
  | [] => None
  | f :: rest =>
      match polygonOf f with
      | Some cs =>
          if isPointInPolygon ptLat ptLon cs then Some f
          else containingLoop rest ptLat ptLon
      | None => containingLoop rest ptLat ptLon
      end
  end.

(** [findContainingPolygon(coastlines, lat, lon)]; [coastlines] may be
    [null]. *)
Definition findContainingPolygon (coastlines : option (list feature))
    (ptLat ptLon : Q) : option feature :=
  match coastlines with
  | None => None
  | Some features => containingLoop features ptLat ptLon
  end.

(** [calculateCentroid(polygon)] *)
Definition calculateCentroid (polygon : option (list coord)) : option coord :=
  match polygon with
  | None => None
  | Some [] => None
  | Some cs =>
      let sums :=
        fold_left (fun s c => (fst s + lat c, snd s + lon c)) cs (0, 0) in
      Some {| lat := fst sums / inject_Z (Z.of_nat (length cs));
              lon := snd sums / inject_Z (Z.of_nat (length cs)) |}
  end.

(** The distance from the point to the centroid of an eligible feature. *)
Definition centroidDist `{JSMath} (ptLat ptLon : Q) (f : feature) : option Q :=
  match polygonOf f with
  | Some cs =>
      match calculateCentroid (Some cs) with
      | Some centroid =>
          Some (Math_sqrt ((lat centroid - ptLat) ^ 2
                           + (lon centroid - ptLon) ^ 2))
      | None => None
      end
  | None => None
  end.

(** [dist < minDist], where [minDist] starts as [Infinity] ([None]). *)
Definition closer (d : Q) (minDist : option Q) : bool :=
  match minDist with
  | None => true
  | Some m => js_lt d m
  end.

(** One iteration of the loop of [findNearestPolygon] on
    [(nearest, minDist)]. *)
Definition nearestStep `{JSMath} (ptLat ptLon : Q)
    (st : option feature * option Q) (f : feature)
    : option feature * option Q :=
  match centroidDist ptLat ptLon f with
  | Some d => if closer d (snd st) then (Some f, Some d) else st
  | None => st
  end.

(** [findNearestPolygon(coastlines, lat, lon)] *)
Definition findNearestPolygon `{JSMath} (coastlines : option (list feature))
    (ptLat ptLon : Q) : option feature :=
  match coastlines with
  | None => None
  | Some features =>
      fst (fold_left (nearestStep ptLat ptLon) features (None, None))
  end.

(** What the loop of [findNearestPolygon] holds after the features
    [seen]. *)
Definition nearestIs `{JSMath} (ptLat ptLon : Q)
    (st : option feature * option Q) (seen : list feature) : Prop :=
  match fst st with
  | Some f =>
      In f seen
      /\ (exists d, centroidDist ptLat ptLon f = Some d /\ snd st = Some d
          /\ forall g dg, In g seen -> centroidDist ptLat ptLon g = Some dg ->
               d <= dg)
  | None =>
      snd st = None
      /\ forall g, In g seen -> centroidDist ptLat ptLon g = None
  end.

(** ** generateTrajectoryGPlates *)

Definition EARTH_RADIUS : Q := 6.

(** [latLonToVector3(lat, lon, radius)]: the coordinates of the vector. *)
Definition latLonToVector3 `{JSMath} (ptLat ptLon radius : Q) : Q * Q * Q :=
  let phi := (90 - ptLat) * Math_PI / 180 in
  let theta := (ptLon + 180) * Math_PI / 180 in
  (- radius * Math_sin phi * Math_cos theta,
   radius * Math_cos phi,
   radius * Math_sin phi * Math_sin theta).

(** A point [{age, lat, lon, position, source}]. *)
Record gpPoint : Type := GpPoint {
  g_age : Q;
  g_lat : Q;
  g_lon : Q;
  g_position : Q * Q * Q;
  g_source : string
}.

(** [for (let age = step; age <= maxAge; age += step)] for a given step. *)
Definition agesBy (step maxAge : Q) : list Q :=
  agesLoop (agesFuel step maxAge) step step maxAge.

(** The loop over [results], with the state [(lastLat, lastLon)]. *)
Fixpoint processResults `{JSMath} (results : list (Q * fetchResult))
    (lastLat lastLon : Q) : list gpPoint :=
  match results with
  | [] => []
  | (a, data) :: rest =>
      match firstCoordinate data with
      | Some (paleoLat, paleoLon) =>
          GpPoint a paleoLat paleoLon
            (latLonToVector3 paleoLat paleoLon (EARTH_RADIUS * 1.01)) "GPlates"
          :: processResults rest paleoLat paleoLon
      | None =>
          GpPoint a lastLat lastLon
            (latLonToVector3 lastLat lastLon (EARTH_RADIUS * 1.01))
            "interpolated"
          :: processResults rest lastLat lastLon
      end
  end.

(** [generateTrajectoryGPlates(lat, lon, maxAge)]: the array that it
    returns, which is the one the global [trajectoryPoints] holds then.
    [during] are the handlers of the page that run while the call awaits
    [Promise.all(promises)], as what they do to the array of the global
    (whose elements are here the objects this function pushes). *)
Definition generateTrajectoryGPlates `{JSMath}
    (fetch : request -> fetchResult) (lat0 lon0 maxAge : Q)
    (modelName : string) (during : list (list gpPoint -> list gpPoint))
    : list gpPoint :=
  let trajectoryPoints := [] in
  let trajectoryPoints :=
    trajectoryPoints
    ++ [GpPoint 0 lat0 lon0 (latLonToVector3 lat0 lon0 (EARTH_RADIUS * 1.01))
          "original"] in
  let results :=
    map (fun a => (a, fetch (Request lon0 lat0 a modelName)))
      (agesBy 10 maxAge) in
  let trajectoryPoints :=
    fold_left (fun points h => h points) during trajectoryPoints in
  trajectoryPoints ++ processResults results lat0 lon0.

(** ** detectContinent and the local Euler poles *)

Definition inBox (ptLat ptLon latMin latMax lonMin lonMax : Q) : bool :=
  js_ge ptLat latMin && js_le ptLat latMax
  && js_ge ptLon lonMin && js_le ptLon lonMax.

Definition detectContinent (ptLat ptLon : Q) : string :=
  if inBox ptLat ptLon (-56) 13 (-82) (-34) then "South America"
  else if inBox ptLat ptLon (-35) 37 (-18) 52 then "Africa"
  else if inBox ptLat ptLon 15 72 (-170) (-52) then "North America"
  else if inBox ptLat ptLon 35 72 (-10) 40 then "Europe"
  else if inBox ptLat ptLon 5 77 40 180 then "Asia"
  else if inBox ptLat ptLon (-45) (-10) 110 155 then "Australia"
  else if js_le ptLat (-60) then "Antarctica"
  else "Ocean".

Record eulerPole : Type := EulerPole {
  poleLat : Q;
  poleLon : Q;
  rate : Q
}.

Definition EULER_POLES : list (string * eulerPole) :=
  [("South America", EulerPole 62.5 (-39.5) 0.31);
   ("North America", EulerPole 78.0 (-53.0) 0.22);
   ("Africa", EulerPole 0 0 0.05);
   ("India", EulerPole 22.0 28.0 0.55);
   ("Australia", EulerPole 15.0 40.0 0.62);
   ("Antarctica", EulerPole (-5.0) (-55.0) 0.12);
   ("Europe", EulerPole 55.0 (-75.0) 0.18);
   ("Asia", EulerPole 55.0 (-75.0) 0.18);
   ("Ocean", EulerPole 0 0 0)].

(** [EULER_POLES[continent]] *)
Definition poleOf (continent : string) : option eulerPole :=
  option_map snd
    (List.find (fun entry => String.eqb (fst entry) continent) EULER_POLES).

(** The pole that [reconstructPaleoCoordsLocal] uses:
    [EULER_POLES[continent] || EULER_POLES['Ocean']]. *)
Definition localPole (ptLat ptLon : Q) : eulerPole :=
  match poleOf (detectContinent ptLat ptLon) with
  | Some pole => pole
  | None => EulerPole 0 0 0
  end.

(* ===================================================================== *)
(** * Part II. Theorems                                                   *)
(* ===================================================================== *)

Lemma js_gt_spec (a b : Q) : js_gt a b = true <-> b < a.
Proof.
  unfold js_gt. rewrite negb_true_iff.
  split.
  - intros H. apply Qnot_le_lt. intros Hle.
    apply Qle_bool_iff in Hle. congruence.
  - intros H. destruct (Qle_bool a b) eqn:E; [|reflexivity].
    apply Qle_bool_iff in E. exfalso. exact (Qlt_not_le _ _ H E).
Qed.

Lemma js_gt_false (a b : Q) : js_gt a b = false <-> a <= b.
Proof.
  unfold js_gt. rewrite negb_false_iff. apply Qle_bool_iff.
Qed.

(** ** Adjacent elements of a list *)

Lemma adjacent_in_cons {A : Type} (a b x : A) (l : list A) :
  adjacent_in a b (x :: l) ->
  (a = x /\ exists tl, l = b :: tl) \/ adjacent_in a b l.
Proof.
  intros (l1 & l2 & Heq). destruct l1 as [|y l1]; simpl in Heq.
  - injection Heq as -> ->. left. split; [reflexivity|]. now exists l2.
  - injection Heq as -> ->. right. now exists l1, l2.
Qed.

Lemma adjacent_in_tail {A : Type} (a b x : A) (l : list A) :
  adjacent_in a b l -> adjacent_in a b (x :: l).
Proof. intros (l1 & l2 & ->). now exists (x :: l1), l2. Qed.


(** ** splitAtDateLine *)

Lemma flushSegment_cons (segs : list (list coord)) (cur : list coord) :
  flushSegment (segs, cur) = segs ++ (if (0 <? length cur)%nat then [cur] else []).
Proof.
  unfold flushSegment; simpl. destruct (0 <? length cur)%nat; [reflexivity|].
  now rewrite app_nil_r.
Qed.

(** Segments already pushed are never touched again. *)
Lemma splitLoop_segments (l : list coord) :
  forall segs cur,
    flushSegment (splitLoop l segs cur)
    = segs ++ flushSegment (splitLoop l [] cur).
Proof.
  induction l as [|c rest IH]; intros segs cur; simpl.
  - rewrite !flushSegment_cons. reflexivity.
  - destruct (last cur) as [p|] eqn:Hlast.
    + destruct (js_gt (lonDiff p c) 180).
      * rewrite IH. symmetry. rewrite IH.
        destruct (0 <? length cur)%nat; simpl; [|reflexivity].
        now rewrite <- app_assoc.
      * apply IH.
    + apply IH.
Qed.

Lemma splitLoop_concat (l : list coord) :
  forall cur, concat (flushSegment (splitLoop l [] cur)) = cur ++ l.
Proof.
  induction l as [|c rest IH]; intros cur; simpl.
  - rewrite flushSegment_cons. destruct cur; simpl; [reflexivity|].
    now rewrite !app_nil_r.
  - destruct (last cur) as [p|] eqn:Hlast.
    + destruct (js_gt (lonDiff p c) 180).
      * rewrite splitLoop_segments, concat_app, IH.
        destruct cur as [|x cur']; [discriminate|]. simpl.
        now rewrite app_nil_r.
      * rewrite IH. now rewrite <- app_assoc.
    + rewrite IH. now rewrite <- app_assoc.
Qed.

(** C10. Concatenating the segments returned by [splitAtDateLine], in
    order, gives back exactly the input coordinate list (no vertex is
    dropped, duplicated or reordered), and the empty input yields no
    segment. *)
Theorem splitAtDateLine_concat :
  (forall coordinates : list coord,
      concat (splitAtDateLine coordinates) = coordinates)
  /\ splitAtDateLine [] = [].
Proof.
  split; [|reflexivity].
  intros l. unfold splitAtDateLine. now rewrite splitLoop_concat.
Qed.
















(** The ring of the antimeridian scenario: ..., 179, -179, ... *)
Definition dateline_ring : list coord :=
  [Coord 10 170; Coord 12 179; Coord 12 (-179); Coord 10 (-170)].


Example splitAtDateLine_dateline_ring :
  splitAtDateLine dateline_ring
  = [[Coord 10 170; Coord 12 179]; [Coord 12 (-179); Coord 10 (-170)]].
Proof. reflexivity. Qed.

(** ** Point in polygon *)

Lemma odd_filter_cons {A : Type} (f : A -> bool) (e : A) (l : list A)
    (inside : bool) :
  xorb (if f e then negb inside else inside)
       (Nat.odd (length (List.filter f l)))
  = xorb inside (Nat.odd (length (List.filter f (e :: l)))).
Proof.
  simpl. destruct (f e); [|reflexivity].
  cbn [length]. rewrite Nat.odd_succ, <- Nat.negb_odd.
  destruct inside, (Nat.odd (length (List.filter f l))); reflexivity.
Qed.

(** The loop toggles [inside] once per crossed edge among those still to
    visit. *)
Lemma pipLoop_parity (ptLat ptLon : Q) (polygon : list coord) :
  forall steps i j inside pj,
    (i + steps = length polygon)%nat ->
    polygon !! j = Some pj ->
    pipLoop ptLat ptLon polygon steps i j inside
    = xorb inside
        (Nat.odd (length
           (List.filter (fun e => edgeCrossed ptLat ptLon (fst e) (snd e))
              (zip (drop i polygon) (pj :: drop i polygon))))).
Proof.
  induction steps as [|k IH]; intros i j inside pj Hlen Hj.
  - rewrite drop_ge by lia. simpl. now destruct inside.
  - assert (Hi : (i < length polygon)%nat) by lia.
    destruct (lookup_lt_is_Some_2 polygon i Hi) as [pi Hpi].
    cbn [pipLoop]. rewrite Hpi, Hj.
    rewrite (IH (S i) i _ pi) by (lia || assumption).
    rewrite (drop_S polygon pi i Hpi).
    change (zip (pi :: drop (S i) polygon) (pj :: pi :: drop (S i) polygon))
      with ((pi, pj) :: zip (drop (S i) polygon) (pi :: drop (S i) polygon)).
    apply (odd_filter_cons
             (fun e => edgeCrossed ptLat ptLon (fst e) (snd e)) (pi, pj)).
Qed.

Lemma isPointInPolygon_parity (ptLat ptLon : Q) (polygon : list coord) :
  isPointInPolygon ptLat ptLon polygon
  = Nat.odd (rayCrossings ptLat ptLon polygon).
Proof.
  unfold isPointInPolygon, rayCrossings, ringEdges.
  destruct (last polygon) as [pn|] eqn:Hlast.
  - rewrite last_lookup in Hlast.
    rewrite (pipLoop_parity ptLat ptLon polygon (length polygon) 0
               (length polygon - 1) false pn).
    + reflexivity.
    + reflexivity.
    + now replace (length polygon - 1)%nat with (pred (length polygon)) by lia.
  - apply last_None in Hlast. subst polygon. reflexivity.
Qed.

(** In the branch that reads [xinters] the two latitudes differ, so the
    value read is the one just assigned. *)
Lemma between_min_max_neq (y p1y p2y : Q) :
  js_gt y (py_min p1y p2y) = true ->
  Qle_bool y (py_max p1y p2y) = true ->
  Qeq_bool p1y p2y = false.
Proof.
  intros Hmin Hmax.
  destruct (Qeq_bool p1y p2y) eqn:E; [|reflexivity]. exfalso.
  apply Qeq_bool_iff in E.
  unfold py_min, py_max, js_lt in *.
  assert (Hf : js_gt p2y p1y = false).
  { apply js_gt_false. rewrite E. apply Qle_refl. }
  assert (Hf' : js_gt p1y p2y = false).
  { apply js_gt_false. rewrite E. apply Qle_refl. }
  rewrite Hf' in Hmin. rewrite Hf in Hmax.
  apply js_gt_spec in Hmin. apply Qle_bool_iff in Hmax.
  exact (Qlt_not_le _ _ Hmin Hmax).
Qed.

Lemma pipStep_toggle (x y : Q) (p1 p2 : Q * Q) (inside : bool)
    (xinters : option Q) :
  exists xinters',
    pipStep x y p1 p2 (inside, xinters)
    = Some (if pyEdgeCrossed x y p1 p2 then negb inside else inside,
            xinters').
Proof.
  destruct p1 as [p1x p1y], p2 as [p2x p2y].
  unfold pipStep, pyEdgeCrossed. cbn [fst snd].
  destruct (js_gt y (py_min p1y p2y)) eqn:Hmin; [|eexists; reflexivity].
  destruct (Qle_bool y (py_max p1y p2y)) eqn:Hmax; [|eexists; reflexivity].
  destruct (Qle_bool x (py_max p1x p2x)); [|eexists; reflexivity].
  rewrite (between_min_max_neq y p1y p2y Hmin Hmax). cbn [negb andb].
  destruct (Qeq_bool p1x p2x); [eexists; reflexivity|].
  cbn [orb]. eexists; reflexivity.
Qed.

Lemma pipRange_parity (x y : Q) (polygon : list (Q * Q)) (n : nat) :
  forall range p2s,
    Forall2 (fun i p2 => polygon !! (i mod n)%nat = Some p2) range p2s ->
    forall p1 inside xinters,
      pipRange x y polygon n range p1 (inside, xinters)
      = Some (xorb inside
                (Nat.odd (length
                   (List.filter (fun e => pyEdgeCrossed x y (fst e) (snd e))
                      (zip (p1 :: p2s) p2s))))).
Proof.
  induction 1 as [|i p2 range p2s Hi _ IH]; intros p1 inside xinters.
  - simpl. now destruct inside.
  - cbn [pipRange]. rewrite Hi.
    destruct (pipStep_toggle x y p1 p2 inside xinters) as [xi' ->].
    rewrite IH.
    change (zip (p1 :: p2 :: p2s) (p2 :: p2s))
      with ((p1, p2) :: zip (p2 :: p2s) p2s).
    f_equal.
    apply (odd_filter_cons
             (fun e => pyEdgeCrossed x y (fst e) (snd e)) (p1, p2)).
Qed.

Lemma zip_snoc_l {A B : Type} (l : list A) (a : A) (l' : list B) :
  (length l' <= length l)%nat -> zip (l ++ [a]) l' = zip l l'.
Proof.
  revert l'. induction l as [|h l IH]; intros [|h' l'] Hlen;
    simpl in *; try reflexivity; try lia.
  f_equal. apply IH. lia.
Qed.

(** The vertices read as [polygon[i % n]] for [i] in [range(1, n + 1)]. *)
Lemma range_lookups {A : Type} (p0 : A) (tl : list A) :
  Forall2 (fun i p2 => (p0 :: tl) !! (i mod S (length tl))%nat = Some p2)
    (seq 1 (S (length tl))) (tl ++ [p0]).
Proof.
  rewrite seq_S. apply Forall2_app.
  - apply Forall2_same_length_lookup_2.
    + now rewrite length_seq.
    + intros k i p2 Hk Hp2.
      apply lookup_seq in Hk as [-> Hlt].
      rewrite Nat.mod_small by lia. exact Hp2.
  - constructor; [|constructor].
    replace (1 + length tl)%nat with (S (length tl)) by lia.
    now rewrite Nat.Div0.mod_same.
Qed.

Lemma point_in_polygon_parity (x y : Q) (polygon : list (Q * Q)) :
  polygon <> [] ->
  point_in_polygon x y polygon = Some (Nat.odd (pyRayCrossings x y polygon)).
Proof.
  destruct polygon as [|p0 tl]; [congruence|]. intros _.
  unfold point_in_polygon, pyRayCrossings, ringEdgesFwd.
  cbn [lookup list_lookup length].
  rewrite (pipRange_parity x y (p0 :: tl) (S (length tl)) _ (tl ++ [p0])
             (range_lookups p0 tl)).
  cbn [xorb]. do 4 f_equal.
  change (p0 :: tl ++ [p0]) with ((p0 :: tl) ++ [p0]).
  apply zip_snoc_l. rewrite length_app. simpl. lia.
Qed.


(** ** filterInvalidTrajectoryPoints *)

(** The jump test reads the coordinates and ages only. *)
Lemma bigJump_position (a a' b b' : trajPoint) :
  position a = position a' -> position b = position b' ->
  bigJump a b = bigJump a' b'.
Proof.
  unfold position, bigJump. intros [= -> -> ->] [= -> -> ->]. reflexivity.
Qed.

Lemma filterLoop_spec (points : list trajPoint) :
  forall validPoints lastValidPoint,
    Forall (fun p => isEndPoint p = false) points ->
    exists kept,
      filterLoop points validPoints lastValidPoint = validPoints ++ kept
      /\ map position kept
         = map position (List.filter (fun p => negb (outOfBounds p)) points)
      /\ (forall a b, adjacent_in a b (lastValidPoint :: kept) ->
            isEndPoint b = bigJump a b).
Proof.
  induction points as [|pt rest IH]; intros valid lastp Hflags.
  - exists []. cbn. rewrite app_nil_r. repeat split.
    intros a b (l1 & l2 & Heq). destruct l1 as [|? [|? ?]]; discriminate.
  - inversion Hflags as [|? ? Hpt Hrest]; subst.
    cbn [filterLoop List.filter].
    destruct (outOfBounds pt) eqn:Hout; cbn [negb].
    + apply IH. exact Hrest.
    + set (pt' := if bigJump lastp pt then markEndPoint pt else pt).
      assert (Hpos : position pt' = position pt).
      { unfold pt'. now destruct (bigJump lastp pt). }
      destruct (IH (valid ++ [pt']) pt' Hrest) as (kept & Heq & Hmap & Hadj).
      exists (pt' :: kept). split; [|split].
      * rewrite Heq, <- app_assoc. reflexivity.
      * cbn [map]. now rewrite Hpos, Hmap.
      * intros a b Hab. apply adjacent_in_cons in Hab as [[-> [tl Htl]]|Hab].
        -- injection Htl as <- _.
           rewrite (bigJump_position lastp lastp pt' pt eq_refl Hpos).
           unfold pt'. destruct (bigJump lastp pt); [reflexivity|exact Hpt].
        -- now apply Hadj.
Qed.

(** C7 (as the code has it). For a trajectory whose later points carry no
    flag yet: the first point is kept unmodified; every later point with an
    out-of-range latitude or longitude is dropped and every other one is
    kept, in order, with its age and coordinates; and a kept point is marked
    [isEndPoint] exactly when its latitude difference or its longitude
    difference from the previous kept point exceeds 3 degrees per age unit
    times the age gap between them.  Hence no point before the first such
    jump is flagged. *)
Theorem filterInvalidTrajectoryPoints_spec
    (first : trajPoint) (rest : list trajPoint) :
  Forall (fun p => isEndPoint p = false) rest ->
  exists kept,
    filterInvalidTrajectoryPoints (first :: rest) = first :: kept
    /\ map position kept
       = map position (List.filter (fun p => negb (outOfBounds p)) rest)
    /\ (forall a b, adjacent_in a b (first :: kept) ->
          isEndPoint b = bigJump a b).
Proof.
  intros Hflags. unfold filterInvalidTrajectoryPoints.
  destruct rest as [|second rest'].
  - exists []. repeat split.
    intros a b (l1 & l2 & Heq). destruct l1 as [|? [|? ?]]; discriminate.
  - destruct (filterLoop_spec (second :: rest') [first] first Hflags)
      as (kept & Heq & Hmap & Hadj).
    exists kept. now rewrite Heq.
Qed.

Lemma filterInvalidTrajectoryPoints_spec_witness :
  Forall (fun p => isEndPoint p = false)
    [TrajPoint 10 50 0 false; TrajPoint 20 0 200 false;
     TrajPoint 30 52 1 false]
  /\ exists kept,
    filterInvalidTrajectoryPoints
      (TrajPoint 0 0 0 false
       :: [TrajPoint 10 50 0 false; TrajPoint 20 0 200 false;
           TrajPoint 30 52 1 false])
    = TrajPoint 0 0 0 false :: kept
    /\ map position kept
       = map position
           (List.filter (fun p => negb (outOfBounds p))
              [TrajPoint 10 50 0 false; TrajPoint 20 0 200 false;
               TrajPoint 30 52 1 false])
    /\ (forall a b, adjacent_in a b (TrajPoint 0 0 0 false :: kept) ->
          isEndPoint b = bigJump a b).
Proof.
  assert (Hflags : Forall (fun p => isEndPoint p = false)
            [TrajPoint 10 50 0 false; TrajPoint 20 0 200 false;
             TrajPoint 30 52 1 false]).
  { repeat constructor. }
  split; [exact Hflags|].
  exact (filterInvalidTrajectoryPoints_spec (TrajPoint 0 0 0 false) _ Hflags).
Defined.

(** C7 as stated does not hold.  On [twoJumps] both later points exceed
    the budget of 30 degrees, and when the point of age 20 is marked the
    point of age 10 before it is flagged too, not unflagged.  On
    [diagonalJump] the Euclidean displacement of the second point exceeds
    the budget (1250 > 30 * 30) and the point is not marked, because
    neither axis alone exceeds it. *)
Lemma filterInvalidTrajectoryPoints_counterexample :
  filterInvalidTrajectoryPoints twoJumps
  = [TrajPoint 0 0 0 false; TrajPoint 10 50 0 true; TrajPoint 20 0 0 true]
  /\ (maxJumpPerMa * (10 - 0)) * (maxJumpPerMa * (10 - 0))
     < euclidSq (TrajPoint 0 0 0 false) (TrajPoint 10 25 25 false)
  /\ filterInvalidTrajectoryPoints diagonalJump = diagonalJump.
Proof.
  repeat split.
Qed.

(** ** findAnchorPoint *)

Lemma firstCoordinate_Some (r : fetchResult) (la lo : Q) :
  firstCoordinate r = Some (la, lo)
  <-> exists more, r = FetchData (Some ((lo, la) :: more)).
Proof.
  split.
  - destruct r as [| |[[|[lo' la'] more]|]]; try discriminate.
    cbn. intros [= -> ->]. now exists more.
  - intros [more ->]. reflexivity.
Qed.

Lemma firstCoordinate_None (r : fetchResult) :
  firstCoordinate r = None
  <-> forall lo la more, r <> FetchData (Some ((lo, la) :: more)).
Proof.
  split.
  - intros Hn lo la more ->. discriminate.
  - destruct r as [| |[[|[lo' la'] more]|]]; try reflexivity.
    intros Hn. now contradiction (Hn lo' la' more).
Qed.

Section AnchorFacts.
Context `{JSMath}.
Variable fetch : request -> fetchResult.
Variables (lat0 lon0 : Q) (modelName : string).

Local Abbreviation ringResults := (ringResults fetch lat0 lon0 modelName).
Local Abbreviation ringRequests := (ringRequests lat0 lon0 modelName).
Local Abbreviation searchFrom := (searchLoop fetch lat0 lon0 modelName).

Lemma updateBest_bestIs (best : option probe * Q) (seen : list (option probe))
    (r : option probe) :
  bestIs best seen -> bestIs (updateBest best r) (seen ++ [r]).
Proof.
  destruct best as [bp bm]. unfold bestIs, updateBest. cbn [fst snd].
  intros Hb. destruct r as [r|].
  - destruct (js_gt (movement r) 0.5) eqn:Eq; cbn [andb].
    + destruct (js_gt (movement r) bm) eqn:Em; cbn [fst snd].
      * apply js_gt_spec in Eq, Em.
        split; [apply in_or_app; right; now left|].
        split; [exact Eq|]. split; [reflexivity|].
        intros q Hq. apply in_app_or in Hq as [Hq|[[= ->]|[]]]; [|lra].
        destruct bp as [p|].
        -- destruct Hb as (_ & _ & -> & Hall). specialize (Hall q Hq). lra.
        -- destruct Hb as (-> & Hall). specialize (Hall q Hq). lra.
      * apply js_gt_spec in Eq. apply js_gt_false in Em.
        destruct bp as [p|].
        -- destruct Hb as (Hin & Hp & -> & Hall).
           split; [apply in_or_app; now left|]. split; [exact Hp|].
           split; [reflexivity|].
           intros q Hq. apply in_app_or in Hq as [Hq|[[= ->]|[]]];
             [now apply Hall|exact Em].
        -- destruct Hb as (-> & Hall). exfalso. lra.
    + apply js_gt_false in Eq.
      destruct bp as [p|].
      * destruct Hb as (Hin & Hp & -> & Hall).
        split; [apply in_or_app; now left|]. split; [exact Hp|].
        split; [reflexivity|].
        intros q Hq. apply in_app_or in Hq as [Hq|[[= ->]|[]]];
          [now apply Hall|lra].
      * destruct Hb as (-> & Hall). split; [reflexivity|].
        intros q Hq. apply in_app_or in Hq as [Hq|[[= ->]|[]]];
          [now apply Hall|exact Eq].
  - destruct bp as [p|].
    + destruct Hb as (Hin & Hp & -> & Hall).
      split; [apply in_or_app; now left|]. split; [exact Hp|].
      split; [reflexivity|].
      intros q Hq. apply in_app_or in Hq as [Hq|[[=]|[]]]. now apply Hall.
    + destruct Hb as (-> & Hall). split; [reflexivity|].
      intros q Hq. apply in_app_or in Hq as [Hq|[[=]|[]]]. now apply Hall.
Qed.

Lemma fold_updateBest_bestIs (rs : list (option probe)) :
  forall best seen,
    bestIs best seen -> bestIs (fold_left updateBest rs best) (seen ++ rs).
Proof.
  induction rs as [|r rs IH]; intros best seen Hb; cbn [fold_left].
  - now rewrite app_nil_r.
  - replace (seen ++ r :: rs) with ((seen ++ [r]) ++ rs)
      by now rewrite <- app_assoc.
    apply IH. now apply updateBest_bestIs.
Qed.

(** The loop searches the first [k] radii and stops there: either they are
    all the radii there are, or the best probe so far moved by more than 2
    degrees, which none had done before the last radius searched. *)
Lemma searchLoop_spec (dists : list Q) :
  forall best log seen,
    bestIs best seen ->
    (forall q, In (Some q) seen -> movement q <= 2) ->
    exists k,
      (k <= length dists)%nat
      /\ (dists <> [] -> (1 <= k)%nat)
      /\ snd (searchFrom dists best log)
         = log ++ flat_map ringRequests (take k dists)
      /\ bestIs (fst (searchFrom dists best log))
           (seen ++ flat_map ringResults (take k dists))
      /\ (k = length dists
          \/ exists p,
               In (Some p) (seen ++ flat_map ringResults (take k dists))
               /\ 2 < movement p)
      /\ (forall q,
            In (Some q) (seen ++ flat_map ringResults (take (k - 1) dists)) ->
            movement q <= 2).
Proof.
  induction dists as [|d rest IH]; intros best log seen Hb Hseen.
  - exists 0%nat. cbn. rewrite !app_nil_r.
    repeat split; try lia; try assumption; try congruence.
  - cbn [searchLoop].
    pose proof (fold_updateBest_bestIs (ringResults d) best seen Hb) as Hb1.
    set (best1 := fold_left updateBest (ringResults d) best) in *.
    destruct (js_truthy (fst best1) && js_gt (snd best1) 2) eqn:Estop.
    + exists 1%nat. cbn [take flat_map length fst snd Nat.sub].
      rewrite !app_nil_r.
      split; [lia|]. split; [lia|]. split; [reflexivity|].
      split; [exact Hb1|]. split; [|exact Hseen].
      right. apply andb_true_iff in Estop as [Et Eg].
      apply js_gt_spec in Eg. unfold bestIs in Hb1.
      destruct (fst best1) as [p|]; [|discriminate].
      destruct Hb1 as (Hin & _ & Hm & _). exists p. split; [exact Hin|].
      now rewrite <- Hm.
    + assert (Hseen1 : forall q, In (Some q) (seen ++ ringResults d) ->
                                 movement q <= 2).
      { intros q Hq. unfold bestIs in Hb1.
        destruct (fst best1) as [p|]; cbn [js_truthy andb] in Estop.
        - apply js_gt_false in Estop.
          destruct Hb1 as (_ & _ & Hm & Hall). specialize (Hall q Hq).
          rewrite Hm in Estop. lra.
        - destruct Hb1 as (_ & Hall). specialize (Hall q Hq). lra. }
      destruct (IH best1 (log ++ ringRequests d) (seen ++ ringResults d)
                  Hb1 Hseen1)
        as (k & Hk & Hk1 & Hlog & Hbest & Hstop & Hbefore).
      exists (S k). cbn [take flat_map length].
      split; [lia|]. split; [lia|].
      split; [now rewrite Hlog, <- app_assoc|].
      split; [now rewrite app_assoc|].
      split.
      * destruct Hstop as [->|Hstop]; [now left|right].
        now rewrite app_assoc.
      * replace (S k - 1)%nat with k by lia.
        destruct k as [|k'].
        -- cbn [take flat_map]. rewrite app_nil_r. exact Hseen.
        -- cbn [take flat_map]. rewrite app_assoc.
           replace (S k' - 1)%nat with k' in Hbefore by lia. exact Hbefore.
Qed.

Lemma testPoint_clamped (d angle : Q) :
  -85 <= fst (testPoint lat0 lon0 d angle) <= 85.
Proof.
  unfold testPoint. cbn [fst]. split.
  - apply Q.le_max_l.
  - apply Q.max_lub; [discriminate|apply Q.le_min_l].
Qed.

Lemma originalMoved_iff :
  originalMoved fetch lat0 lon0 modelName = true
  <-> exists reconLon reconLat more,
        fetch (Request lon0 lat0 50 modelName)
        = FetchData (Some ((reconLon, reconLat) :: more))
        /\ 0.5 < Math_sqrt ((reconLat - lat0) ^ 2 + (reconLon - lon0) ^ 2).
Proof.
  unfold originalMoved, testRequest, testAge, movementOf.
  destruct (firstCoordinate (fetch (Request lon0 lat0 50 modelName)))
    as [[rl ro]|] eqn:Hfc.
  - apply firstCoordinate_Some in Hfc as [more Hf].
    rewrite js_gt_spec. split.
    + intros Hm. now exists ro, rl, more.
    + intros (ro' & rl' & more' & Hf' & Hm).
      rewrite Hf in Hf'. now injection Hf' as <- <- _.
  - split; [discriminate|]. intros (ro & rl & more & Hf & _).
    rewrite firstCoordinate_None in Hfc. now contradiction (Hfc ro rl more).
Qed.

(** What a probe resolves to, in terms of the answer of the service. *)
Lemma testProbe_Some (d angle : Q) (p : probe) :
  testProbe fetch lat0 lon0 modelName d angle = Some p
  <-> exists rLon rLat more,
        fetch (Request (snd (testPoint lat0 lon0 d angle))
                 (fst (testPoint lat0 lon0 d angle)) 50 modelName)
        = FetchData (Some ((rLon, rLat) :: more))
        /\ p = {| p_lat := fst (testPoint lat0 lon0 d angle);
                  p_lon := snd (testPoint lat0 lon0 d angle);
                  movement :=
                    Math_sqrt
                      ((rLat - fst (testPoint lat0 lon0 d angle)) ^ 2
                       + (rLon - snd (testPoint lat0 lon0 d angle)) ^ 2);
                  dist := d |}.
Proof.
  unfold testProbe, probeRequest, testAge, movementOf.
  destruct (firstCoordinate _) as [[rl ro]|] eqn:Hfc.
  - apply firstCoordinate_Some in Hfc as [more Hf]. split.
    + intros [= <-]. now exists ro, rl, more.
    + intros (ro' & rl' & more' & Hf' & ->).
      rewrite Hf in Hf'. now injection Hf' as <- <- _.
  - split; [discriminate|]. intros (ro & rl & more & Hf & _).
    rewrite firstCoordinate_None in Hfc. now contradiction (Hfc ro rl more).
Qed.

Lemma ringResults_In (dists : list Q) (p : probe) :
  In (Some p) (flat_map ringResults dists)
  <-> exists d angle,
        In d dists /\ In angle searchAngles
        /\ testProbe fetch lat0 lon0 modelName d angle = Some p.
Proof.
  rewrite in_flat_map. split.
  - intros (d & Hd & Hin). apply in_map_iff in Hin as (angle & Hp & Ha).
    now exists d, angle.
  - intros (d & angle & Hd & Ha & Hp). exists d. split; [exact Hd|].
    apply in_map_iff. now exists angle.
Qed.

(** C4. [findAnchorPoint] reconstructs the original point at age 50 and
    returns no anchor, after that one request, when the service returns
    coordinates more than 0.5 degrees away from it.  Otherwise it searches
    the radii 1, 2, 3, 5, 8, 10, 15, 20 in that order, probing at each
    radius the 8 points at angles 0, 45, ..., 315 around the original
    point, with the probe latitude clamped to [-85, 85]: it sends one
    request per probe, for the first [k] radii, where [k] is the first
    radius at which some probe of the radii searched so far was moved by
    the service by more than 2 degrees, or all 8 when none was.  When the
    service moved a probe of those radii by more than 0.5 degrees, the
    anchor returned is such a probe, one that was moved the most, with
    offset = original - anchor; when it moved none that far (or returned
    no coordinates), no anchor is returned. *)
Theorem findAnchorPoint_spec :
  let probePoint := fun d angle : Q =>
    (Qmax (-85) (Qmin 85 (lat0 + d * Math_cos (angle * Math_PI / 180))),
     lon0 + d * Math_sin (angle * Math_PI / 180)) in
  let moved := fun pLat pLon m : Q =>
    exists rLon rLat more,
      fetch (Request pLon pLat 50 modelName)
      = FetchData (Some ((rLon, rLat) :: more))
      /\ m = Math_sqrt ((rLat - pLat) ^ 2 + (rLon - pLon) ^ 2) in
  let radii := [1; 2; 3; 5; 8; 10; 15; 20] in
  let angles := [0; 45; 90; 135; 180; 225; 270; 315] in
  let searched := fun (k : nat) (m : Q) =>
    exists d angle,
      In d (take k radii) /\ In angle angles
      /\ moved (fst (probePoint d angle)) (snd (probePoint d angle)) m in
  (forall d angle, -85 <= fst (probePoint d angle) <= 85)
  /\ ((exists m, moved lat0 lon0 m /\ 0.5 < m) ->
      findAnchorPoint fetch lat0 lon0 modelName
      = (None, [Request lon0 lat0 50 modelName]))
  /\ (~ (exists m, moved lat0 lon0 m /\ 0.5 < m) ->
      exists k,
        (1 <= k <= 8)%nat
        /\ snd (findAnchorPoint fetch lat0 lon0 modelName)
           = Request lon0 lat0 50 modelName
             :: flat_map
                  (fun d =>
                     map (fun angle =>
                            Request (snd (probePoint d angle))
                              (fst (probePoint d angle)) 50 modelName)
                       angles)
                  (take k radii)
        /\ (k = 8%nat \/ exists m, searched k m /\ 2 < m)
        /\ (forall m, searched (k - 1)%nat m -> m <= 2)
        /\ match fst (findAnchorPoint fetch lat0 lon0 modelName) with
           | Some an =>
               exists d angle m,
                 In d (take k radii) /\ In angle angles
                 /\ moved (fst (probePoint d angle))
                      (snd (probePoint d angle)) m
                 /\ 0.5 < m
                 /\ (forall m', searched k m' -> m' <= m)
                 /\ an = {| anchorLat := fst (probePoint d angle);
                            anchorLon := snd (probePoint d angle);
                            offsetLat := lat0 - fst (probePoint d angle);
                            offsetLon := lon0 - snd (probePoint d angle) |}
           | None => forall m, searched k m -> m <= 0.5
           end).
Proof.
  intros probePoint moved radii angles searched.
  assert (Hmoved : originalMoved fetch lat0 lon0 modelName = true
                   <-> exists m, moved lat0 lon0 m /\ 0.5 < m).
  { rewrite originalMoved_iff. unfold moved. split.
    - intros (ro & rl & more & Hf & Hm). eexists. split; [|exact Hm].
      now exists ro, rl, more.
    - intros (m & (ro & rl & more & Hf & ->) & Hm). now exists ro, rl, more. }
  assert (Hprobe : forall d angle p,
             testProbe fetch lat0 lon0 modelName d angle = Some p
             <-> moved (fst (probePoint d angle)) (snd (probePoint d angle))
                   (movement p)
                 /\ p_lat p = fst (probePoint d angle)
                 /\ p_lon p = snd (probePoint d angle)
                 /\ dist p = d).
  { intros d angle p. rewrite testProbe_Some. unfold moved.
    change (testPoint lat0 lon0 d angle) with (probePoint d angle).
    split.
    - intros (ro & rl & more & Hf & ->). cbn [movement p_lat p_lon dist].
      split; [now exists ro, rl, more|easy].
    - intros ((ro & rl & more & Hf & Hm) & Hla & Hlo & Hd).
      exists ro, rl, more. split; [exact Hf|].
      destruct p as [pla plo pm pd]. cbn in *. now subst. }
  assert (Hsearched : forall k m,
             searched k m
             <-> exists p,
                   In (Some p) (flat_map ringResults (take k searchDistances))
                   /\ movement p = m).
  { intros k m. unfold searched. split.
    - intros (d & angle & Hd & Ha & Hm).
      destruct Hm as (ro & rl & more & Hf & Hm).
      exists {| p_lat := fst (probePoint d angle);
                p_lon := snd (probePoint d angle);
                movement := m; dist := d |}.
      split; [|reflexivity].
      apply ringResults_In. exists d, angle.
      split; [exact Hd|]. split; [exact Ha|].
      apply Hprobe. cbn [movement p_lat p_lon dist].
      split; [now exists ro, rl, more|easy].
    - intros (p & Hin & <-). apply ringResults_In in Hin
        as (d & angle & Hd & Ha & Hp).
      exists d, angle. split; [exact Hd|]. split; [exact Ha|].
      now apply Hprobe. }
  split; [exact testPoint_clamped|].
  split.
  { intros Hm. apply Hmoved in Hm. unfold findAnchorPoint. now rewrite Hm. }
  intros Hnot.
  assert (Hm : originalMoved fetch lat0 lon0 modelName = false).
  { apply not_true_is_false. intros E. apply Hnot. now apply Hmoved. }
  unfold findAnchorPoint. rewrite Hm.
  assert (H0 : bestIs (None, 0) []).
  { split; [reflexivity|]. intros q []. }
  destruct (searchLoop_spec searchDistances (None, 0)
              [testRequest lat0 lon0 modelName] [] H0)
    as (k & Hk & Hk1 & Hlog & Hbest & Hstop & Hbefore).
  { intros q []. }
  exists k.
  destruct (searchFrom searchDistances (None, 0)
              [testRequest lat0 lon0 modelName]) as [best log].
  cbn [fst snd app] in *.
  split; [split; [apply Hk1; discriminate|exact Hk]|].
  split; [exact Hlog|].
  split.
  { destruct Hstop as [->|(p & Hin & Hp)]; [now left|right].
    exists (movement p). split; [|exact Hp].
    apply Hsearched. now exists p. }
  split.
  { intros m Hs. apply Hsearched in Hs as (p & Hin & <-). now apply Hbefore. }
  unfold bestIs in Hbest.
  destruct (fst best) as [p|]; cbn [option_map].
  - destruct Hbest as (Hin & Hp & _ & Hall).
    apply ringResults_In in Hin as (d & angle & Hd & Ha & Hpr).
    apply Hprobe in Hpr as (Hmv & Hla & Hlo & _).
    exists d, angle, (movement p).
    split; [exact Hd|]. split; [exact Ha|]. split; [exact Hmv|].
    split; [exact Hp|]. split.
    + intros m' Hs. apply Hsearched in Hs as (q & Hq & <-). now apply Hall.
    + unfold anchorOf. now rewrite Hla, Hlo.
  - destruct Hbest as (_ & Hall).
    intros m Hs. apply Hsearched in Hs as (q & Hq & <-). now apply Hall.
Qed.

End AnchorFacts.

(** On [northPlate] the point (0, 0) does not move; the first probe on a
    plate is the one due north at radius 3, found after 1 + 3 * 8
    requests. *)
Example findAnchorPoint_northPlate :
  option_map (fun an => (Qred (anchorLat an), Qred (anchorLon an),
                         Qred (offsetLat an), Qred (offsetLon an)))
    (fst (@findAnchorPoint tableMath northPlate 0 0 "MULLER2022"))
  = Some (3, 0, -3, 0)
  /\ length (snd (@findAnchorPoint tableMath northPlate 0 0 "MULLER2022"))
     = 25%nat.
Proof. split; vm_compute; reflexivity. Qed.

(** ** The step sequence of ages *)

Lemma stepOf_pos (maxAge : Q) : 0 < stepOf maxAge.
Proof.
  unfold stepOf. destruct (js_lt maxAge 20); [reflexivity|].
  destruct (js_lt maxAge 100); reflexivity.
Qed.

Lemma agesLoop_lower (step maxAge : Q) :
  0 < step ->
  forall fuel a, Forall (fun x => a <= x) (agesLoop fuel a step maxAge).
Proof.
  intros Hstep. induction fuel as [|fuel IH]; intros a; cbn [agesLoop].
  - constructor.
  - destruct (Qle_bool a maxAge); [|constructor].
    constructor; [apply Qle_refl|].
    eapply Forall_impl; [apply (IH (a + step))|].
    cbn. intros x Hx. lra.
Qed.

Lemma agesLoop_increasing (step maxAge : Q) :
  0 < step ->
  forall fuel a, StronglySorted Qlt (agesLoop fuel a step maxAge).
Proof.
  intros Hstep. induction fuel as [|fuel IH]; intros a; cbn [agesLoop].
  - constructor.
  - destruct (Qle_bool a maxAge); [|constructor].
    constructor; [apply IH|].
    eapply Forall_impl; [apply (agesLoop_lower step maxAge Hstep fuel (a + step))|].
    cbn. intros x Hx. lra.
Qed.

Lemma agesLoop_upper (step maxAge : Q) :
  forall fuel a, Forall (fun x => x <= maxAge) (agesLoop fuel a step maxAge).
Proof.
  induction fuel as [|fuel IH]; intros a; cbn [agesLoop].
  - constructor.
  - destruct (Qle_bool a maxAge) eqn:E; [|constructor].
    constructor; [now apply Qle_bool_iff|apply IH].
Qed.

(** Once the bound is passed more iterations change nothing. *)
Lemma agesLoop_enough (step maxAge : Q) :
  0 < step ->
  forall fuel a extra,
    maxAge < a + inject_Z (Z.of_nat fuel) * step ->
    agesLoop (fuel + extra) a step maxAge = agesLoop fuel a step maxAge.
Proof.
  intros Hstep. induction fuel as [|fuel IH]; intros a extra Hlt.
  - change (inject_Z (Z.of_nat 0)) with 0 in Hlt. cbn [Nat.add agesLoop].
    destruct extra; [reflexivity|]. cbn [agesLoop].
    destruct (Qle_bool a maxAge) eqn:E; [|reflexivity].
    apply Qle_bool_iff in E. exfalso. lra.
  - cbn [Nat.add agesLoop].
    destruct (Qle_bool a maxAge); [|reflexivity].
    f_equal. apply IH.
    rewrite Nat2Z.inj_succ in Hlt. unfold Z.succ in Hlt.
    rewrite inject_Z_plus in Hlt. change (inject_Z 1) with 1 in Hlt.
    set (n := inject_Z (Z.of_nat fuel)) in *.
    assert (Heq : (n + 1) * step == n * step + step) by ring.
    rewrite Heq in Hlt. lra.
Qed.

Lemma agesFuel_enough (step maxAge : Q) :
  0 < step ->
  maxAge < step + inject_Z (Z.of_nat (agesFuel step maxAge)) * step.
Proof.
  intros Hstep. unfold agesFuel.
  pose proof (Qlt_floor (maxAge / step)) as Hfl.
  assert (Hz : inject_Z (Qfloor (maxAge / step))
               <= inject_Z (Z.of_nat (Z.to_nat (Qfloor (maxAge / step))))).
  { rewrite <- Zle_Qle. lia. }
  rewrite inject_Z_plus in Hfl. change (inject_Z 1) with 1 in Hfl.
  assert (Hm : maxAge == (maxAge / step) * step).
  { field. lra. }
  rewrite Hm at 1.
  set (q := maxAge / step) in *.
  set (n := inject_Z (Z.of_nat (Z.to_nat (Qfloor q)))) in *.
  assert (Hq : q * step < (n + 1) * step).
  { apply Qmult_lt_compat_r; lra. }
  assert (Heq : (n + 1) * step == n * step + step) by ring.
  rewrite Heq in Hq. lra.
Qed.

Lemma agesOf_total (maxAge : Q) (extra : nat) :
  agesLoop (agesFuel (stepOf maxAge) maxAge + extra)
    (stepOf maxAge) (stepOf maxAge) maxAge
  = agesOf maxAge.
Proof.
  unfold agesOf. apply agesLoop_enough; [apply stepOf_pos|].
  apply agesFuel_enough, stepOf_pos.
Qed.

Lemma agesLoop_multiples (step maxAge base : Q) :
  forall (fuel : nat) (a : Q) (n : nat),
    a == base + inject_Z (Z.of_nat n) * step ->
    Forall2 (fun x i => x == base + inject_Z (Z.of_nat i) * step)
      (agesLoop fuel a step maxAge)
      (seq n (length (agesLoop fuel a step maxAge))).
Proof.
  induction fuel as [|fuel IH]; intros a n Ha; cbn [agesLoop].
  - constructor.
  - destruct (Qle_bool a maxAge); [|constructor].
    cbn [length seq]. constructor; [exact Ha|].
    apply IH. rewrite Ha, Nat2Z.inj_succ. unfold Z.succ.
    rewrite inject_Z_plus. change (inject_Z 1) with 1. ring.
Qed.

Lemma agesLoop_length (step maxAge : Q) :
  0 < step ->
  forall (fuel : nat) (a : Q),
    fuel = 0%nat \/ a + inject_Z (Z.of_nat fuel) * step - step <= maxAge ->
    length (agesLoop fuel a step maxAge) = fuel.
Proof.
  intros Hstep. induction fuel as [|fuel IH]; intros a Hle; [reflexivity|].
  destruct Hle as [Hz|Hle]; [discriminate|].
  rewrite Nat2Z.inj_succ in Hle. unfold Z.succ in Hle.
  rewrite inject_Z_plus in Hle. change (inject_Z 1) with 1 in Hle.
  set (f := inject_Z (Z.of_nat fuel)) in *.
  assert (Hf : 0 <= f) by (unfold f; rewrite <- (Zle_Qle 0); lia).
  assert (Hfs : 0 <= f * step) by (apply Qmult_le_0_compat; lra).
  assert (Heq : (f + 1) * step == f * step + step) by ring.
  rewrite Heq in Hle.
  cbn [agesLoop].
  assert (E : Qle_bool a maxAge = true) by (apply Qle_bool_iff; lra).
  rewrite E. cbn [length]. f_equal. apply IH.
  destruct fuel as [|fuel']; [now left|right].
  fold f. lra.
Qed.

(** The ages of the loop for a positive step: the multiples of the step up
    to [maxAge], all of them. *)
Lemma agesBy_multiples (step maxAge : Q) :
  0 < step ->
  length (agesBy step maxAge) = Z.to_nat (Qfloor (maxAge / step))
  /\ Forall2 (fun a k => a == inject_Z (Z.of_nat k) * step)
       (agesBy step maxAge) (seq 1 (length (agesBy step maxAge)))
  /\ Forall (fun a => a <= maxAge) (agesBy step maxAge)
  /\ maxAge < inject_Z (Z.of_nat (S (length (agesBy step maxAge)))) * step.
Proof.
  intros Hstep.
  assert (Hlen : length (agesBy step maxAge)
                 = Z.to_nat (Qfloor (maxAge / step))).
  { unfold agesBy. apply agesLoop_length; [exact Hstep|].
    unfold agesFuel.
    destruct (Z.to_nat (Qfloor (maxAge / step))) as [|n] eqn:Hn;
      [now left|right].
    assert (Hpos : (0 < Qfloor (maxAge / step))%Z) by lia.
    rewrite <- Hn, Z2Nat.id by lia.
    pose proof (Qfloor_le (maxAge / step)) as Hfl.
    assert (Hm : maxAge == (maxAge / step) * step) by (field; lra).
    set (q := maxAge / step) in *.
    assert (inject_Z (Qfloor q) * step <= q * step)
      by (apply Qmult_le_compat_r; lra).
    lra. }
  split; [exact Hlen|]. split; [|split].
  - unfold agesBy at 1 2.
    eapply Forall2_impl.
    + apply (agesLoop_multiples step maxAge 0 _ step 1).
      change (inject_Z (Z.of_nat 1)) with 1. ring.
    + cbn. intros a k Hak. rewrite Hak. ring.
  - apply agesLoop_upper.
  - rewrite Hlen.
    pose proof (agesFuel_enough step maxAge Hstep) as Hen.
    unfold agesFuel in Hen. rewrite Nat2Z.inj_succ. unfold Z.succ.
    rewrite inject_Z_plus. change (inject_Z 1) with 1.
    set (f := inject_Z (Z.of_nat (Z.to_nat (Qfloor (maxAge / step))))) in *.
    assert (Heq : (f + 1) * step == step + f * step) by ring.
    rewrite Heq. exact Hen.
Qed.

(** ** Sorting by age *)

Lemma insertByAge_perm (pt : trajPoint) (l : list trajPoint) :
  Permutation (insertByAge pt l) (pt :: l).
Proof.
  induction l as [|q tl IH]; cbn [insertByAge]; [reflexivity|].
  destruct (js_lt (compareAge pt q) 0); [reflexivity|].
  rewrite IH. apply perm_swap.
Qed.

Lemma insertByAge_sorted (pt : trajPoint) (l : list trajPoint) :
  StronglySorted ageLe l -> StronglySorted ageLe (insertByAge pt l).
Proof.
  induction 1 as [|q tl Hs IH Hq]; cbn [insertByAge].
  - repeat constructor.
  - destruct (js_lt (compareAge pt q) 0) eqn:E.
    + apply js_gt_spec in E. unfold compareAge in E.
      constructor; [now constructor|].
      constructor; [unfold ageLe; lra|].
      eapply Forall_impl; [exact Hq|].
      unfold ageLe. cbn. intros x Hx. lra.
    + apply js_gt_false in E. unfold compareAge in E.
      constructor; [exact IH|].
      rewrite (insertByAge_perm pt tl).
      constructor; [unfold ageLe; lra|exact Hq].
Qed.

Lemma sortLoop_perm (results : list trajPoint) :
  forall sorted,
    Permutation
      (fold_left (fun sorted pt => insertByAge pt sorted) results sorted)
      (sorted ++ results).
Proof.
  induction results as [|pt rest IH]; intros sorted; cbn [fold_left].
  - now rewrite app_nil_r.
  - rewrite IH, insertByAge_perm. apply Permutation_middle.
Qed.

Lemma sortLoop_sorted (results : list trajPoint) :
  forall sorted,
    StronglySorted ageLe sorted ->
    StronglySorted ageLe
      (fold_left (fun sorted pt => insertByAge pt sorted) results sorted).
Proof.
  induction results as [|pt rest IH]; intros sorted Hs; cbn [fold_left].
  - exact Hs.
  - apply IH. now apply insertByAge_sorted.
Qed.

Lemma sortByAge_perm (results : list trajPoint) :
  Permutation (sortByAge results) results.
Proof. apply (sortLoop_perm results []). Qed.

Lemma sortByAge_sorted (results : list trajPoint) :
  StronglySorted ageLe (sortByAge results).
Proof. apply sortLoop_sorted. constructor. Qed.

(** A list with strictly increasing ages has one sorted arrangement. *)
Lemma sorted_unique (l1 : list trajPoint) :
  forall l2,
    StronglySorted ageLt l1 -> StronglySorted ageLe l2 ->
    Permutation l1 l2 -> l1 = l2.
Proof.
  induction l1 as [|a l1 IH]; intros l2 H1 H2 Hperm.
  - now apply Permutation_nil in Hperm.
  - destruct l2 as [|b l2].
    { symmetry in Hperm. now apply Permutation_nil in Hperm. }
    apply StronglySorted_inv in H1 as [H1 Ha].
    apply StronglySorted_inv in H2 as [H2 Hb].
    rewrite Forall_forall in Ha, Hb.
    assert (a = b) as <-.
    { assert (Hb1 : In b (a :: l1)).
      { apply (Permutation_in b (Permutation_sym Hperm)). now left. }
      destruct Hb1 as [Hab|Hb1]; [exact Hab|].
      assert (Ha2 : In a (b :: l2)).
      { apply (Permutation_in a Hperm). now left. }
      destruct Ha2 as [Hba|Ha2]; [now symmetry|].
      apply list_elem_of_In in Hb1, Ha2.
      specialize (Ha b Hb1). specialize (Hb a Ha2).
      unfold ageLt, ageLe in *. lra. }
    f_equal. apply IH; [exact H1|exact H2|].
    now apply Permutation_cons_inv in Hperm.
Qed.

Lemma sortByAge_arrival (results arrival : list trajPoint) :
  StronglySorted ageLt results ->
  Permutation arrival results ->
  sortByAge arrival = results.
Proof.
  intros Hs Hperm. symmetry. apply sorted_unique.
  - exact Hs.
  - apply sortByAge_sorted.
  - rewrite sortByAge_perm. now symmetry.
Qed.

(** ** generateFullTrajectoryAsync *)

Section TrajectoryFacts.
Context `{JSMath}.
Variable fetch : request -> fetchResult.
Variables (lat0 lon0 maxAge : Q) (modelName : string).

Lemma resultAt_cases (anc : option anchor) (a : Q) :
  resultAt fetch lat0 lon0 modelName anc a
  = match firstCoordinate (fetch (ageRequest lat0 lon0 modelName anc a)) with
    | Some (resultLat, resultLon) =>
        match anc with
        | Some an =>
            TrajPoint a (resultLat + offsetLat an) (resultLon + offsetLon an)
              false
        | None => TrajPoint a resultLat resultLon false
        end
    | None => TrajPoint a lat0 lon0 false
    end.
Proof.
  unfold resultAt.
  destruct (fetch (ageRequest lat0 lon0 modelName anc a)) as [| |c];
    reflexivity.
Qed.

Lemma resultAt_age (anc : option anchor) (a : Q) :
  age (resultAt fetch lat0 lon0 modelName anc a) = a.
Proof.
  rewrite resultAt_cases.
  destruct (firstCoordinate _) as [[rl ro]|]; [destruct anc|]; reflexivity.
Qed.

Lemma results_increasing (anc : option anchor) (ages : list Q) :
  StronglySorted Qlt ages ->
  StronglySorted ageLt (map (resultAt fetch lat0 lon0 modelName anc) ages).
Proof.
  induction 1 as [|a ages Hs IH Ha]; cbn [map]; constructor.
  - exact IH.
  - rewrite Forall_forall in Ha. apply Forall_forall.
    intros pt Hpt. apply list_elem_of_In, in_map_iff in Hpt as (b & <- & Hb).
    unfold ageLt. rewrite !resultAt_age. apply Ha. now apply list_elem_of_In.
Qed.

Lemma agesOf_increasing : StronglySorted Qlt (agesOf maxAge).
Proof. apply agesLoop_increasing, stepOf_pos. Qed.

Lemma agesOf_positive (a : Q) : In a (agesOf maxAge) -> 0 < a.
Proof.
  intros Hin.
  pose proof (agesLoop_lower (stepOf maxAge) maxAge (stepOf_pos maxAge)
                (agesFuel (stepOf maxAge) maxAge) (stepOf maxAge)) as Hlow.
  rewrite Forall_forall in Hlow.
  pose proof (stepOf_pos maxAge).
  specialize (Hlow a). cbn in Hlow.
  apply Qlt_le_trans with (stepOf maxAge); [assumption|].
  apply Hlow. now apply list_elem_of_In.
Qed.

Lemma gatherResults_increasing (anc : option anchor) :
  StronglySorted ageLt (gatherResults fetch lat0 lon0 maxAge modelName anc).
Proof. apply results_increasing, agesOf_increasing. Qed.

Lemma gatherResults_ages (anc : option anchor) :
  map age (gatherResults fetch lat0 lon0 maxAge modelName anc)
  = agesOf maxAge.
Proof.
  unfold gatherResults. rewrite map_map.
  rewrite (map_ext _ (fun a => a)); [apply map_id|].
  intros a. apply resultAt_age.
Qed.

(** The sort leaves the gathered results as they are. *)
Lemma generateFullTrajectoryAsync_eq (during1 during2 : list handler) :
  generateFullTrajectoryAsync fetch lat0 lon0 maxAge modelName during1 during2
  = (runHandlers during2
       (runHandlers during1 [] ++ [TrajPoint 0 lat0 lon0 false])
     ++ gatherResults fetch lat0 lon0 maxAge modelName
          (fst (findAnchorPoint fetch lat0 lon0 modelName)),
     snd (findAnchorPoint fetch lat0 lon0 modelName)
     ++ map (ageRequest lat0 lon0 modelName
               (fst (findAnchorPoint fetch lat0 lon0 modelName)))
          (agesOf maxAge)).
Proof.
  unfold generateFullTrajectoryAsync.
  destruct (findAnchorPoint fetch lat0 lon0 modelName) as [anc log].
  cbn [fst snd]. unfold pushResults, pushOrigin. f_equal. f_equal.
  apply sortByAge_arrival; [apply gatherResults_increasing|reflexivity].
Qed.

Lemma findAnchorPoint_offset (an : anchor) :
  fst (findAnchorPoint fetch lat0 lon0 modelName) = Some an ->
  offsetLat an = lat0 - anchorLat an /\ offsetLon an = lon0 - anchorLon an.
Proof.
  unfold findAnchorPoint.
  destruct (originalMoved fetch lat0 lon0 modelName); [discriminate|].
  destruct (searchLoop _ _ _ _ _ _ _) as [[[b|] bm] log]; cbn; [|discriminate].
  intros [= <-]. split; reflexivity.
Qed.

Lemma stepOf_cases :
  maxAge < 20 /\ stepOf maxAge = 5
  \/ (20 <= maxAge /\ maxAge < 100) /\ stepOf maxAge = 10
  \/ 100 <= maxAge /\ stepOf maxAge = 20.
Proof.
  unfold stepOf, js_lt.
  destruct (js_gt 20 maxAge) eqn:E20.
  - apply js_gt_spec in E20. now left.
  - apply js_gt_false in E20. right.
    destruct (js_gt 100 maxAge) eqn:E100.
    + apply js_gt_spec in E100. now left.
    + apply js_gt_false in E100. now right.
Qed.

Lemma gatherResults_multiples (anc : option anchor) :
  Forall2
    (fun pt k =>
       age pt == inject_Z (Z.of_nat k) * stepOf maxAge
       /\ isEndPoint pt = false)
    (gatherResults fetch lat0 lon0 maxAge modelName anc)
    (seq 1 (Z.to_nat (Qfloor (maxAge / stepOf maxAge)))).
Proof.
  destruct (agesBy_multiples (stepOf maxAge) maxAge (stepOf_pos maxAge))
    as (Hlen & Hmul & _).
  rewrite Hlen in Hmul. unfold gatherResults.
  change (agesBy (stepOf maxAge) maxAge) with (agesOf maxAge) in Hmul.
  induction Hmul as [|a k ages ks Hak _ IH]; cbn [map]; constructor.
  - rewrite resultAt_age. split; [exact Hak|].
    rewrite resultAt_cases.
    destruct (firstCoordinate _) as [[rl ro]|]; [destruct anc|]; reflexivity.
  - exact IH.
Qed.

(** C5 (as the code has it). When no other handler of the page runs
    while a call of [generateFullTrajectoryAsync] awaits, the trajectory
    it returns is the point of age 0 at the unmodified input coordinates
    followed by one point for each of the ages [step], [2 * step], ...,
    [n * step], where [step] is 5, 10 or 20 for [maxAge] below 20, below
    100 or from 100 on and [n] is the integer part of [maxAge / step]: its
    ages are strictly increasing.  The per-age results are sorted by age
    before they are appended, which gives the same whatever the order they
    come in.  Whatever other handlers do while the call awaits, these same
    results are what the call appends, in this order, to what the global
    holds by then. *)
Theorem generateFullTrajectoryAsync_monotone :
  exists (step : Q) (results : list trajPoint),
    (maxAge < 20 /\ step = 5
     \/ (20 <= maxAge /\ maxAge < 100) /\ step = 10
     \/ 100 <= maxAge /\ step = 20)
    /\ Forall2
         (fun pt k =>
            age pt == inject_Z (Z.of_nat k) * step /\ isEndPoint pt = false)
         results (seq 1 (Z.to_nat (Qfloor (maxAge / step))))
    /\ fst (generateFullTrajectoryAsync fetch lat0 lon0 maxAge modelName [] [])
       = TrajPoint 0 lat0 lon0 false :: results
    /\ StronglySorted ageLt
         (fst (generateFullTrajectoryAsync fetch lat0 lon0 maxAge modelName
                 [] []))
    /\ (forall arrival,
          Permutation arrival results -> sortByAge arrival = results)
    /\ (forall during1 during2 : list handler,
          fst (generateFullTrajectoryAsync fetch lat0 lon0 maxAge modelName
                 during1 during2)
          = runHandlers during2
              (runHandlers during1 [] ++ [TrajPoint 0 lat0 lon0 false])
            ++ results).
Proof.
  set (anc := fst (findAnchorPoint fetch lat0 lon0 modelName)).
  exists (stepOf maxAge), (gatherResults fetch lat0 lon0 maxAge modelName anc).
  split; [exact stepOf_cases|].
  split; [apply gatherResults_multiples|].
  rewrite generateFullTrajectoryAsync_eq. cbn [fst]. fold anc.
  split; [reflexivity|]. split; [|split].
  - cbn [runHandlers fold_left app].
    constructor; [apply gatherResults_increasing|].
    apply Forall_forall. intros pt Hpt.
    apply list_elem_of_In, in_map_iff in Hpt as (a & <- & Ha).
    unfold ageLt. rewrite resultAt_age. cbn [age].
    now apply agesOf_positive.
  - intros arrival Hperm.
    apply sortByAge_arrival; [apply gatherResults_increasing|exact Hperm].
  - intros during1 during2. rewrite generateFullTrajectoryAsync_eq.
    reflexivity.
Qed.

Lemma increasing_Qeq_eq (l : list Q) (a b : Q) :
  StronglySorted Qlt l -> In a l -> In b l -> a == b -> a = b.
Proof.
  induction 1 as [|x l Hs IH Hx]; intros Ha Hb Hab; [destruct Ha|].
  rewrite Forall_forall in Hx.
  destruct Ha as [<-|Ha], Hb as [<-|Hb].
  - reflexivity.
  - apply list_elem_of_In, Hx in Hb. lra.
  - apply list_elem_of_In, Hx in Ha. lra.
  - now apply IH.
Qed.

(** C6 (as the code has it). For every age of the step sequence (all of
    them positive) the results that a call of
    [generateFullTrajectoryAsync] appends to the trajectory, whatever
    other handlers do meanwhile, hold exactly one point of that age, which
    is the only point of that age of the trajectory when no other handler
    runs; the request for that age goes to the anchor when
    there is one and to the original point when there is none, one request
    per age after the anchor search.  When the request returns coordinates,
    the point is those coordinates plus the offset of the anchor (original
    minus anchor, fixed when the anchor was found) if there is an anchor,
    and those coordinates unchanged if there is none; when the request
    fails or returns no coordinates, the point is the original input
    coordinates, and the other ages have their points all the same. *)
Theorem generateFullTrajectoryAsync_point_at_age (a : Q)
    (during1 during2 : list handler) :
  In a (agesOf maxAge) ->
  0 < a
  /\ snd (generateFullTrajectoryAsync fetch lat0 lon0 maxAge modelName
            during1 during2)
     = snd (findAnchorPoint fetch lat0 lon0 modelName)
       ++ map (fun a' =>
                 match fst (findAnchorPoint fetch lat0 lon0 modelName) with
                 | Some an => Request (anchorLon an) (anchorLat an) a' modelName
                 | None => Request lon0 lat0 a' modelName
                 end)
            (agesOf maxAge)
  /\ exists (results : list trajPoint) (pt : trajPoint),
       fst (generateFullTrajectoryAsync fetch lat0 lon0 maxAge modelName
              during1 during2)
       = runHandlers during2
           (runHandlers during1 [] ++ [TrajPoint 0 lat0 lon0 false])
         ++ results
       /\ fst (generateFullTrajectoryAsync fetch lat0 lon0 maxAge modelName
                 [] [])
          = TrajPoint 0 lat0 lon0 false :: results
       /\ map age results = agesOf maxAge
       /\ In pt results
       /\ age pt = a
       /\ isEndPoint pt = false
       /\ (forall q, In q results -> age q == a -> q = pt)
       /\ match fst (findAnchorPoint fetch lat0 lon0 modelName) with
          | Some an =>
              match fetch (Request (anchorLon an) (anchorLat an) a modelName)
              with
              | FetchData (Some ((resultLon, resultLat) :: _)) =>
                  tlat pt = resultLat + (lat0 - anchorLat an)
                  /\ tlon pt = resultLon + (lon0 - anchorLon an)
              | _ => tlat pt = lat0 /\ tlon pt = lon0
              end
          | None =>
              match fetch (Request lon0 lat0 a modelName) with
              | FetchData (Some ((resultLon, resultLat) :: _)) =>
                  tlat pt = resultLat /\ tlon pt = resultLon
              | _ => tlat pt = lat0 /\ tlon pt = lon0
              end
          end.
Proof.
  intros Ha. rewrite !generateFullTrajectoryAsync_eq. cbn [fst snd].
  pose proof (agesOf_positive a Ha) as Hpos.
  split; [exact Hpos|].
  pose proof findAnchorPoint_offset as Hoff.
  set (anc := fst (findAnchorPoint fetch lat0 lon0 modelName)) in *.
  split.
  { f_equal. apply map_ext. intros a'. unfold ageRequest, reconPoint.
    now destruct anc. }
  exists (gatherResults fetch lat0 lon0 maxAge modelName anc),
         (resultAt fetch lat0 lon0 modelName anc a).
  split; [reflexivity|]. split; [reflexivity|].
  split; [apply gatherResults_ages|].
  split; [unfold gatherResults; now apply in_map|].
  split; [apply resultAt_age|].
  split.
  { rewrite resultAt_cases.
    destruct (firstCoordinate _) as [[rl ro]|]; [destruct anc|]; reflexivity. }
  split.
  - intros q Hq Hqa.
    unfold gatherResults in Hq. apply in_map_iff in Hq as (b & <- & Hb).
    rewrite resultAt_age in Hqa.
    now rewrite (increasing_Qeq_eq _ b a agesOf_increasing Hb Ha Hqa).
  - unfold resultAt, ageRequest, reconPoint.
    destruct anc as [an|]; cbn [fst snd].
    + destruct (Hoff an eq_refl) as [Hla Hlo].
      destruct (fetch (Request (anchorLon an) (anchorLat an) a modelName))
        as [| |[[|[lo la] more]|]]; cbn [firstCoordinate tlat tlon];
        try (split; reflexivity).
      now rewrite Hla, Hlo.
    + destruct (fetch (Request lon0 lat0 a modelName))
        as [| |[[|[lo la] more]|]]; cbn [firstCoordinate tlat tlon];
        split; reflexivity.
Qed.

End TrajectoryFacts.

Example agesOf_examples :
  agesOf 28 = [10; 20] /\ agesOf 3 = [] /\ agesOf 19.9 = [5; 10; 15]
  /\ agesOf 100 = [20; 40; 60; 80; 100] /\ agesOf (-5) = [].
Proof. repeat split. Qed.

Example generateFullTrajectoryAsync_northPlate :
  map (fun p => (Qred (age p), Qred (tlat p), Qred (tlon p)))
    (fst (@generateFullTrajectoryAsync tableMath northPlate 0 0 28
            "MULLER2022" [] []))
  = [(0, 0, 0); (10, 3, 4); (20, 3, 4)].
Proof. vm_compute. reflexivity. Qed.

Lemma generateFullTrajectoryAsync_point_at_age_witness :
  In 10 (agesOf 28)
  /\ 0 < 10
  /\ exists (results : list trajPoint) (pt : trajPoint),
       fst (@generateFullTrajectoryAsync tableMath northPlate 0 0 28
              "MULLER2022" [] [])
       = TrajPoint 0 0 0 false :: results
       /\ In pt results /\ age pt = 10
       /\ tlat pt == 3 /\ tlon pt == 4.
Proof.
  assert (Hin : In 10 (agesOf 28)) by (left; reflexivity).
  split; [exact Hin|].
  destruct (@generateFullTrajectoryAsync_point_at_age tableMath northPlate
              0 0 28 "MULLER2022" 10 [] [] Hin)
    as (Hpos & _ & results & pt & _ & Heq & _ & Hpt & Hage & _ & _ & Hxy).
  split; [exact Hpos|]. exists results, pt.
  split; [exact Heq|]. split; [exact Hpt|]. split; [exact Hage|].
  destruct pt as [ptAge ptLat ptLon ptFlag]. cbn [tlat tlon].
  vm_compute in Hxy. destruct Hxy as [-> ->]. split; reflexivity.
Defined.

(** C6 as stated does not hold when another journey is started while the
    call awaits its results.  The call for the point (0, 0) has the anchor
    (3, 0) with offset (-3, 0), and its request for age 10 returns the
    latitude 6 and the longitude 4: its point of age 10 is (3, 4).  With
    the three stretches of a call for the point (10, 10) run meanwhile, the
    trajectory that the first call returns has a point of age 10 at
    (13, 14) as well. *)
Lemma generateFullTrajectoryAsync_point_at_age_counterexample :
  option_map (fun an => (Qred (anchorLat an), Qred (anchorLon an),
                         Qred (offsetLat an), Qred (offsetLon an)))
    (fst (@findAnchorPoint tableMath northPlate 0 0 "MULLER2022"))
  = Some (3, 0, -3, 0)
  /\ northPlate (Request 0 3 10 "MULLER2022") = FetchData (Some [(0 + 4, 3 + 3)])
  /\ exists q,
       In q (fst (@generateFullTrajectoryAsync tableMath northPlate 0 0 28
                    "MULLER2022" []
                    [beginTrajectory; pushOrigin 10 10;
                     pushResults northPlate 10 10 28 "MULLER2022"
                       (fst (@findAnchorPoint tableMath northPlate 10 10
                               "MULLER2022"))]))
       /\ age q = 10
       /\ tlat q == 13 /\ tlon q == 14
       /\ ~ (tlat q == 6 + -3 /\ tlon q == 4 + 0).
Proof.
  split; [vm_compute; reflexivity|].
  split; [reflexivity|].
  assert (Hq : exists q rest,
             fst (@generateFullTrajectoryAsync tableMath northPlate 0 0 28
                    "MULLER2022" []
                    [beginTrajectory; pushOrigin 10 10;
                     pushResults northPlate 10 10 28 "MULLER2022"
                       (fst (@findAnchorPoint tableMath northPlate 10 10
                               "MULLER2022"))])
             = TrajPoint 0 10 10 false :: q :: rest
             /\ age q = 10 /\ tlat q == 13 /\ tlon q == 14).
  { eexists. eexists. split; [vm_compute; reflexivity|].
    split; [reflexivity|]. split; reflexivity. }
  destruct Hq as (q & rest & Heq & Hage & Hlat & Hlon).
  exists q. rewrite Heq.
  split; [right; now left|]. split; [exact Hage|].
  split; [exact Hlat|]. split; [exact Hlon|].
  intros [Hl _]. rewrite Hlat in Hl. discriminate.
Qed.

(** C5 as stated does not hold when another handler runs while the call
    awaits.  With [stopJourney] called while the results are awaited, the
    trajectory returned does not start with the point of age 0: its first
    point is the one of age 10.  With a second journey started meanwhile,
    whose call has appended its own point of age 0, the trajectory
    returned has two points of age 0: its ages are not strictly
    increasing. *)
Lemma generateFullTrajectoryAsync_counterexample :
  option_map position
    (head (fst (@generateFullTrajectoryAsync tableMath northPlate 0 0 28
                  "MULLER2022" [] [stopJourney])))
  <> Some (0, 0, 0)
  /\ option_map age
       (head (fst (@generateFullTrajectoryAsync tableMath northPlate 0 0 28
                     "MULLER2022" [] [stopJourney])))
     = Some 10
  /\ ~ StronglySorted ageLt
         (fst (@generateFullTrajectoryAsync tableMath northPlate 0 0 28
                 "MULLER2022" [] [pushOrigin 10 10])).
Proof.
  split; [vm_compute; discriminate|].
  split; [vm_compute; reflexivity|].
  intros Hs.
  assert (Hhead : exists rest,
             fst (@generateFullTrajectoryAsync tableMath northPlate 0 0 28
                    "MULLER2022" [] [pushOrigin 10 10])
             = TrajPoint 0 0 0 false :: TrajPoint 0 10 10 false :: rest).
  { eexists. vm_compute. reflexivity. }
  destruct Hhead as [rest Heq]. rewrite Heq in Hs.
  apply StronglySorted_inv in Hs as [_ Hall].
  apply Forall_cons in Hall as [Hlt _]. unfold ageLt in Hlt. cbn in Hlt.
  now apply Qlt_irrefl in Hlt.
Qed.

(** ** hashlib.md5 *)

(** The digests of the empty string and of [abc] given in RFC 1321, and
    the cache file of a request of the page. *)
Example md5_hexdigest_rfc1321 :
  md5_hexdigest "" = "d41d8cd98f00b204e9800998ecf8427e"
  /\ md5_hexdigest "abc" = "900150983cd24fb0d6963f7d28e17f72".
Proof. split; vm_compute; reflexivity. Qed.

Example get_cache_path_points_time_50 :
  get_cache_path (gplates_url points_time_50)
  = "gplates_cache/a4d0cd4cd07564d6e43222383b9da27b.json".
Proof. vm_compute. reflexivity. Qed.

(** ** Files of the cache directory *)

Lemma write_text_ok (e : env) (path data : string) (d : disk_cache) :
  write_ok e = true -> write_text e path data d = <[path := data]> d.
Proof.
  unfold write_ok, write_text.
  now destruct (write_text_result e).
Qed.

Lemma write_text_frame (e : env) (path data : string) (d : disk_cache)
    (p : string) :
  p <> path -> write_text e path data d !! p = d !! p.
Proof.
  intros Hp. unfold write_text.
  destruct (write_text_result e); [|reflexivity|];
    now rewrite lookup_insert_ne.
Qed.

(** A write leaves the directory as it is or puts a prefix of the text
    into the file. *)
Lemma write_text_cases (e : env) (path data : string) (d : disk_cache) :
  write_text e path data d = d
  \/ exists written,
       write_text e path data d = <[path := substring 0 written data]> d.
Proof.
  unfold write_text. destruct (write_text_result e) as [| |written].
  - right. exists (String.length data).
    assert (Hs : forall t, substring 0 (String.length t) t = t).
    { induction t as [|c t IH]; [reflexivity|]. cbn. now rewrite IH. }
    now rewrite Hs.
  - now left.
  - right. now exists written.
Qed.

Lemma py_truthy_universal_newlines (text : string) :
  py_truthy (universal_newlines text) = py_truthy text.
Proof.
  induction text as [|c rest IH]; [reflexivity|].
  cbn [universal_newlines].
  destruct (Ascii.eqb c "013"); [|reflexivity].
  destruct rest as [|c' rest']; [reflexivity|].
  destruct c' as [[] [] [] [] [] [] [] []]; reflexivity.
Qed.

(** A text without a carriage return is read back as it is. *)
Lemma universal_newlines_no_CR (text : string) :
  has_CR text = false -> universal_newlines text = text.
Proof.
  induction text as [|c rest IH]; [reflexivity|].
  cbn [has_CR universal_newlines]. intros Hcr.
  apply orb_false_iff in Hcr as [Hc Hrest]. rewrite Hc.
  now rewrite IH.
Qed.

(** What is read back never contains a carriage return, and reading it
    back once more changes nothing. *)
Lemma universal_newlines_has_CR (text : string) :
  has_CR (universal_newlines text) = false.
Proof.
  induction text as [|c rest IH]; [reflexivity|].
  cbn [universal_newlines].
  destruct (Ascii.eqb c "013") eqn:Ec.
  - destruct rest as [|c' rest']; [reflexivity|].
    destruct c' as [[] [] [] [] [] [] [] []];
      first [exact IH | cbn [has_CR]; rewrite IH; reflexivity].
  - cbn [has_CR]. now rewrite Ec, IH.
Qed.

(** ** The proxy cache *)





Lemma fetch_and_answer_success (e : env) (url : string) (st : proxy)
    (body : string) :
  fst (fetch_and_answer e url st) = Json200 body ->
  memory (snd (fetch_and_answer e url st)) !! url = Some body
  /\ (write_ok e = true ->
      disk (snd (fetch_and_answer e url st)) !! get_cache_path url
      = Some body).
Proof.
  unfold fetch_and_answer.
  destruct (urlopen e url) as [data|]; cbn; [|discriminate].
  intros [= <-]. split; [now rewrite lookup_insert_eq|].
  intros Hw. unfold save_to_disk_cache. rewrite write_text_ok by exact Hw.
  now rewrite lookup_insert_eq.
Qed.


Lemma fetched_grows_absurd (l : list string) (url : string) :
  l = l ++ [url] -> False.
Proof.
  intros Hf. apply (f_equal length) in Hf.
  rewrite length_app in Hf. cbn in Hf. lia.
Qed.

Lemma do_GET_fetch_disk (e : env) (rq : parsed) (st : proxy) (body : string) :
  fst (do_GET e rq st) = Json200 body ->
  fetched (snd (do_GET e rq st)) = fetched st ++ [gplates_url rq] ->
  write_ok e = true ->
  disk (snd (do_GET e rq st)) !! get_cache_path (gplates_url rq) = Some body.
Proof.
  unfold do_GET.
  destruct (memory st !! gplates_url rq) as [data|] eqn:Hrq.
  - cbn. intros _ Hf. now apply fetched_grows_absurd in Hf.
  - destruct (load_from_disk_cache _ _ _) as [disk_data|].
    + destruct (py_truthy disk_data).
      * cbn. intros _ Hf. now apply fetched_grows_absurd in Hf.
      * intros Hok _. now apply fetch_and_answer_success.
    + intros Hok _. now apply fetch_and_answer_success.
Qed.

Lemma do_GET_disk_hit (e : env) (rq : parsed) (st : proxy) (text : string) :
  memory st !! gplates_url rq = None ->
  disk st !! get_cache_path (gplates_url rq) = Some text ->
  text <> EmptyString ->
  read_ok e = true ->
  do_GET e rq st
  = (Json200 (universal_newlines text),
     {| memory := <[gplates_url rq := universal_newlines text]> (memory st);
        disk := disk st; fetched := fetched st |}).
Proof.
  intros Hm Hd Hne Hr. unfold do_GET, load_from_disk_cache.
  rewrite Hm, Hd, Hr, py_truthy_universal_newlines.
  destruct text; [congruence|reflexivity].
Qed.





(** ** Cache keys *)








(** ** Validation before caching *)

(** The downloaders call [write_text] on nothing but validated
    payloads. *)
Lemma download_and_cache_validates (json_loads : string -> bool) (e : env)
    (url : string) (d : disk_cache) :
  snd (download_and_cache json_loads e url d) = d
  \/ exists data,
       urlopen e url = Some data /\ json_loads data = true
       /\ snd (download_and_cache json_loads e url d)
          = write_text e (get_cache_path url) data d.
Proof.
  unfold download_and_cache.
  destruct (d !! get_cache_path url); [now left|].
  destruct (urlopen e url) as [data|]; [|now left].
  destruct (json_loads data) eqn:Hj; [|now left].
  right. now exists data.
Qed.

(** C3 fails for the proxy. On a cache miss for which the origin answers
    with an HTML error page, [do_GET] answers 200 with that page and stores
    it in the cache directory and in the memory tier, whereas
    [download_and_cache], which validates, reports a failure and leaves the
    cache directory as it was. *)
Theorem do_GET_caches_unvalidated :
  do_GET badOrigin coastlines_50 emptyProxy
  = (Json200 badPayload,
     {| memory := {[ gplates_url coastlines_50 := badPayload ]};
        disk := {[ get_cache_path (gplates_url coastlines_50) := badPayload ]};
        fetched := [gplates_url coastlines_50] |})
  /\ (forall json_loads : string -> bool,
        json_loads badPayload = false ->
        download_and_cache json_loads badOrigin (gplates_url coastlines_50) ∅
        = (Failed, ∅)).
Proof.
  split.
  - reflexivity.
  - intros json_loads Hbad. unfold download_and_cache.
    rewrite lookup_empty. cbn. now rewrite Hbad.
Qed.

(** ** Python ranges *)

Lemma range_up_In (start stop step a : Z) :
  In a (range_up start stop step)
  <-> exists k : nat,
        a = (start + Z.of_nat k * step)%Z
        /\ (k < range_len start stop step)%nat.
Proof.
  unfold range_up. rewrite in_map_iff. split.
  - intros (k & <- & Hk). apply in_seq in Hk. exists k. split; [reflexivity|lia].
  - intros (k & -> & Hk). exists k. split; [reflexivity|]. apply in_seq. lia.
Qed.

Lemma range_len_bound (start stop step : Z) (k : nat) :
  (0 < step)%Z ->
  (k < range_len start stop step)%nat
  <-> (start + Z.of_nat k * step < stop)%Z.
Proof.
  intros Hstep. unfold range_len.
  set (q := ((stop - start + step - 1) / step)%Z).
  assert (Hq1 : (step * q <= stop - start + step - 1)%Z)
    by (apply Z.mul_div_le; lia).
  assert (Hq2 : (stop - start + step - 1 < step * (q + 1))%Z).
  { unfold q. rewrite Z.mul_add_distr_l, Z.mul_1_r.
    pose proof (Z.mod_pos_bound (stop - start + step - 1) step Hstep).
    pose proof (Z.div_mod (stop - start + step - 1) step). lia. }
  split; intros Hk.
  - assert (Z.of_nat k < q)%Z by lia. nia.
  - assert (Z.of_nat k < q)%Z by nia. lia.
Qed.

(** The elements of [range(start, stop, step)] for a positive step. *)
Lemma range_up_spec (start stop step a : Z) :
  (0 < step)%Z ->
  In a (range_up start stop step)
  <-> (start <= a < stop)%Z /\ ((a - start) mod step = 0)%Z.
Proof.
  intros Hstep. rewrite range_up_In. split.
  - intros (k & -> & Hk). apply range_len_bound in Hk; [|exact Hstep].
    split; [nia|].
    replace (start + Z.of_nat k * step - start)%Z with (Z.of_nat k * step)%Z
      by lia.
    apply Z.mod_mul. lia.
  - intros [[Hlo Hhi] Hmod].
    apply Z.mod_divide in Hmod as [c Hc]; [|lia].
    assert (0 <= c)%Z by nia.
    exists (Z.to_nat c). rewrite Z2Nat.id by lia.
    split; [lia|]. apply range_len_bound; [exact Hstep|].
    rewrite Z2Nat.id by lia. lia.
Qed.

Lemma sorted_app (l1 l2 : list Z) :
  StronglySorted Z.lt l1 -> StronglySorted Z.lt l2 ->
  (forall a b, In a l1 -> In b l2 -> (a < b)%Z) ->
  StronglySorted Z.lt (l1 ++ l2).
Proof.
  induction 1 as [|x l1 Hs IH Hx]; intros H2 Hlt; [exact H2|].
  cbn. constructor.
  - apply IH; [exact H2|]. intros a b Ha Hb. apply Hlt; [now right|exact Hb].
  - apply Forall_app. split; [exact Hx|].
    apply Forall_forall. intros b Hb. apply Hlt; [now left|].
    now apply list_elem_of_In.
Qed.

Lemma range_up_sorted (start stop step : Z) :
  (0 < step)%Z -> StronglySorted Z.lt (range_up start stop step).
Proof.
  intros Hstep. unfold range_up.
  generalize (range_len start stop step) as n. generalize 0%nat as from.
  intros from n. revert from.
  induction n as [|n IH]; intros from; cbn; constructor.
  - apply IH.
  - apply Forall_forall. intros a Ha.
    apply list_elem_of_In, in_map_iff in Ha as (k & <- & Hk).
    apply in_seq in Hk. nia.
Qed.

(** ** download_gplates_cache.py *)

(** X1. The ages of [get_ages_for_model] are strictly increasing and start
    with 0; every one is a multiple of 10, and is either 0 or between 10
    and [max_age], so that the test [age <= max_age] of [generate_urls]
    never excludes an age for a model with a non-negative limit. *)
Theorem get_ages_for_model_sorted (max_age : Z) :
  StronglySorted Z.lt (get_ages_for_model max_age)
  /\ (exists rest, get_ages_for_model max_age = 0%Z :: rest)
  /\ (forall a, In a (get_ages_for_model max_age) ->
        (a mod 10 = 0)%Z /\ (a = 0 \/ 10 <= a <= max_age)%Z).
Proof.
  assert (Hin : forall a, In a (get_ages_for_model max_age) ->
            (a mod 10 = 0)%Z /\ (a = 0 \/ 10 <= a <= max_age)%Z).
  { unfold get_ages_for_model. intros a Ha.
    repeat (apply in_app_or in Ha as [Ha|Ha]).
    - destruct Ha as [<-|[]]. split; [reflexivity|now left].
    - apply range_up_spec in Ha as [Hb Hm]; [|lia].
      split; [|lia]. apply Z.mod_divide in Hm as [c Hc]; [|lia].
      apply Z.mod_divide; [lia|]. exists (c + 1)%Z. lia.
    - apply range_up_spec in Ha as [Hb Hm]; [|lia].
      split; [|lia]. apply Z.mod_divide in Hm as [c Hc]; [|lia].
      apply Z.mod_divide; [lia|]. exists (2 * c + 12)%Z. lia.
    - apply range_up_spec in Ha as [Hb Hm]; [|lia].
      split; [|lia]. apply Z.mod_divide in Hm as [c Hc]; [|lia].
      apply Z.mod_divide; [lia|]. exists (5 * c + 25)%Z. lia. }
  split; [|split; [eexists; reflexivity|exact Hin]].
  unfold get_ages_for_model.
  apply sorted_app; [repeat constructor| |].
  - apply sorted_app; [now apply range_up_sorted| |].
    + apply sorted_app; [now apply range_up_sorted|now apply range_up_sorted|].
      intros a b Ha Hb.
      apply range_up_spec in Ha; [|lia]. apply range_up_spec in Hb; [|lia].
      lia.
    + intros a b Ha Hb. apply range_up_spec in Ha; [|lia].
      apply in_app_or in Hb as [Hb|Hb]; apply range_up_spec in Hb; lia.
  - intros a b [<-|[]] Hb.
    repeat (apply in_app_or in Hb as [Hb|Hb]);
      apply range_up_spec in Hb; lia.
Qed.

(** ** download_gplates_full.py *)

Lemma py_range_positive (start stop step : Z) :
  (0 < step)%Z -> py_range start stop step = Some (range_up start stop step).
Proof.
  intros Hstep. unfold py_range.
  destruct (Z.eqb_spec step 0); [lia|].
  destruct (Z.ltb_spec 0 step); [reflexivity|lia].
Qed.

Lemma py_range_None (start stop step : Z) :
  py_range start stop step = None <-> step = 0%Z.
Proof.
  unfold py_range. destruct (Z.eqb_spec step 0); [tauto|].
  destruct (0 <? step)%Z; split; (discriminate || contradiction).
Qed.

Lemma clampLat_bounds (lat : Z) : (-85 <= clampLat lat <= 85)%Z.
Proof.
  unfold clampLat. destruct (Z.ltb_spec lat (-85)); [lia|].
  destruct (Z.ltb_spec 85 lat); lia.
Qed.

Lemma length_grid_rows {A B C : Type} (f : A -> B -> C) (rows : list A)
    (cols : list B) :
  length (flat_map (fun r => map (f r) cols) rows)
  = (length rows * length cols)%nat.
Proof.
  induction rows as [|r rows IH]; [reflexivity|].
  cbn. rewrite length_app, length_map, IH. reflexivity.
Qed.

(** X2. [generate_grid_coordinates] raises exactly for a zero step.  For a
    positive step it yields one coordinate per pair of a latitude of
    [range(-90, 91, step)] and a longitude of [range(-180, 180, step)]; the
    latitudes are clamped, so that every coordinate has its latitude in
    [-85, 85] (none at the poles) and its longitude in [-180, 180). *)
Theorem generate_grid_coordinates_bounds (step : Z) :
  (generate_grid_coordinates step = None <-> step = 0%Z)
  /\ ((0 < step)%Z ->
      exists coords,
        generate_grid_coordinates step = Some coords
        /\ length coords
           = (range_len (-90) 91 step * range_len (-180) 180 step)%nat
        /\ forall lat lon, In (lat, lon) coords ->
             (-85 <= lat <= 85)%Z /\ (-180 <= lon < 180)%Z
             /\ ((lon + 180) mod step = 0)%Z).
Proof.
  split.
  - unfold generate_grid_coordinates.
    destruct (py_range (-90) 91 step) as [lats|] eqn:Hlat.
    + destruct (py_range (-180) 180 step) as [lons|] eqn:Hlon.
      * split; [discriminate|]. intros ->. discriminate.
      * split; [intros _; now apply py_range_None in Hlon|reflexivity].
    + split; [intros _; now apply py_range_None in Hlat|reflexivity].
  - intros Hstep. unfold generate_grid_coordinates.
    rewrite !py_range_positive by exact Hstep.
    eexists. split; [reflexivity|]. split.
    + rewrite length_grid_rows. unfold range_up.
      now rewrite !length_map, !length_seq.
    + intros lat lon Hin.
      apply in_flat_map in Hin as (lat' & _ & Hin).
      apply in_map_iff in Hin as (lon' & [= <- <-] & Hlon).
      split; [apply clampLat_bounds|].
      apply range_up_spec in Hlon as [Hb Hm]; [|exact Hstep].
      split; [lia|]. now replace (lon' + 180)%Z with (lon' - -180)%Z by lia.
Qed.

Lemma generate_grid_coordinates_bounds_witness :
  (0 < 5)%Z
  /\ exists coords,
       generate_grid_coordinates 5 = Some coords
       /\ length coords
          = (range_len (-90) 91 5 * range_len (-180) 180 5)%nat
       /\ forall lat lon, In (lat, lon) coords ->
            (-85 <= lat <= 85)%Z /\ (-180 <= lon < 180)%Z
            /\ ((lon + 180) mod 5 = 0)%Z.
Proof.
  assert (H5 : (0 < 5)%Z) by reflexivity.
  split; [exact H5|].
  exact (proj2 (generate_grid_coordinates_bounds 5) H5).
Defined.

Lemma range_up_head (start stop step : Z) :
  (0 < step)%Z -> (start < stop)%Z ->
  exists rest, range_up start stop step = start :: rest.
Proof.
  intros Hstep Hlt. unfold range_up.
  assert (Hn : (0 < range_len start stop step)%nat).
  { apply (range_len_bound start stop step 0 Hstep). cbn. lia. }
  destruct (range_len start stop step) as [|n]; [lia|].
  cbn. rewrite Z.add_0_r. eexists. reflexivity.
Qed.

(** X3. When the step divides 5 (as the default 5 and the step 1 do), the
    row of latitude -90, clamped to -85, repeats the row of latitude -85:
    the grid contains a coordinate twice. *)
Theorem generate_grid_coordinates_repeats (step : Z) (coords : list (Z * Z)) :
  (0 < step)%Z -> (5 mod step = 0)%Z ->
  generate_grid_coordinates step = Some coords ->
  ~ NoDup coords.
Proof.
  intros Hstep Hdiv Hgrid Hnd.
  unfold generate_grid_coordinates in Hgrid.
  rewrite !py_range_positive in Hgrid by exact Hstep.
  injection Hgrid as <-.
  destruct (range_up_head (-90) 91 step Hstep) as [lats Hlats]; [lia|].
  destruct (range_up_head (-180) 180 step Hstep) as [lons Hlons]; [lia|].
  assert (Hin85 : In (-85)%Z lats).
  { assert (Hin : In (-85)%Z (range_up (-90) 91 step)).
    { apply range_up_spec; [exact Hstep|]. split; [lia|exact Hdiv]. }
    rewrite Hlats in Hin. destruct Hin as [Heq|Hin]; [lia|exact Hin]. }
  rewrite Hlats, Hlons in Hnd. cbn [flat_map] in Hnd.
  apply NoDup_app in Hnd as (_ & Hdisj & _).
  apply (Hdisj (-85, -180)%Z).
  - cbn. left.
  - apply list_elem_of_In, in_flat_map. exists (-85)%Z.
    split; [exact Hin85|]. now left.
Qed.

Lemma generate_grid_coordinates_repeats_witness :
  (0 < 5)%Z /\ (5 mod 5 = 0)%Z
  /\ generate_grid_coordinates 5 = Some (default (@nil (Z * Z)) (generate_grid_coordinates 5))
  /\ ~ NoDup (default (@nil (Z * Z)) (generate_grid_coordinates 5)).
Proof.
  assert (H5 : (0 < 5)%Z) by reflexivity.
  assert (Hd : (5 mod 5 = 0)%Z) by reflexivity.
  assert (Hg : generate_grid_coordinates 5
               = Some (default (@nil (Z * Z)) (generate_grid_coordinates 5))).
  { unfold generate_grid_coordinates.
    rewrite !py_range_positive by exact H5. reflexivity. }
  split; [exact H5|]. split; [exact Hd|]. split; [exact Hg|].
  exact (generate_grid_coordinates_repeats 5 _ H5 Hd Hg).
Defined.

Lemma length_model_items (coordinates : list (Z * Z)) (model_name : string)
    (ages : list Z) :
  length (model_items coordinates model_name ages)
  = (length ages + length coordinates * length ages)%nat.
Proof.
  unfold model_items.
  rewrite length_app, length_map.
  now rewrite (length_grid_rows
                 (fun c age => UrlItem "points" model_name age (Some c)
                                 (points_url (snd c) (fst c) age model_name))).
Qed.

Lemma models_items_estimate (coordinates : list (Z * Z)) (age_step : Z)
    (models : list (string * Z)) :
  forall totals : nat * nat,
    match models_items coordinates age_step models,
          estimate_loop (length coordinates) age_step models totals with
    | Some items, Some (points, coastlines) =>
        (points + coastlines = fst totals + snd totals + length items)%nat
    | None, None => True
    | _, _ => False
    end.
Proof.
  induction models as [|[model_name max_age] rest IH]; intros totals.
  - cbn. destruct totals. cbn. lia.
  - cbn [models_items estimate_loop].
    destruct (get_ages_for_model_full max_age age_step) as [ages|];
      [|exact I].
    specialize (IH (fst totals + length coordinates * length ages,
                    snd totals + length ages)%nat).
    destruct (models_items coordinates age_step rest) as [items|];
      destruct (estimate_loop _ _ rest _) as [[points coastlines]|];
      try contradiction; [|exact I].
    cbn [fst snd] in IH. rewrite length_app, length_model_items. lia.
Qed.

(** X4. The number of files that [estimate_download] announces is the
    number of URLs that [generate_urls] produces for all the models, and
    the one raises (on a zero step) exactly when the other does. *)
Theorem estimate_download_counts_urls (coord_step age_step : Z) :
  option_map total_files (estimate_download coord_step age_step)
  = option_map (@length url_item)
      (generate_urls coord_step age_step ROTATION_MODELS).
Proof.
  unfold estimate_download, generate_urls.
  destruct (generate_grid_coordinates coord_step) as [coords|];
    [|reflexivity].
  pose proof (models_items_estimate coords age_step ROTATION_MODELS (0, 0)%nat)
    as Hm.
  destruct (models_items coords age_step ROTATION_MODELS) as [items|];
    destruct (estimate_loop _ _ ROTATION_MODELS _) as [[points coastlines]|];
    try contradiction; [|reflexivity].
  cbn [fst snd] in Hm. cbn. f_equal. lia.
Qed.

(** ** The cache directory across the tools *)

Lemma download_and_cache_cases (json_loads : string -> bool) (e : env)
    (url : string) (d : disk_cache) :
  (snd (download_and_cache json_loads e url d) = d
   /\ (fst (download_and_cache json_loads e url d) = Failed
       \/ is_Some (d !! get_cache_path url)))
  \/ (d !! get_cache_path url = None
      /\ exists data,
           snd (download_and_cache json_loads e url d)
           = <[get_cache_path url := data]> d).
Proof.
  unfold download_and_cache.
  destruct (d !! get_cache_path url) as [old|] eqn:Hd.
  - left. split; [reflexivity|right; now exists old].
  - destruct (urlopen e url) as [data|]; [|left; split; [reflexivity|now left]].
    destruct (json_loads data); [|left; split; [reflexivity|now left]].
    cbn [fst snd].
    destruct (write_text_cases e (get_cache_path url) data d)
      as [Hsame|[written Hcut]].
    + left. split; [exact Hsame|left].
      unfold write_ok. unfold write_text in Hsame.
      destruct (write_text_result e); [|reflexivity|reflexivity].
      exfalso. apply (f_equal (fun m => m !! get_cache_path url)) in Hsame.
      rewrite lookup_insert_eq, Hd in Hsame. discriminate.
    + right. split; [reflexivity|]. now exists (substring 0 written data).
Qed.

(** X5. [download_and_cache] writes at most the cache file of its own URL
    and never changes a file that exists; once it has reported a URL as
    cached or downloaded, every later call for that URL reports it as
    cached and leaves the directory as it is, whatever the origin answers
    (a bulk download can be resumed). *)
Theorem download_and_cache_write_once (json_loads : string -> bool) (e : env)
    (url : string) (d : disk_cache) :
  (forall p text, d !! p = Some text ->
     snd (download_and_cache json_loads e url d) !! p = Some text)
  /\ (forall p, p <> get_cache_path url ->
        snd (download_and_cache json_loads e url d) !! p = d !! p)
  /\ (fst (download_and_cache json_loads e url d) <> Failed ->
      forall (json_loads' : string -> bool) (e' : env),
        download_and_cache json_loads' e' url
          (snd (download_and_cache json_loads e url d))
        = (Cached, snd (download_and_cache json_loads e url d))).
Proof.
  pose proof (download_and_cache_cases json_loads e url d) as Hcases.
  destruct (download_and_cache json_loads e url d) as [status d'] eqn:Hdl.
  cbn [fst snd] in *.
  destruct Hcases as [[-> Hst]|[Hd [data ->]]].
  - split; [easy|]. split; [easy|].
    intros Hnf json_loads' e'.
    destruct Hst as [Hst|[old Hold]]; [contradiction|].
    unfold download_and_cache. now rewrite Hold.
  - split; [|split].
    + intros p text Hp. rewrite lookup_insert_ne; [exact Hp|congruence].
    + intros p Hp. now rewrite lookup_insert_ne.
    + intros _ json_loads' e'. unfold download_and_cache.
      now rewrite lookup_insert_eq.
Qed.

Lemma fetch_and_answer_404 (e : env) (url : string) (st : proxy) :
  fst (fetch_and_answer e url st) = Error404 <-> urlopen e url = None.
Proof.
  unfold fetch_and_answer. destruct (urlopen e url); cbn; split; easy.
Qed.

(** X6. [do_GET] answers 404 exactly when the memory tier misses, the
    cache file is missing, unreadable or empty, and the fetch from the
    origin fails; it then leaves both cache tiers as they were (a failure
    is not cached) and has attempted exactly one fetch. *)
Theorem do_GET_not_found (e : env) (rq : parsed) (st : proxy) :
  (fst (do_GET e rq st) = Error404
   <-> memory st !! gplates_url rq = None
       /\ py_truthy_opt (load_from_disk_cache e (disk st) (gplates_url rq))
          = false
       /\ urlopen e (gplates_url rq) = None)
  /\ (fst (do_GET e rq st) = Error404 ->
      memory (snd (do_GET e rq st)) = memory st
      /\ disk (snd (do_GET e rq st)) = disk st
      /\ fetched (snd (do_GET e rq st)) = fetched st ++ [gplates_url rq]).
Proof.
  unfold do_GET.
  destruct (memory st !! gplates_url rq) as [data|] eqn:Hm.
  { cbn. split; [split; [discriminate|intros [[=] _]]|discriminate]. }
  destruct (load_from_disk_cache e (disk st) (gplates_url rq))
    as [disk_data|]; cbn [py_truthy_opt].
  - destruct (py_truthy disk_data).
    + cbn. split; [split; [discriminate|intros (_ & [=] & _)]|discriminate].
    + unfold fetch_and_answer.
      destruct (urlopen e (gplates_url rq)); cbn;
        (split; [split; [try discriminate; now intros _|
                         try (intros (_ & _ & [=]); fail); now intros _]|
                 try discriminate; now intros _]).
  - unfold fetch_and_answer.
    destruct (urlopen e (gplates_url rq)); cbn;
      (split; [split; [try discriminate; now intros _|
                       try (intros (_ & _ & [=]); fail); now intros _]|
               try discriminate; now intros _]).
Qed.

Lemma fetch_and_answer_frame (e : env) (url : string) (st : proxy) :
  (forall p, p <> get_cache_path url ->
     disk (snd (fetch_and_answer e url st)) !! p = disk st !! p)
  /\ (forall u, u <> url ->
        memory (snd (fetch_and_answer e url st)) !! u = memory st !! u).
Proof.
  unfold fetch_and_answer, save_to_disk_cache.
  destruct (urlopen e url); cbn; [|easy].
  split.
  - intros p Hp. now apply write_text_frame.
  - intros u Hu. now rewrite lookup_insert_ne.
Qed.

(** X7. [do_GET] changes the cache directory at most at the cache file of
    the requested URL and the memory tier at most at that URL; a cache
    file that is readable and not empty is never rewritten, and a URL held
    by the memory tier leaves everything as it is. *)
Theorem do_GET_frame (e : env) (rq : parsed) (st : proxy) :
  (forall p, p <> get_cache_path (gplates_url rq) ->
     disk (snd (do_GET e rq st)) !! p = disk st !! p)
  /\ (forall u, u <> gplates_url rq ->
        memory (snd (do_GET e rq st)) !! u = memory st !! u)
  /\ (py_truthy_opt (load_from_disk_cache e (disk st) (gplates_url rq)) = true ->
      disk (snd (do_GET e rq st)) = disk st
      /\ fetched (snd (do_GET e rq st)) = fetched st)
  /\ (is_Some (memory st !! gplates_url rq) -> snd (do_GET e rq st) = st).
Proof.
  unfold do_GET.
  destruct (memory st !! gplates_url rq) as [data|] eqn:Hm.
  { cbn. repeat split; easy. }
  pose proof (fetch_and_answer_frame e (gplates_url rq) st) as [Hd Hmem].
  destruct (load_from_disk_cache e (disk st) (gplates_url rq))
    as [disk_data|]; cbn [py_truthy_opt].
  - destruct (py_truthy disk_data); cbn [fst snd memory disk fetched].
    + repeat split; try easy.
      * intros u Hu. now rewrite lookup_insert_ne.
      * intros [x Hx]. discriminate.
    + repeat split; try easy. intros [x Hx]. discriminate.
  - repeat split; try easy. intros [x Hx]. discriminate.
Qed.

(** X8. An empty cache file is cached for the downloaders and a miss for
    the proxy: [download_and_cache] reports it as cached and never
    replaces it, while [do_GET], when the memory tier misses, goes to the
    origin as if there were no file. *)
Theorem empty_cache_file (json_loads : string -> bool) (e : env)
    (rq : parsed) (st : proxy) :
  disk st !! get_cache_path (gplates_url rq) = Some EmptyString ->
  download_and_cache json_loads e (gplates_url rq) (disk st)
  = (Cached, disk st)
  /\ (memory st !! gplates_url rq = None ->
      do_GET e rq st = fetch_and_answer e (gplates_url rq) st).
Proof.
  intros Hd. split.
  - unfold download_and_cache. now rewrite Hd.
  - intros Hm. unfold do_GET, load_from_disk_cache. rewrite Hm, Hd.
    now destruct (read_ok e).
Qed.

Lemma empty_cache_file_witness :
  disk {| memory := ∅;
          disk := {[ get_cache_path (gplates_url coastlines_50) := EmptyString ]};
          fetched := [] |}
    !! get_cache_path (gplates_url coastlines_50) = Some EmptyString
  /\ download_and_cache (fun _ => true) goodOrigin (gplates_url coastlines_50)
       {[ get_cache_path (gplates_url coastlines_50) := EmptyString ]}
     = (Cached, {[ get_cache_path (gplates_url coastlines_50) := EmptyString ]}).
Proof.
  assert (Hd : disk {| memory := ∅;
                       disk := {[ get_cache_path (gplates_url coastlines_50)
                                  := EmptyString ]};
                       fetched := [] |}
                 !! get_cache_path (gplates_url coastlines_50)
               = Some EmptyString) by apply lookup_singleton_eq.
  split; [exact Hd|].
  exact (proj1 (empty_cache_file (fun _ => true) goodOrigin coastlines_50 _ Hd)).
Defined.

(** X9. Whatever [do_GET] fetched and stored for a URL, valid JSON or
    not, the downloaders take for cached: [download_and_cache] reports
    the URL as cached without validating or replacing the file. *)
Theorem do_GET_then_download_and_cache (e : env) (rq : parsed) (st : proxy)
    (body : string) :
  fst (do_GET e rq st) = Json200 body ->
  fetched (snd (do_GET e rq st)) = fetched st ++ [gplates_url rq] ->
  write_ok e = true ->
  forall (json_loads : string -> bool) (e' : env),
    download_and_cache json_loads e' (gplates_url rq)
      (disk (snd (do_GET e rq st)))
    = (Cached, disk (snd (do_GET e rq st))).
Proof.
  intros Hok Hf Hw json_loads e'.
  pose proof (do_GET_fetch_disk e rq st body Hok Hf Hw) as Hd.
  unfold download_and_cache. now rewrite Hd.
Qed.

Lemma do_GET_then_download_and_cache_witness :
  fst (do_GET badOrigin coastlines_50 emptyProxy) = Json200 badPayload
  /\ download_and_cache (fun _ => false) goodOrigin (gplates_url coastlines_50)
       (disk (snd (do_GET badOrigin coastlines_50 emptyProxy)))
     = (Cached, disk (snd (do_GET badOrigin coastlines_50 emptyProxy))).
Proof.
  assert (Hok : fst (do_GET badOrigin coastlines_50 emptyProxy)
                = Json200 badPayload) by reflexivity.
  split; [exact Hok|].
  exact (do_GET_then_download_and_cache badOrigin coastlines_50 emptyProxy
           badPayload Hok eq_refl eq_refl (fun _ => false) goodOrigin).
Defined.

(** ** simulator.py: download_all_gplates_data *)

Lemma download_loop_counts (env_of : string -> env) (urls : list string) :
  forall r : dl_report,
    completed (fold_left (download_one env_of) urls r)
    = (completed r + length urls)%nat
    /\ (cached (fold_left (download_one env_of) urls r)
        + downloaded (fold_left (download_one env_of) urls r)
        + errors (fold_left (download_one env_of) urls r)
        = cached r + downloaded r + errors r + length urls)%nat.
Proof.
  induction urls as [|url urls IH]; intros r; cbn [fold_left length].
  - lia.
  - destruct (IH (download_one env_of r url)) as [Hc Hs].
    rewrite Hc, Hs. unfold download_one.
    destruct (py_truthy_opt _); [cbn; lia|].
    destruct (urlopen (env_of url) url); cbn; lia.
Qed.

(** When no cache file can be opened for writing the directory stays as
    it is, and every URL that is fetched still counts as downloaded. *)
Lemma download_loop_unopened (env_of : string -> env) (urls : list string) :
  (forall url, write_text_result (env_of url) = OpenRaises) ->
  forall r : dl_report,
    report_disk (fold_left (download_one env_of) urls r) = report_disk r
    /\ (report_disk r = ∅ ->
        (forall url, is_Some (urlopen (env_of url) url)) ->
        downloaded (fold_left (download_one env_of) urls r)
        = (downloaded r + length urls)%nat).
Proof.
  intros Hw. induction urls as [|url urls IH]; intros r; cbn [fold_left length].
  - split; [reflexivity|lia].
  - destruct (IH (download_one env_of r url)) as [Hd Hn].
    assert (Hone : report_disk (download_one env_of r url) = report_disk r).
    { unfold download_one. destruct (py_truthy_opt _); [reflexivity|].
      destruct (urlopen (env_of url) url); [|reflexivity].
      cbn. unfold save_to_disk_cache, write_text. now rewrite Hw. }
    split; [now rewrite Hd|].
    intros Hempty Hopen. rewrite Hn; [|congruence|exact Hopen].
    unfold download_one, load_from_disk_cache.
    rewrite Hempty, lookup_empty. cbn [py_truthy_opt].
    destruct (Hopen url) as [data ->]. cbn. lia.
Qed.

(** X10. [download_all_gplates_data] processes the 165 coastline URLs (3
    models, 55 ages) and its counters add up: every URL is counted
    exactly once as cached, downloaded or failed, whatever the origin and
    the file system do.  A URL counts as downloaded as soon as it was
    fetched, whether or not its file was written: when no cache file can
    be opened for writing the directory is unchanged, and a run from an
    empty directory against an origin that always answers still reports
    all 165 as downloaded; and when the write of a fetched body is cut
    short, the URL is counted as downloaded, not as an error, and the
    truncated text is what its cache file holds afterwards. *)
Theorem download_all_gplates_data_counts (env_of : string -> env)
    (d : disk_cache) :
  total_requests = 165%nat
  /\ completed (download_all_gplates_data env_of d) = total_requests
  /\ (cached (download_all_gplates_data env_of d)
      + downloaded (download_all_gplates_data env_of d)
      + errors (download_all_gplates_data env_of d) = total_requests)%nat
  /\ ((forall url, write_text_result (env_of url) = OpenRaises) ->
      report_disk (download_all_gplates_data env_of d) = d
      /\ (d = ∅ ->
          (forall url, is_Some (urlopen (env_of url) url)) ->
          downloaded (download_all_gplates_data env_of d) = total_requests))
  /\ (forall (r : dl_report) (url data : string) (written : nat),
        py_truthy_opt
          (load_from_disk_cache (env_of url) (report_disk r) url) = false ->
        urlopen (env_of url) url = Some data ->
        write_text_result (env_of url) = WriteRaises written ->
        downloaded (download_one env_of r url) = S (downloaded r)
        /\ errors (download_one env_of r url) = errors r
        /\ report_disk (download_one env_of r url) !! get_cache_path url
           = Some (substring 0 written data)).
Proof.
  assert (Hlen : length all_urls = total_requests).
  { unfold all_urls, total_requests.
    apply (length_grid_rows (fun model age => coastlines_url age model)). }
  unfold download_all_gplates_data.
  split; [reflexivity|].
  destruct (download_loop_counts env_of all_urls
              {| completed := 0; cached := 0; downloaded := 0; errors := 0;
                 report_disk := d |}) as [Hc Hs].
  split; [rewrite Hc, Hlen; reflexivity|].
  split; [rewrite Hs, Hlen; reflexivity|].
  split.
  - intros Hw.
    destruct (download_loop_unopened env_of all_urls Hw
                {| completed := 0; cached := 0; downloaded := 0; errors := 0;
                   report_disk := d |}) as [Hd Hn].
    split; [exact Hd|].
    intros Hempty Hopen.
    rewrite Hn, Hlen; [reflexivity|exact Hempty|exact Hopen].
  - intros r url data written Hmiss Hopen Hw.
    unfold download_one. rewrite Hmiss, Hopen.
    cbn [downloaded errors report_disk].
    split; [reflexivity|]. split; [reflexivity|].
    unfold save_to_disk_cache, write_text. rewrite Hw.
    apply lookup_insert_eq.
Qed.

(** ** test_sync.py *)

Lemma fetch_url_corrupt {json : Type} (json_parse : string -> option json)
    (json_dumps : json -> string) (e : env) (url : string) (d : disk_cache)
    (text : string) :
  d !! get_cache_path url = Some text ->
  json_parse text = None ->
  fetch_url json json_parse json_dumps e url d = (None, d).
Proof.
  intros Hd Hp. unfold fetch_url. rewrite Hd, Hp. now destruct (read_ok e).
Qed.

(** X11. A body that [do_GET] fetched and stored and that does not parse
    as JSON makes [fetch_url] of the diagnostic script raise at every
    later call for that URL: the file is found, fails to parse, and is
    neither fetched again nor replaced. *)
Theorem do_GET_then_fetch_url {json : Type}
    (json_parse : string -> option json) (json_dumps : json -> string)
    (e : env) (rq : parsed) (st : proxy) (body : string) :
  fst (do_GET e rq st) = Json200 body ->
  fetched (snd (do_GET e rq st)) = fetched st ++ [gplates_url rq] ->
  write_ok e = true ->
  json_parse body = None ->
  forall e' : env,
    fetch_url json json_parse json_dumps e' (gplates_url rq)
      (disk (snd (do_GET e rq st)))
    = (None, disk (snd (do_GET e rq st))).
Proof.
  intros Hok Hf Hw Hp e'.
  apply (fetch_url_corrupt json_parse json_dumps e' _ _ body); [|exact Hp].
  now apply do_GET_fetch_disk.
Qed.

Lemma do_GET_then_fetch_url_witness :
  fst (do_GET badOrigin coastlines_50 emptyProxy) = Json200 badPayload
  /\ startsLikeJson badPayload = None
  /\ fetch_url string startsLikeJson (fun s => s) goodOrigin
       (gplates_url coastlines_50)
       (disk (snd (do_GET badOrigin coastlines_50 emptyProxy)))
     = (None, disk (snd (do_GET badOrigin coastlines_50 emptyProxy))).
Proof.
  assert (Hok : fst (do_GET badOrigin coastlines_50 emptyProxy)
                = Json200 badPayload) by reflexivity.
  assert (Hp : startsLikeJson badPayload = None) by reflexivity.
  split; [exact Hok|]. split; [exact Hp|].
  exact (do_GET_then_fetch_url startsLikeJson (fun s => s) badOrigin
           coastlines_50 emptyProxy badPayload Hok eq_refl eq_refl Hp
           goodOrigin).
Defined.

(** X12. On a cache miss [fetch_url] stores the re-serialised data, not
    the body it received, and only after the body parsed; this text, as
    [read_text] gives it, is what [do_GET] then serves for the URL from
    the cache directory, without a fetch: the text itself when it has no
    carriage return, as the output of [json.dumps] never has. *)
Theorem fetch_url_then_do_GET {json : Type}
    (json_parse : string -> option json) (json_dumps : json -> string)
    (e e' : env) (rq : parsed) (d : disk_cache) (st : proxy) (data : json) :
  d !! get_cache_path (gplates_url rq) = None ->
  fst (fetch_url json json_parse json_dumps e (gplates_url rq) d) = Some data ->
  disk st = snd (fetch_url json json_parse json_dumps e (gplates_url rq) d) ->
  memory st !! gplates_url rq = None ->
  read_ok e' = true ->
  json_dumps data <> EmptyString ->
  (exists body, urlopen e (gplates_url rq) = Some body
                /\ json_parse body = Some data)
  /\ fst (do_GET e' rq st) = Json200 (universal_newlines (json_dumps data))
  /\ fetched (snd (do_GET e' rq st)) = fetched st
  /\ (has_CR (json_dumps data) = false ->
      fst (do_GET e' rq st) = Json200 (json_dumps data)).
Proof.
  intros Hmiss Hfetch Hdisk Hmem Hread Hne.
  unfold fetch_url in Hfetch, Hdisk. rewrite Hmiss in Hfetch, Hdisk.
  destruct (urlopen e (gplates_url rq)) as [body|]; [|discriminate].
  destruct (json_parse body) as [data'|] eqn:Hp; [|discriminate].
  destruct (write_ok e) eqn:Hw; [|discriminate].
  cbn [fst snd] in Hfetch, Hdisk. injection Hfetch as ->.
  rewrite write_text_ok in Hdisk by exact Hw.
  split; [now exists body|].
  assert (Hfile : disk st !! get_cache_path (gplates_url rq)
                  = Some (json_dumps data)).
  { rewrite Hdisk. apply lookup_insert_eq. }
  rewrite (do_GET_disk_hit e' rq st (json_dumps data)); cbn [fst snd];
    [|exact Hmem|exact Hfile|exact Hne|exact Hread].
  split; [reflexivity|]. split; [reflexivity|].
  intros Hcr. now rewrite universal_newlines_no_CR.
Qed.

Lemma fetch_url_then_do_GET_witness :
  (∅ : disk_cache) !! get_cache_path (gplates_url coastlines_50) = None
  /\ fst (do_GET badOrigin coastlines_50
            {| memory := ∅;
               disk := snd (fetch_url string startsLikeJson
                              (fun s => s +:+ " ") goodOrigin
                              (gplates_url coastlines_50) ∅);
               fetched := [] |})
     = Json200 (goodPayload +:+ " ").
Proof.
  assert (Hmiss : (∅ : disk_cache) !! get_cache_path (gplates_url coastlines_50)
                  = None) by apply lookup_empty.
  split; [exact Hmiss|].
  refine (proj1 (proj2 (fetch_url_then_do_GET startsLikeJson
            (fun s => s +:+ " ") goodOrigin badOrigin coastlines_50 ∅
            {| memory := ∅;
               disk := snd (fetch_url string startsLikeJson
                              (fun s => s +:+ " ") goodOrigin
                              (gplates_url coastlines_50) ∅);
               fetched := [] |}
            goodPayload Hmiss _ eq_refl _ eq_refl _))).
  - unfold fetch_url. rewrite Hmiss. reflexivity.
  - apply lookup_empty.
  - discriminate.
Defined.

Lemma point_in_polygon_total (x y : Q) (polygon : list (Q * Q)) :
  (3 <= length polygon)%nat ->
  point_in_polygon x y polygon = Some (Nat.odd (pyRayCrossings x y polygon)).
Proof.
  intros Hlen. apply point_in_polygon_parity.
  destruct polygon; [cbn in Hlen; lia|discriminate].
Qed.

(** X13. [point_in_any_polygon] never raises: polygons with fewer than 3
    vertices (the empty one included) are skipped before
    [point_in_polygon] is called.  It answers true exactly when some
    polygon with at least 3 vertices has an odd number of edges crossed by
    the ray from the point. *)
Theorem point_in_any_polygon_spec (x y : Q) (polygons : list (list (Q * Q))) :
  exists b,
    point_in_any_polygon x y polygons = Some b
    /\ (b = true
        <-> exists polygon,
              In polygon polygons /\ (3 <= length polygon)%nat
              /\ Nat.odd (pyRayCrossings x y polygon) = true).
Proof.
  induction polygons as [|polygon rest (b & Hb & Hiff)].
  - exists false. split; [reflexivity|].
    split; [discriminate|intros (p & [] & _)].
  - cbn [point_in_any_polygon].
    destruct (Nat.leb_spec 3 (length polygon)) as [Hlen|Hlen].
    + rewrite (point_in_polygon_total x y polygon Hlen).
      destruct (Nat.odd (pyRayCrossings x y polygon)) eqn:Hodd.
      * exists true. split; [reflexivity|]. split; [|reflexivity].
        intros _. exists polygon. split; [now left|]. now split.
      * exists b. split; [exact Hb|]. rewrite Hiff. split.
        -- intros (p & Hin & Hp). exists p. split; [now right|exact Hp].
        -- intros (p & [<-|Hin] & Hl & Ho); [congruence|].
           exists p. now split.
    + exists b. split; [exact Hb|]. rewrite Hiff. split.
      * intros (p & Hin & Hp). exists p. split; [now right|exact Hp].
      * intros (p & [<-|Hin] & Hl & Ho); [lia|]. exists p. now split.
Qed.

(** ** Canvas projection *)

(** X14. On a canvas of non-zero width and height, [canvasToLatLon] and
    [latLonToCanvas] are inverse to each other, and a point with latitude
    in [-90, 90] and longitude in [-180, 180] lands inside the canvas. *)
Theorem canvas_round_trip (c : canvas) (ptLat ptLon x y : Q) :
  ~ width c == 0 -> ~ height c == 0 ->
  coord_eq
    (canvasToLatLon (cx (latLonToCanvas ptLat ptLon c))
       (cy (latLonToCanvas ptLat ptLon c)) c)
    (Coord ptLat ptLon)
  /\ cx (latLonToCanvas (lat (canvasToLatLon x y c))
           (lon (canvasToLatLon x y c)) c) == x
  /\ cy (latLonToCanvas (lat (canvasToLatLon x y c))
           (lon (canvasToLatLon x y c)) c) == y
  /\ (0 <= width c -> 0 <= height c ->
      -90 <= ptLat <= 90 -> -180 <= ptLon <= 180 ->
      0 <= cx (latLonToCanvas ptLat ptLon c) <= width c
      /\ 0 <= cy (latLonToCanvas ptLat ptLon c) <= height c).
Proof.
  intros Hw Hh. unfold coord_eq, canvasToLatLon, latLonToCanvas. cbn.
  split; [split; field; assumption|].
  split; [field; assumption|]. split; [field; assumption|].
  intros Hw0 Hh0 [Hla1 Hla2] [Hlo1 Hlo2].
  assert (Hx : 0 <= (ptLon + 180) / 360 <= 1).
  { split; [apply Qle_shift_div_l|apply Qle_shift_div_r]; lra. }
  assert (Hy : 0 <= (90 - ptLat) / 180 <= 1).
  { split; [apply Qle_shift_div_l|apply Qle_shift_div_r]; lra. }
  set (u := (ptLon + 180) / 360) in *. set (v := (90 - ptLat) / 180) in *.
  split; split.
  - apply Qmult_le_0_compat; lra.
  - rewrite <- (Qmult_1_l (width c)) at 2.
    apply Qmult_le_compat_r; lra.
  - apply Qmult_le_0_compat; lra.
  - rewrite <- (Qmult_1_l (height c)) at 2.
    apply Qmult_le_compat_r; lra.
Qed.

Lemma canvas_round_trip_witness :
  ~ width (Canvas 800 400) == 0 /\ ~ height (Canvas 800 400) == 0
  /\ coord_eq
       (canvasToLatLon (cx (latLonToCanvas (-22.9) (-43.2) (Canvas 800 400)))
          (cy (latLonToCanvas (-22.9) (-43.2) (Canvas 800 400)))
          (Canvas 800 400))
       (Coord (-22.9) (-43.2)).
Proof.
  assert (Hw : ~ width (Canvas 800 400) == 0) by discriminate.
  assert (Hh : ~ height (Canvas 800 400) == 0) by discriminate.
  split; [exact Hw|]. split; [exact Hh|].
  exact (proj1 (canvas_round_trip (Canvas 800 400) (-22.9) (-43.2) 0 0 Hw Hh)).
Defined.

(** ** getReconstructedPosition *)

Lemma sorted_head_lt (p : trajPoint) (l : list trajPoint) (q : trajPoint) :
  StronglySorted ageLt (p :: l) -> In q l -> age p < age q.
Proof.
  intros Hs Hq. apply StronglySorted_inv in Hs as [_ Hall].
  rewrite Forall_forall in Hall. apply Hall. now apply list_elem_of_In.
Qed.

Lemma sorted_tail (p : trajPoint) (l : list trajPoint) :
  StronglySorted ageLt (p :: l) -> StronglySorted ageLt l.
Proof. intros Hs. now apply StronglySorted_inv in Hs. Qed.

Lemma sorted_last_le (l : list trajPoint) (lastPoint q : trajPoint) :
  StronglySorted ageLt l -> last l = Some lastPoint -> In q l ->
  age q <= age lastPoint.
Proof.
  induction l as [|p l IH]; intros Hs Hlast Hq; [destruct Hq|].
  destruct l as [|p' l'].
  - cbn in Hlast. injection Hlast as <-. destruct Hq as [<-|[]].
    apply Qle_refl.
  - change (last (p :: p' :: l')) with (last (p' :: l')) in Hlast.
    destruct Hq as [<-|Hq].
    + apply Qlt_le_weak. apply (sorted_head_lt p (p' :: l')); [exact Hs|].
      apply last_Some_elem_of, list_elem_of_In in Hlast. exact Hlast.
    + apply IH; [now apply sorted_tail in Hs|exact Hlast|exact Hq].
Qed.

Lemma reconstructedLoop_before (a : Q) (l : list trajPoint) :
  StronglySorted ageLt l ->
  (forall p, In p l -> a < age p) ->
  reconstructedLoop a l = None.
Proof.
  induction l as [|p1 l IH]; intros Hs Hlt; [reflexivity|].
  destruct l as [|p2 l']; [reflexivity|].
  cbn [reconstructedLoop].
  assert (Hge : js_ge a (age p1) = false).
  { unfold js_ge. destruct (Qle_bool (age p1) a) eqn:E; [|reflexivity].
    apply Qle_bool_iff in E. specialize (Hlt p1 (or_introl eq_refl)). lra. }
  rewrite Hge. cbn [andb]. apply IH; [now apply sorted_tail in Hs|].
  intros p Hp. apply Hlt. now right.
Qed.

Lemma reconstructedLoop_after (a : Q) (l : list trajPoint) :
  (forall p, In p l -> age p < a) ->
  reconstructedLoop a l = None.
Proof.
  induction l as [|p1 l IH]; intros Hlt; [reflexivity|].
  destruct l as [|p2 l']; [reflexivity|].
  cbn [reconstructedLoop].
  assert (Hle : js_le a (age p2) = false).
  { unfold js_le. destruct (Qle_bool a (age p2)) eqn:E; [|reflexivity].
    apply Qle_bool_iff in E.
    specialize (Hlt p2 (or_intror (or_introl eq_refl))). lra. }
  rewrite Hle, andb_false_r. apply IH. intros p Hp. apply Hlt. now right.
Qed.

(** X15. With no trajectory [getReconstructedPosition] returns the
    original coordinates.  On a trajectory with strictly increasing ages
    it returns the last (oldest) point both for an age beyond the last
    point and for an age before the first one. *)
Theorem getReconstructedPosition_outside (first : trajPoint)
    (rest : list trajPoint) (originalLat originalLon a : Q)
    (lastPoint : trajPoint) :
  StronglySorted ageLt (first :: rest) ->
  last (first :: rest) = Some lastPoint ->
  a < age first \/ age lastPoint < a ->
  getReconstructedPosition (first :: rest) originalLat originalLon a
  = coordOf lastPoint
  /\ getReconstructedPosition [] originalLat originalLon a
     = Coord originalLat originalLon.
Proof.
  intros Hs Hlast Hout. split; [|reflexivity].
  unfold getReconstructedPosition. rewrite Hlast.
  assert (Hnone : reconstructedLoop a (first :: rest) = None).
  { destruct Hout as [Hb|Ha].
    - apply reconstructedLoop_before; [exact Hs|].
      intros p [<-|Hp]; [exact Hb|].
      pose proof (sorted_head_lt first rest p Hs Hp). lra.
    - apply reconstructedLoop_after. intros p Hp.
      pose proof (sorted_last_le _ lastPoint p Hs Hlast Hp). lra. }
  now rewrite Hnone.
Qed.

Lemma getReconstructedPosition_outside_witness :
  StronglySorted ageLt sampleTrajectory
  /\ last sampleTrajectory = Some (TrajPoint 20 5 8 false)
  /\ getReconstructedPosition sampleTrajectory 0 0 (-1) = Coord 5 8.
Proof.
  assert (Hs : StronglySorted ageLt sampleTrajectory).
  { repeat constructor. }
  split; [exact Hs|]. split; [reflexivity|].
  exact (proj1 (getReconstructedPosition_outside (TrajPoint 0 0 0 false)
           [TrajPoint 10 3 4 false; TrajPoint 20 5 8 false] 0 0 (-1)
           (TrajPoint 20 5 8 false) Hs eq_refl (or_introl eq_refl))).
Defined.

Lemma lerp_0 (p1 p2 : trajPoint) (t : Q) :
  t == 0 -> coord_eq (lerp p1 p2 t) (coordOf p1).
Proof. intros Ht. unfold coord_eq, lerp. cbn. rewrite Ht. split; ring. Qed.

Lemma lerp_1 (p1 p2 : trajPoint) (t : Q) :
  t == 1 -> coord_eq (lerp p1 p2 t) (coordOf p2).
Proof. intros Ht. unfold coord_eq, lerp. cbn. rewrite Ht. split; ring. Qed.

(** At the age of one of its points the loop returns that point, or falls
    through when the point is the last one. *)
Lemma reconstructedLoop_knot (l : list trajPoint) (p : trajPoint) :
  StronglySorted ageLt l -> In p l ->
  match reconstructedLoop (age p) l with
  | Some position => coord_eq position (coordOf p)
  | None => last l = Some p
  end.
Proof.
  induction l as [|p1 l IH]; intros Hs Hp; [destruct Hp|].
  destruct l as [|p2 l'].
  - destruct Hp as [<-|[]]. reflexivity.
  - cbn [reconstructedLoop].
    pose proof (sorted_head_lt p1 (p2 :: l') p2 Hs (or_introl eq_refl)) as H12.
    destruct Hp as [<-|[<-|Hp]].
    + assert (E : js_ge (age p1) (age p1) && js_le (age p1) (age p2) = true).
      { unfold js_ge, js_le. apply andb_true_iff.
        split; apply Qle_bool_iff; lra. }
      rewrite E. apply lerp_0. field. lra.
    + assert (E : js_ge (age p2) (age p1) && js_le (age p2) (age p2) = true).
      { unfold js_ge, js_le. apply andb_true_iff.
        split; apply Qle_bool_iff; lra. }
      rewrite E. apply lerp_1. field. lra.
    + assert (H2p : age p2 < age p).
      { apply (sorted_head_lt p2 l' p); [now apply sorted_tail in Hs|exact Hp]. }
      assert (E : js_le (age p) (age p2) = false).
      { unfold js_le. destruct (Qle_bool (age p) (age p2)) eqn:E;
          [|reflexivity]. apply Qle_bool_iff in E. lra. }
      rewrite E, andb_false_r.
      change (last (p1 :: p2 :: l')) with (last (p2 :: l')).
      apply IH; [now apply sorted_tail in Hs|now right].
Qed.

(** Between the first and the last age the loop returns a point of the
    segment between two consecutive points that bracket the age. *)
Lemma reconstructedLoop_bracket (a : Q) (l : list trajPoint)
    (first lastPoint : trajPoint) :
  StronglySorted ageLt l -> head l = Some first -> last l = Some lastPoint ->
  age first <= a <= age lastPoint ->
  age first < age lastPoint ->
  exists p1 p2 t,
    adjacent_in p1 p2 l /\ age p1 <= a <= age p2 /\ 0 <= t <= 1
    /\ t == (a - age p1) / (age p2 - age p1)
    /\ reconstructedLoop a l = Some (lerp p1 p2 t).
Proof.
  revert first. induction l as [|p1 l IH]; intros first Hs Hhd Hlast Ha Hfl;
    [discriminate|].
  injection Hhd as <-.
  destruct l as [|p2 l'].
  - cbn in Hlast. injection Hlast as <-. lra.
  - cbn [reconstructedLoop].
    pose proof (sorted_head_lt p1 (p2 :: l') p2 Hs (or_introl eq_refl)) as H12.
    destruct (js_le a (age p2)) eqn:E.
    + assert (Hge : js_ge a (age p1) = true).
      { unfold js_ge. apply Qle_bool_iff. lra. }
      rewrite Hge. cbn [andb].
      apply Qle_bool_iff in E.
      exists p1, p2, ((a - age p1) / (age p2 - age p1)).
      split; [exists [], l'; reflexivity|].
      split; [lra|]. split; [|split; reflexivity].
      split; [apply Qle_shift_div_l|apply Qle_shift_div_r]; lra.
    + rewrite andb_false_r.
      assert (H2a : age p2 < a).
      { unfold js_le in E. destruct (Qlt_le_dec (age p2) a) as [Hlt|Hle];
          [exact Hlt|]. apply Qle_bool_iff in Hle. congruence. }
      change (last (p1 :: p2 :: l')) with (last (p2 :: l')) in Hlast.
      destruct (IH p2) as (q1 & q2 & t & Hadj & Hq & Ht & Hteq & Hloop).
      * now apply sorted_tail in Hs.
      * reflexivity.
      * exact Hlast.
      * lra.
      * lra.
      * exists q1, q2, t. split; [|now repeat split].
        destruct Hadj as (l1 & l2 & Heq). exists (p1 :: l1), l2.
        cbn. now rewrite Heq.
Qed.

(** X16. On a trajectory with strictly increasing ages,
    [getReconstructedPosition] at the age of a trajectory point returns
    that point, and at any age between the first and the last age it
    returns the linear interpolation, with parameter in [0, 1], between
    two consecutive points whose ages bracket the age asked for. *)
Theorem getReconstructedPosition_interpolates (trajectoryPoints : list trajPoint)
    (originalLat originalLon : Q) :
  StronglySorted ageLt trajectoryPoints ->
  (forall p, In p trajectoryPoints ->
     coord_eq (getReconstructedPosition trajectoryPoints originalLat
                 originalLon (age p))
       (coordOf p))
  /\ (forall first lastPoint a,
        head trajectoryPoints = Some first ->
        last trajectoryPoints = Some lastPoint ->
        age first <= a <= age lastPoint ->
        age first < age lastPoint ->
        exists p1 p2 t,
          adjacent_in p1 p2 trajectoryPoints
          /\ age p1 <= a <= age p2 /\ 0 <= t <= 1
          /\ getReconstructedPosition trajectoryPoints originalLat
               originalLon a
             = lerp p1 p2 t).
Proof.
  intros Hs. split.
  - intros p Hp. unfold getReconstructedPosition.
    pose proof (reconstructedLoop_knot trajectoryPoints p Hs Hp) as Hk.
    destruct (last trajectoryPoints) as [lastPoint|] eqn:Hlast.
    + destruct (reconstructedLoop (age p) trajectoryPoints); [exact Hk|].
      injection Hk as ->. split; reflexivity.
    + apply last_None in Hlast. subst. destruct Hp.
  - intros first lastPoint a Hhd Hlast Ha Hfl. unfold getReconstructedPosition.
    destruct (reconstructedLoop_bracket a trajectoryPoints first lastPoint
                Hs Hhd Hlast Ha Hfl) as (p1 & p2 & t & Hadj & Hb & Ht & _ & Hl).
    exists p1, p2, t. rewrite Hlast, Hl. now repeat split.
Qed.

Lemma getReconstructedPosition_interpolates_witness :
  StronglySorted ageLt sampleTrajectory
  /\ coord_eq (getReconstructedPosition sampleTrajectory 0 0 10) (Coord 3 4).
Proof.
  assert (Hs : StronglySorted ageLt sampleTrajectory).
  { repeat constructor. }
  split; [exact Hs|].
  exact (proj1 (getReconstructedPosition_interpolates sampleTrajectory 0 0 Hs)
           (TrajPoint 10 3 4 false) (or_intror (or_introl eq_refl))).
Defined.

(** ** getTrajectoryPosition *)

Lemma trajectoryLoop_no_jump `{JSMath} (a : Q) (l : list trajPoint) :
  StronglySorted ageLt l ->
  (forall x y, adjacent_in x y l -> js_gt (jumpOf x y) 30 = false) ->
  trajectoryLoop a l
  = option_map (fun c => TrajPos c false) (reconstructedLoop a l).
Proof.
  induction l as [|p1 l IH]; intros Hs Hnj; [reflexivity|].
  destruct l as [|p2 l']; [reflexivity|].
  cbn [trajectoryLoop reconstructedLoop].
  rewrite (Hnj p1 p2) by (exists [], l'; reflexivity). cbn [andb].
  pose proof (sorted_head_lt p1 (p2 :: l') p2 Hs (or_introl eq_refl)) as H12.
  assert (Hpos : js_gt (age p2 - age p1) 0 = true).
  { apply js_gt_spec. lra. }
  rewrite Hpos.
  destruct (js_ge a (age p1) && js_le a (age p2)); [reflexivity|].
  apply IH; [now apply sorted_tail in Hs|].
  intros x y Hxy. apply Hnj. now apply adjacent_in_tail.
Qed.

(** X17. On a trajectory with strictly increasing ages in which no two
    consecutive points are more than 30 degrees apart,
    [getTrajectoryPosition] returns the position that
    [getReconstructedPosition] returns, never marked as the end of the
    trajectory. *)
Theorem getTrajectoryPosition_no_jump `{JSMath}
    (trajectoryPoints : list trajPoint) (originalLat originalLon a : Q) :
  StronglySorted ageLt trajectoryPoints ->
  (forall x y, adjacent_in x y trajectoryPoints ->
     js_gt (jumpOf x y) 30 = false) ->
  getTrajectoryPosition trajectoryPoints originalLat originalLon a
  = TrajPos (getReconstructedPosition trajectoryPoints originalLat
               originalLon a) false.
Proof.
  intros Hs Hnj. unfold getTrajectoryPosition, getReconstructedPosition.
  rewrite (trajectoryLoop_no_jump a trajectoryPoints Hs Hnj).
  destruct (last trajectoryPoints); [|reflexivity].
  now destruct (reconstructedLoop a trajectoryPoints).
Qed.

Lemma getTrajectoryPosition_no_jump_witness :
  StronglySorted ageLt sampleTrajectory
  /\ (forall x y, adjacent_in x y sampleTrajectory ->
        js_gt (@jumpOf tableMath x y) 30 = false)
  /\ @getTrajectoryPosition tableMath sampleTrajectory 0 0 5
     = TrajPos (getReconstructedPosition sampleTrajectory 0 0 5) false.
Proof.
  assert (Hs : StronglySorted ageLt sampleTrajectory).
  { repeat constructor. }
  assert (Hnj : forall x y, adjacent_in x y sampleTrajectory ->
                  js_gt (@jumpOf tableMath x y) 30 = false).
  { intros x y Hxy. unfold sampleTrajectory in Hxy.
    apply adjacent_in_cons in Hxy as [[-> [tl [= <- _]]]|Hxy];
      [vm_compute; reflexivity|].
    apply adjacent_in_cons in Hxy as [[-> [tl [= <- _]]]|Hxy];
      [vm_compute; reflexivity|].
    apply adjacent_in_cons in Hxy as [[-> [tl [=]]]|Hxy].
    destruct Hxy as (l1 & l2 & Heq). destruct l1; discriminate. }
  split; [exact Hs|]. split; [exact Hnj|].
  exact (@getTrajectoryPosition_no_jump tableMath sampleTrajectory 0 0 5 Hs Hnj).
Defined.

Lemma sorted_app_head_le (pre : list trajPoint) (p1 : trajPoint)
    (post : list trajPoint) (q : trajPoint) :
  StronglySorted ageLt (pre ++ p1 :: post) -> In q pre -> age q < age p1.
Proof.
  induction pre as [|x pre IH]; intros Hs Hq; [destruct Hq|].
  destruct Hq as [<-|Hq].
  - apply (sorted_head_lt x (pre ++ p1 :: post)); [exact Hs|].
    apply in_or_app. right. now left.
  - apply IH; [now apply sorted_tail in Hs|exact Hq].
Qed.

Lemma trajectoryLoop_frozen `{JSMath} (a : Q) (pre : list trajPoint)
    (p1 p2 : trajPoint) (post : list trajPoint) :
  StronglySorted ageLt (pre ++ p1 :: p2 :: post) ->
  (forall x y, adjacent_in x y (pre ++ [p1]) -> js_gt (jumpOf x y) 30 = false) ->
  js_gt (jumpOf p1 p2) 30 = true ->
  age p1 <= a ->
  exists r,
    trajectoryLoop a (pre ++ p1 :: p2 :: post) = Some r
    /\ coord_eq (pos r) (coordOf p1)
    /\ (age p1 < a -> endOfTrajectory r = true).
Proof.
  induction pre as [|q pre IH]; intros Hs Hnj Hj Ha.
  - cbn [app trajectoryLoop]. rewrite Hj.
    assert (Hge : js_ge a (age p1) = true) by (apply Qle_bool_iff; exact Ha).
    rewrite Hge. cbn [andb]. eexists. split; [reflexivity|].
    split; [split; reflexivity|reflexivity].
  - assert (Hq1 : age q < age p1).
    { apply (sorted_app_head_le (q :: pre) p1 (p2 :: post) q Hs). now left. }
    assert (Hrec : exists r,
               trajectoryLoop a (pre ++ p1 :: p2 :: post) = Some r
               /\ coord_eq (pos r) (coordOf p1)
               /\ (age p1 < a -> endOfTrajectory r = true)).
    { apply IH; [now apply sorted_tail in Hs| |exact Hj|exact Ha].
      intros x y Hxy. apply Hnj. now apply (adjacent_in_tail x y q). }
    destruct pre as [|q' pre'].
    + cbn [app trajectoryLoop] in *.
      rewrite (Hnj q p1) by (exists [], []; reflexivity). cbn [andb].
      assert (Hge : js_ge a (age q) = true) by (apply Qle_bool_iff; lra).
      rewrite Hge. cbn [andb].
      destruct (js_le a (age p1)) eqn:Ele; [|exact Hrec].
      apply Qle_bool_iff in Ele.
      assert (Hpos : js_gt (age p1 - age q) 0 = true) by (apply js_gt_spec; lra).
      rewrite Hpos. eexists. split; [reflexivity|]. cbn [pos endOfTrajectory].
      split; [|intros Hlt; lra].
      apply lerp_1. assert (Heq : a == age p1) by lra.
      rewrite Heq. field. lra.
    + change ((q :: q' :: pre') ++ p1 :: p2 :: post)
        with (q :: q' :: (pre' ++ p1 :: p2 :: post)).
      cbn [trajectoryLoop].
      rewrite (Hnj q q') by (exists [], (pre' ++ [p1]); reflexivity).
      cbn [andb].
      assert (Hq'1 : age q' < age p1).
      { apply (sorted_app_head_le (q :: q' :: pre') p1 (p2 :: post) q' Hs).
        right. now left. }
      assert (Ele : js_le a (age q') = false).
      { unfold js_le. destruct (Qle_bool a (age q')) eqn:E; [|reflexivity].
        apply Qle_bool_iff in E. lra. }
      rewrite Ele, andb_false_r. exact Hrec.
Qed.

(** X18. On a trajectory with strictly increasing ages, from the age of
    the last point before the first pair of consecutive points more than
    30 degrees apart, [getTrajectoryPosition] stays at that point, and
    past that age it marks the position as the end of the trajectory. *)
Theorem getTrajectoryPosition_frozen `{JSMath} (pre : list trajPoint)
    (p1 p2 : trajPoint) (post : list trajPoint)
    (originalLat originalLon a : Q) :
  StronglySorted ageLt (pre ++ p1 :: p2 :: post) ->
  (forall x y, adjacent_in x y (pre ++ [p1]) -> js_gt (jumpOf x y) 30 = false) ->
  js_gt (jumpOf p1 p2) 30 = true ->
  age p1 <= a ->
  coord_eq
    (pos (getTrajectoryPosition (pre ++ p1 :: p2 :: post) originalLat
            originalLon a))
    (coordOf p1)
  /\ (age p1 < a ->
      endOfTrajectory
        (getTrajectoryPosition (pre ++ p1 :: p2 :: post) originalLat
           originalLon a) = true).
Proof.
  intros Hs Hnj Hj Ha. unfold getTrajectoryPosition.
  destruct (trajectoryLoop_frozen a pre p1 p2 post Hs Hnj Hj Ha)
    as (r & -> & Hr).
  destruct (last (pre ++ p1 :: p2 :: post)) eqn:Hlast; [exact Hr|].
  apply last_None in Hlast. destruct pre; discriminate.
Qed.

Lemma getTrajectoryPosition_frozen_witness :
  StronglySorted ageLt
    ([TrajPoint 0 0 0 false]
     ++ TrajPoint 10 3 4 false :: TrajPoint 20 40 50 false :: [])
  /\ js_gt (@jumpOf tableMath (TrajPoint 10 3 4 false)
              (TrajPoint 20 40 50 false)) 30 = true
  /\ coord_eq
       (pos (@getTrajectoryPosition tableMath
               ([TrajPoint 0 0 0 false]
                ++ TrajPoint 10 3 4 false :: TrajPoint 20 40 50 false :: [])
               0 0 15))
       (Coord 3 4).
Proof.
  assert (Hs : StronglySorted ageLt
                 ([TrajPoint 0 0 0 false]
                  ++ TrajPoint 10 3 4 false :: TrajPoint 20 40 50 false :: [])).
  { repeat constructor. }
  assert (Hj : js_gt (@jumpOf tableMath (TrajPoint 10 3 4 false)
                        (TrajPoint 20 40 50 false)) 30 = true).
  { vm_compute. reflexivity. }
  split; [exact Hs|]. split; [exact Hj|].
  refine (proj1 (@getTrajectoryPosition_frozen tableMath
            [TrajPoint 0 0 0 false] (TrajPoint 10 3 4 false)
            (TrajPoint 20 40 50 false) [] 0 0 15 Hs _ Hj _)).
  - intros x y Hxy.
    apply adjacent_in_cons in Hxy as [[-> [tl [= <- _]]]|Hxy];
      [vm_compute; reflexivity|].
    apply adjacent_in_cons in Hxy as [[-> [tl [=]]]|Hxy].
    destruct Hxy as (l1 & l2 & Heq). destruct l1; discriminate.
  - discriminate.
Defined.

(** ** filterInvalidTrajectoryPoints, once more *)

Lemma filterLoop_keptFrom (points : list trajPoint) :
  forall validPoints lastValidPoint,
    filterLoop points validPoints lastValidPoint
    = validPoints ++ keptFrom lastValidPoint points.
Proof.
  induction points as [|pt rest IH]; intros valid lastp;
    cbn [filterLoop keptFrom].
  - now rewrite app_nil_r.
  - destruct (outOfBounds pt); [apply IH|].
    rewrite IH, <- app_assoc. reflexivity.
Qed.

Lemma filterInvalidTrajectoryPoints_keptFrom (first : trajPoint)
    (rest : list trajPoint) :
  filterInvalidTrajectoryPoints (first :: rest) = first :: keptFrom first rest.
Proof.
  unfold filterInvalidTrajectoryPoints. destruct rest as [|second rest'].
  - reflexivity.
  - now rewrite filterLoop_keptFrom.
Qed.

Lemma outOfBounds_position (p p' : trajPoint) :
  position p = position p' -> outOfBounds p = outOfBounds p'.
Proof. unfold position, outOfBounds. now intros [= _ -> ->]. Qed.

Lemma keptFrom_position (lastp lastp' : trajPoint) (points : list trajPoint) :
  position lastp = position lastp' ->
  keptFrom lastp points = keptFrom lastp' points.
Proof.
  revert lastp lastp'. induction points as [|pt rest IH];
    intros lastp lastp' Hpos; cbn [keptFrom]; [reflexivity|].
  destruct (outOfBounds pt); [now apply IH|].
  now rewrite (bigJump_position lastp lastp' pt pt Hpos eq_refl).
Qed.

Lemma keptFrom_idempotent (points : list trajPoint) :
  forall lastp, keptFrom lastp (keptFrom lastp points) = keptFrom lastp points.
Proof.
  induction points as [|pt rest IH]; intros lastp; cbn [keptFrom];
    [reflexivity|].
  destruct (outOfBounds pt) eqn:Hout; [apply IH|].
  set (pt' := if bigJump lastp pt then markEndPoint pt else pt).
  assert (Hpos : position pt' = position pt).
  { unfold pt'. now destruct (bigJump lastp pt). }
  cbn [keptFrom].
  rewrite (outOfBounds_position pt' pt Hpos), Hout.
  rewrite (bigJump_position lastp lastp pt' pt eq_refl Hpos).
  assert (Hsame : (if bigJump lastp pt then markEndPoint pt' else pt') = pt').
  { unfold pt'. now destruct (bigJump lastp pt). }
  rewrite Hsame. f_equal. apply IH.
Qed.

Lemma keptFrom_in_bounds (points : list trajPoint) :
  forall lastp,
    Forall (fun p => outOfBounds p = false) (keptFrom lastp points).
Proof.
  induction points as [|pt rest IH]; intros lastp; cbn [keptFrom];
    [constructor|].
  destruct (outOfBounds pt) eqn:Hout; [apply IH|].
  constructor; [|apply IH].
  rewrite <- Hout. apply outOfBounds_position.
  now destruct (bigJump lastp pt).
Qed.

Lemma keptFrom_length (points : list trajPoint) :
  forall lastp, (length (keptFrom lastp points) <= length points)%nat.
Proof.
  induction points as [|pt rest IH]; intros lastp; cbn [keptFrom length];
    [lia|].
  destruct (outOfBounds pt); [specialize (IH lastp); lia|].
  cbn [length]. specialize (IH (if bigJump lastp pt then markEndPoint pt else pt)).
  lia.
Qed.

(** X19. [filterInvalidTrajectoryPoints] is idempotent: filtering a
    filtered trajectory changes nothing.  The result is never longer than
    the input, and every point it keeps after the first has its latitude
    in [-90, 90] and its longitude in [-180, 180]. *)
Theorem filterInvalidTrajectoryPoints_idempotent
    (trajectoryPoints : list trajPoint) :
  filterInvalidTrajectoryPoints (filterInvalidTrajectoryPoints trajectoryPoints)
  = filterInvalidTrajectoryPoints trajectoryPoints
  /\ (length (filterInvalidTrajectoryPoints trajectoryPoints)
      <= length trajectoryPoints)%nat
  /\ Forall
       (fun p => -90 <= tlat p <= 90 /\ -180 <= tlon p <= 180)
       (tail (filterInvalidTrajectoryPoints trajectoryPoints)).
Proof.
  destruct trajectoryPoints as [|first rest].
  - repeat split; constructor.
  - rewrite !filterInvalidTrajectoryPoints_keptFrom.
    rewrite keptFrom_idempotent.
    split; [reflexivity|]. split.
    + cbn [length]. pose proof (keptFrom_length rest first). lia.
    + cbn [tail]. eapply Forall_impl; [apply keptFrom_in_bounds|].
      cbn. intros p Hp. unfold outOfBounds, js_lt in Hp.
      repeat (apply orb_false_iff in Hp as [Hp ?]).
      repeat match goal with
             | H : js_gt _ _ = false |- _ => apply js_gt_false in H
             end.
      lra.
Qed.

Lemma keptFrom_sorted (points : list trajPoint) :
  forall lastp,
    StronglySorted ageLt (lastp :: points) ->
    StronglySorted ageLt (lastp :: keptFrom lastp points).
Proof.
  induction points as [|pt rest IH]; intros lastp Hs; cbn [keptFrom];
    [exact Hs|].
  apply StronglySorted_inv in Hs as [Hs Hall].
  apply Forall_cons in Hall as [Hpt Hall].
  destruct (outOfBounds pt).
  - apply IH. constructor; [now apply sorted_tail in Hs|exact Hall].
  - set (pt' := if bigJump lastp pt then markEndPoint pt else pt).
    assert (Hage : age pt' = age pt).
    { unfold pt'. now destruct (bigJump lastp pt). }
    assert (Hs' : StronglySorted ageLt (pt' :: keptFrom pt' rest)).
    { apply IH. apply StronglySorted_inv in Hs as [Hs Hall'].
      constructor; [exact Hs|].
      eapply Forall_impl; [exact Hall'|]. unfold ageLt. cbn.
      intros x Hx. now rewrite Hage. }
    constructor; [exact Hs'|].
    apply Forall_forall. intros x Hx.
    apply list_elem_of_In in Hx. destruct Hx as [<-|Hx].
    + unfold ageLt in *. now rewrite Hage.
    + pose proof (sorted_head_lt pt' _ x Hs' Hx) as Hlt.
      unfold ageLt in *. rewrite Hage in Hlt. lra.
Qed.

Lemma filterInvalidTrajectoryPoints_in_bounds
    (trajectoryPoints : list trajPoint) :
  Forall (fun p => -90 <= tlat p <= 90 /\ -180 <= tlon p <= 180)
    (tail (filterInvalidTrajectoryPoints trajectoryPoints)).
Proof.
  destruct trajectoryPoints as [|first rest]; [constructor|].
  rewrite filterInvalidTrajectoryPoints_keptFrom. cbn [tail].
  eapply Forall_impl; [apply keptFrom_in_bounds|].
  cbn. intros p Hp. unfold outOfBounds, js_lt in Hp.
  repeat (apply orb_false_iff in Hp as [Hp ?]).
  repeat match goal with
         | H : js_gt _ _ = false |- _ => apply js_gt_false in H
         end.
  lra.
Qed.

(** X20. When no other handler of the page runs while [startJourney]
    awaits the trajectory and the coastlines, the trajectory that the
    journey ends up with, the one built by [generateFullTrajectoryAsync]
    and then filtered by [filterInvalidTrajectoryPoints], still starts
    with the point of age 0 at the unmodified input coordinates and still
    has strictly increasing ages.  Whatever handlers run meanwhile, every
    point of it after the first has its latitude in [-90, 90] and its
    longitude in [-180, 180]; and when [stopJourney] or [resetView] is the
    last of them to run before the filter, the journey ends up with no
    trajectory at all. *)
Theorem journey_trajectory `{JSMath} (fetch : request -> fetchResult)
    (lat0 lon0 maxAge : Q) (modelName : string) :
  (exists rest,
      startJourney fetch lat0 lon0 maxAge modelName [] [] []
      = TrajPoint 0 lat0 lon0 false :: rest)
  /\ StronglySorted ageLt
       (startJourney fetch lat0 lon0 maxAge modelName [] [] [])
  /\ (forall during1 during2 during3 : list handler,
        Forall (fun p => -90 <= tlat p <= 90 /\ -180 <= tlon p <= 180)
          (tail (startJourney fetch lat0 lon0 maxAge modelName
                   during1 during2 during3)))
  /\ (forall (during1 during2 during3 : list handler) (h : handler),
        h = stopJourney \/ h = resetView ->
        startJourney fetch lat0 lon0 maxAge modelName
          during1 during2 (during3 ++ [h])
        = []).
Proof.
  unfold startJourney.
  split; [|split; [|split]].
  - rewrite generateFullTrajectoryAsync_eq. cbn [fst runHandlers fold_left app].
    rewrite filterInvalidTrajectoryPoints_keptFrom. eexists; reflexivity.
  - rewrite generateFullTrajectoryAsync_eq. cbn [fst runHandlers fold_left app].
    rewrite filterInvalidTrajectoryPoints_keptFrom.
    apply keptFrom_sorted. constructor; [apply gatherResults_increasing|].
    apply Forall_forall. intros pt Hpt.
    apply list_elem_of_In, in_map_iff in Hpt as (a & <- & Ha).
    unfold ageLt. rewrite resultAt_age. cbn [age].
    now apply (agesOf_positive maxAge).
  - intros during1 during2 during3.
    apply filterInvalidTrajectoryPoints_in_bounds.
  - intros during1 during2 during3 h Hh.
    unfold runHandlers. rewrite fold_left_app. cbn [fold_left].
    now destruct Hh as [-> | ->].
Qed.

(** ** Point in polygon: latitudes outside the polygon *)

Lemma ringEdges_In {A : Type} (polygon : list A) (a b : A) :
  In (a, b) (ringEdges polygon) -> In a polygon /\ In b polygon.
Proof.
  unfold ringEdges. destruct (last polygon) as [pn|] eqn:Hlast; [|intros []].
  intros Hin. apply list_elem_of_In in Hin.
  pose proof (elem_of_zip_l _ _ _ _ Hin) as Ha.
  pose proof (elem_of_zip_r _ _ _ _ Hin) as Hb.
  apply list_elem_of_In in Ha, Hb. split; [exact Ha|].
  destruct Hb as [<-|Hb]; [|exact Hb].
  apply last_Some_elem_of, list_elem_of_In in Hlast. exact Hlast.
Qed.

Lemma no_crossing_outside (ptLat ptLon : Q) (polygon : list coord) :
  (forall e, In e (ringEdges polygon) ->
     edgeCrossed ptLat ptLon (fst e) (snd e) = false) ->
  isPointInPolygon ptLat ptLon polygon = false.
Proof.
  intros Hno. rewrite isPointInPolygon_parity. unfold rayCrossings.
  assert (Hnil : List.filter
                   (fun e => edgeCrossed ptLat ptLon (fst e) (snd e))
                   (ringEdges polygon) = []).
  { induction (ringEdges polygon) as [|e l IH]; [reflexivity|].
    cbn. rewrite (Hno e (or_introl eq_refl)). apply IH.
    intros e' He'. apply Hno. now right. }
  now rewrite Hnil.
Qed.

(** An edge whose two ends are on the same side of the latitude of the
    point fails the first half of the edge test: the abscissa of the
    intersection is not looked at. *)
Lemma edgeCrossed_same_side (ptLat ptLon : Q) (e : coord * coord) :
  straddles ptLat e = false ->
  edgeCrossed ptLat ptLon (fst e) (snd e) = false.
Proof.
  unfold straddles, aboveLat, edgeCrossed. now intros ->.
Qed.

Lemma straddles_outside (ptLat : Q) (polygon : list coord) :
  (forall v, In v polygon -> lat v <= ptLat)
  \/ (forall v, In v polygon -> ptLat < lat v) ->
  forall e, In e (ringEdges polygon) -> straddles ptLat e = false.
Proof.
  intros Hout [pi pj] He. apply ringEdges_In in He as [Hi Hj].
  unfold straddles, aboveLat. cbn [fst snd].
  destruct Hout as [Hbelow|Habove].
  - assert (Ei : js_gt (lat pi) ptLat = false)
      by (apply js_gt_false; now apply Hbelow).
    assert (Ej : js_gt (lat pj) ptLat = false)
      by (apply js_gt_false; now apply Hbelow).
    now rewrite Ei, Ej.
  - assert (Ei : js_gt (lat pi) ptLat = true)
      by (apply js_gt_spec; now apply Habove).
    assert (Ej : js_gt (lat pj) ptLat = true)
      by (apply js_gt_spec; now apply Habove).
    now rewrite Ei, Ej.
Qed.

(** The test answers false for every point whose latitude is outside the
    latitudes of the polygon. *)
Lemma isPointInPolygon_outside (ptLat ptLon : Q) (polygon : list coord) :
  (forall v, In v polygon -> lat v <= ptLat)
  \/ (forall v, In v polygon -> ptLat < lat v) ->
  isPointInPolygon ptLat ptLon polygon = false.
Proof.
  intros Hout. apply no_crossing_outside. intros e He.
  apply edgeCrossed_same_side. now apply (straddles_outside ptLat polygon).
Qed.

(** X21. [isPointInPolygon] answers false for every point whose latitude
    is outside the latitudes of the polygon, at or above all its vertices
    or below all of them, whatever its longitude.  No edge of the ring then
    has its ends on different sides of the latitude of the point, so that
    the answer comes from comparisons of coordinates alone: the abscissa of
    an intersection is never looked at. *)
Theorem isPointInPolygon_latitudes (ptLat ptLon : Q) (polygon : list coord) :
  Forall (fun v => lat v <= ptLat) polygon
  \/ Forall (fun v => ptLat < lat v) polygon ->
  Forall (fun e => straddles ptLat e = false) (ringEdges polygon)
  /\ isPointInPolygon ptLat ptLon polygon = false.
Proof.
  intros Hout.
  assert (Hout' : (forall v, In v polygon -> lat v <= ptLat)
                  \/ (forall v, In v polygon -> ptLat < lat v)).
  { rewrite !Forall_forall in Hout.
    destruct Hout as [Ho|Ho]; [left|right];
      intros v Hv; apply Ho; now apply list_elem_of_In. }
  split; [|now apply isPointInPolygon_outside].
  apply Forall_forall. intros e He. apply list_elem_of_In in He.
  now apply (straddles_outside ptLat polygon).
Qed.

Lemma isPointInPolygon_latitudes_witness :
  (Forall (fun v => lat v <= 15) square_js
   \/ Forall (fun v => 15 < lat v) square_js)
  /\ isPointInPolygon 15 5 square_js = false.
Proof.
  assert (Hout : Forall (fun v => lat v <= 15) square_js
                 \/ Forall (fun v => 15 < lat v) square_js).
  { left. repeat constructor; discriminate. }
  split; [exact Hout|].
  exact (proj2 (isPointInPolygon_latitudes 15 5 square_js Hout)).
Defined.

(** ** isPointInContinent *)

Lemma growBox_fold (outline : list (Q * Q)) :
  forall minLat maxLat minLon maxLon,
    let '(minLat', maxLat', minLon', maxLon') :=
      fold_left growBox outline (minLat, maxLat, minLon, maxLon) in
    minLat' <= minLat /\ maxLat <= maxLat'
    /\ minLon' <= minLon /\ maxLon <= maxLon'
    /\ forall lt ln, In (lt, ln) outline ->
         minLat' <= lt <= maxLat' /\ minLon' <= ln <= maxLon'.
Proof.
  induction outline as [|[lt0 ln0] outline IH];
    intros minLat maxLat minLon maxLon.
  - cbn. do 4 (split; [apply Qle_refl|]). intros lt ln [].
  - cbn [fold_left growBox].
    specialize (IH (Qmin minLat lt0) (Qmax maxLat lt0) (Qmin minLon ln0)
                  (Qmax maxLon ln0)).
    destruct (fold_left growBox outline _) as [[[a b] c] d].
    destruct IH as (H1 & H2 & H3 & H4 & Hall).
    pose proof (Q.le_min_l minLat lt0). pose proof (Q.le_min_r minLat lt0).
    pose proof (Q.le_max_l maxLat lt0). pose proof (Q.le_max_r maxLat lt0).
    pose proof (Q.le_min_l minLon ln0). pose proof (Q.le_min_r minLon ln0).
    pose proof (Q.le_max_l maxLon ln0). pose proof (Q.le_max_r maxLon ln0).
    repeat split; try lra.
    all: intros; match goal with
         | Hin : In _ (_ :: _) |- _ =>
             destruct Hin as [[= <- <-]|Hin];
             [lra|destruct (Hall _ _ Hin); lra]
         end.
Qed.

(** X22. [isPointInContinent] rejects every point when the outline is
    empty and accepts every vertex of the outline; and every point that
    [isPointInPolygon] finds inside the outline passes the latitude half
    of its test (both facts rest on comparisons of coordinates alone). *)
Theorem isPointInContinent_spec (ptLat ptLon : Q) (outline : list (Q * Q)) :
  isPointInContinent ptLat ptLon [] = false
  /\ (forall lt ln, In (lt, ln) outline ->
        isPointInContinent lt ln outline = true)
  /\ (isPointInPolygon ptLat ptLon (outlineCoords outline) = true ->
      let '(minLat, maxLat, _, _) := boundingBox outline in
      js_ge ptLat minLat && js_le ptLat maxLat = true).
Proof.
  split; [|split].
  - unfold isPointInContinent, boundingBox, js_ge, js_le. cbn [fold_left].
    destruct (Qle_bool 90 ptLat) eqn:E1; [|reflexivity].
    destruct (Qle_bool ptLat (-90)) eqn:E2; [|reflexivity].
    apply Qle_bool_iff in E1, E2. exfalso. lra.
  - intros lt ln Hin. unfold isPointInContinent, boundingBox.
    pose proof (growBox_fold outline 90 (-90) 180 (-180)) as Hbox.
    destruct (fold_left growBox outline _) as [[[a b] c] d].
    destruct Hbox as (_ & _ & _ & _ & Hall).
    destruct (Hall lt ln Hin) as [[? ?] [? ?]].
    unfold js_ge, js_le. repeat (apply andb_true_iff; split);
      now apply Qle_bool_iff.
  - intros Hinside. unfold boundingBox.
    pose proof (growBox_fold outline 90 (-90) 180 (-180)) as Hbox.
    destruct (fold_left growBox outline _) as [[[a b] c] d].
    destruct Hbox as (_ & _ & _ & _ & Hall).
    assert (Hv : forall v, In v (outlineCoords outline) -> a <= lat v <= b).
    { intros v Hv. unfold outlineCoords in Hv.
      apply in_map_iff in Hv as ([lt ln] & <- & Hin). cbn.
      now destruct (Hall lt ln Hin). }
    unfold js_ge, js_le.
    apply andb_true_iff; split; apply Qle_bool_iff.
    + destruct (Qlt_le_dec ptLat a) as [Hlt|Hle]; [|exact Hle].
      rewrite isPointInPolygon_outside in Hinside; [discriminate|].
      right. intros v Hin. destruct (Hv v Hin). lra.
    + destruct (Qlt_le_dec b ptLat) as [Hlt|Hle]; [|exact Hle].
      rewrite isPointInPolygon_outside in Hinside; [discriminate|].
      left. intros v Hin. destruct (Hv v Hin). lra.
Qed.

(** ** findContainingPolygon and findNearestPolygon *)

(** X23. [findContainingPolygon] returns the first feature that is a
    polygon with at least 3 vertices containing the point, never a line
    nor a polygon with fewer vertices; it returns nothing exactly when
    there is no such feature, and when [coastlines] is [null]. *)
Theorem findContainingPolygon_spec (features : list feature)
    (ptLat ptLon : Q) :
  findContainingPolygon None ptLat ptLon = None
  /\ match findContainingPolygon (Some features) ptLat ptLon with
     | Some f =>
         exists before after cs,
           features = before ++ f :: after
           /\ f_type f = "polygon" /\ f_coordinates f = Some cs
           /\ (3 <= length cs)%nat
           /\ isPointInPolygon ptLat ptLon cs = true
           /\ forall g cs', In g before -> polygonOf g = Some cs' ->
                isPointInPolygon ptLat ptLon cs' = false
     | None =>
         forall g cs', In g features -> polygonOf g = Some cs' ->
           isPointInPolygon ptLat ptLon cs' = false
     end.
Proof.
  split; [reflexivity|]. cbn [findContainingPolygon].
  induction features as [|f rest IH]; cbn [containingLoop].
  - intros g cs' [].
  - destruct (polygonOf f) as [cs|] eqn:Hpoly.
    + destruct (isPointInPolygon ptLat ptLon cs) eqn:Hin.
      * exists [], rest, cs. unfold polygonOf in Hpoly.
        destruct (String.eqb_spec (f_type f) "polygon") as [Ht|]; [|discriminate].
        destruct (f_coordinates f) as [cs0|]; [|discriminate].
        destruct (Nat.ltb_spec (length cs0) 3); [discriminate|].
        injection Hpoly as ->.
        repeat split; easy.
      * destruct (containingLoop rest ptLat ptLon) as [f'|].
        -- destruct IH as (before & after & cs1 & -> & Hrest).
           exists (f :: before), after, cs1.
           split; [reflexivity|].
           destruct Hrest as (? & ? & ? & ? & Hbefore).
           repeat split; try assumption.
           intros g cs' [<-|Hg] Hp; [congruence|now apply (Hbefore g)].
        -- intros g cs' [<-|Hg] Hp; [congruence|now apply (IH g)].
    + destruct (containingLoop rest ptLat ptLon) as [f'|].
      * destruct IH as (before & after & cs1 & -> & Hrest).
        exists (f :: before), after, cs1.
        split; [reflexivity|].
        destruct Hrest as (? & ? & ? & ? & Hbefore).
        repeat split; try assumption.
        intros g cs' [<-|Hg] Hp; [congruence|now apply (Hbefore g)].
      * intros g cs' [<-|Hg] Hp; [congruence|now apply (IH g)].
Qed.

Lemma nearestStep_nearestIs `{JSMath} (ptLat ptLon : Q)
    (st : option feature * option Q) (seen : list feature) (f : feature) :
  nearestIs ptLat ptLon st seen ->
  nearestIs ptLat ptLon (nearestStep ptLat ptLon st f) (seen ++ [f]).
Proof.
  destruct st as [nearest minDist]. unfold nearestIs, nearestStep.
  cbn [fst snd]. intros Hinv.
  destruct (centroidDist ptLat ptLon f) as [d|] eqn:Hd.
  - destruct nearest as [n|].
    + destruct Hinv as (Hin & dn & Hdn & -> & Hmin). cbn [closer].
      destruct (js_lt d dn) eqn:Hlt; cbn [fst snd].
      * apply js_gt_spec in Hlt.
        split; [apply in_or_app; right; now left|].
        exists d. split; [exact Hd|]. split; [reflexivity|].
        intros g dg Hg Hdg. apply in_app_or in Hg as [Hg|[<-|[]]].
        -- specialize (Hmin g dg Hg Hdg). lra.
        -- rewrite Hd in Hdg. injection Hdg as <-. apply Qle_refl.
      * apply js_gt_false in Hlt.
        split; [apply in_or_app; now left|].
        exists dn. split; [exact Hdn|]. split; [reflexivity|].
        intros g dg Hg Hdg. apply in_app_or in Hg as [Hg|[<-|[]]].
        -- now apply (Hmin g).
        -- rewrite Hd in Hdg. now injection Hdg as <-.
    + destruct Hinv as (-> & Hnone). cbn [closer fst snd].
      split; [apply in_or_app; right; now left|].
      exists d. split; [exact Hd|]. split; [reflexivity|].
      intros g dg Hg Hdg. apply in_app_or in Hg as [Hg|[<-|[]]].
      * rewrite (Hnone g Hg) in Hdg. discriminate.
      * rewrite Hd in Hdg. injection Hdg as <-. apply Qle_refl.
  - destruct nearest as [n|].
    + destruct Hinv as (Hin & dn & Hdn & -> & Hmin).
      split; [apply in_or_app; now left|].
      exists dn. split; [exact Hdn|]. split; [reflexivity|].
      intros g dg Hg Hdg. apply in_app_or in Hg as [Hg|[<-|[]]].
      * now apply (Hmin g).
      * congruence.
    + destruct Hinv as (-> & Hnone). split; [reflexivity|].
      intros g Hg. apply in_app_or in Hg as [Hg|[<-|[]]];
        [now apply Hnone|exact Hd].
Qed.

Lemma nearestLoop_nearestIs `{JSMath} (ptLat ptLon : Q)
    (features : list feature) :
  forall st seen,
    nearestIs ptLat ptLon st seen ->
    nearestIs ptLat ptLon (fold_left (nearestStep ptLat ptLon) features st)
      (seen ++ features).
Proof.
  induction features as [|f rest IH]; intros st seen Hinv; cbn [fold_left].
  - now rewrite app_nil_r.
  - replace (seen ++ f :: rest) with ((seen ++ [f]) ++ rest)
      by now rewrite <- app_assoc.
    apply IH. now apply nearestStep_nearestIs.
Qed.

Lemma centroidDist_Some `{JSMath} (ptLat ptLon : Q) (f : feature) :
  is_Some (centroidDist ptLat ptLon f) <-> is_Some (polygonOf f).
Proof.
  unfold centroidDist. destruct (polygonOf f) as [cs|] eqn:Hp.
  - assert (Hlen : (3 <= length cs)%nat).
    { unfold polygonOf in Hp.
      destruct (String.eqb (f_type f) "polygon"); [|discriminate].
      destruct (f_coordinates f) as [cs0|]; [|discriminate].
      destruct (Nat.ltb_spec (length cs0) 3); [discriminate|].
      now injection Hp as <-. }
    destruct cs as [|c cs']; [cbn in Hlen; lia|].
    cbn [calculateCentroid]. split; intros _; eexists; reflexivity.
  - split; intros [x Hx]; discriminate.
Qed.

(** X24. [findNearestPolygon] returns a polygon feature with at least 3
    vertices whose centroid is at the smallest distance from the point
    among all such features (the centroid of such a feature always
    exists); it returns nothing exactly when there is no such feature,
    and when [coastlines] is [null]. *)
Theorem findNearestPolygon_spec `{JSMath} (features : list feature)
    (ptLat ptLon : Q) :
  findNearestPolygon None ptLat ptLon = None
  /\ match findNearestPolygon (Some features) ptLat ptLon with
     | Some f =>
         In f features /\ is_Some (polygonOf f)
         /\ exists d,
              centroidDist ptLat ptLon f = Some d
              /\ forall g dg, In g features ->
                   centroidDist ptLat ptLon g = Some dg -> d <= dg
     | None => forall g, In g features -> polygonOf g = None
     end.
Proof.
  split; [reflexivity|]. cbn [findNearestPolygon].
  assert (H0 : nearestIs ptLat ptLon (None, None) []).
  { split; [reflexivity|]. intros g []. }
  pose proof (nearestLoop_nearestIs ptLat ptLon features (None, None) [] H0)
    as Hinv.
  cbn [app] in Hinv. unfold nearestIs in Hinv.
  destruct (fst (fold_left (nearestStep ptLat ptLon) features (None, None)))
    as [f|].
  - destruct Hinv as (Hin & d & Hd & _ & Hmin).
    split; [exact Hin|]. split.
    + apply (centroidDist_Some ptLat ptLon f). rewrite Hd. now eexists.
    + exists d. now split.
  - destruct Hinv as (_ & Hnone). intros g Hg.
    specialize (Hnone g Hg).
    destruct (polygonOf g) as [cs|] eqn:Hp; [|reflexivity].
    assert (Hs : is_Some (centroidDist ptLat ptLon g)).
    { apply centroidDist_Some. rewrite Hp. now eexists. }
    rewrite Hnone in Hs. destruct Hs as [x Hx]. discriminate.
Qed.

(** ** generateTrajectoryGPlates *)

Lemma agesBy_increasing (step maxAge : Q) :
  0 < step -> StronglySorted Qlt (agesBy step maxAge).
Proof. intros Hs. now apply agesLoop_increasing. Qed.

Lemma agesBy_positive (step maxAge a : Q) :
  0 < step -> In a (agesBy step maxAge) -> 0 < a.
Proof.
  intros Hs Hin.
  pose proof (agesLoop_lower step maxAge Hs (agesFuel step maxAge) step) as Hl.
  rewrite Forall_forall in Hl. specialize (Hl a). cbn in Hl.
  apply Qlt_le_trans with step; [exact Hs|].
  apply Hl. now apply list_elem_of_In.
Qed.

Lemma processResults_ages `{JSMath} (results : list (Q * fetchResult)) :
  forall lastLat lastLon,
    map g_age (processResults results lastLat lastLon) = map fst results.
Proof.
  induction results as [|[a data] rest IH]; intros la lo; [reflexivity|].
  cbn [processResults]. destruct (firstCoordinate data) as [[pla plo]|];
    cbn [map g_age fst]; now rewrite IH.
Qed.

Lemma processResults_adjacent `{JSMath} (fetch : request -> fetchResult)
    (lat0 lon0 : Q) (modelName : string) (ages : list Q) :
  forall (prev : gpPoint) (p q : gpPoint),
    adjacent_in p q
      (prev :: processResults
                 (map (fun a => (a, fetch (Request lon0 lat0 a modelName)))
                    ages)
                 (g_lat prev) (g_lon prev)) ->
    match fetch (Request lon0 lat0 (g_age q) modelName) with
    | FetchData (Some ((paleoLon, paleoLat) :: _)) =>
        g_lat q = paleoLat /\ g_lon q = paleoLon /\ g_source q = "GPlates"
        /\ g_position q
           = latLonToVector3 paleoLat paleoLon (EARTH_RADIUS * 1.01)
    | _ =>
        g_lat q = g_lat p /\ g_lon q = g_lon p
        /\ g_source q = "interpolated"
        /\ g_position q
           = latLonToVector3 (g_lat p) (g_lon p) (EARTH_RADIUS * 1.01)
    end.
Proof.
  induction ages as [|a ages IH]; intros prev p q Hadj.
  - cbn in Hadj. destruct Hadj as (l1 & l2 & Heq).
    destruct l1 as [|? [|? ?]]; discriminate.
  - cbn [map processResults] in Hadj.
    destruct (fetch (Request lon0 lat0 a modelName))
      as [| |[[|[plo pla] more]|]] eqn:Hf; cbn [firstCoordinate] in Hadj;
      (apply adjacent_in_cons in Hadj as [[-> [tl [= <- _]]]|Hadj];
       [cbn [g_age g_lat g_lon g_position g_source]; rewrite Hf;
        now repeat split|]).
    + apply (IH (GpPoint a (g_lat prev) (g_lon prev)
                   (latLonToVector3 (g_lat prev) (g_lon prev)
                      (EARTH_RADIUS * 1.01))
                   "interpolated")). exact Hadj.
    + apply (IH (GpPoint a (g_lat prev) (g_lon prev)
                   (latLonToVector3 (g_lat prev) (g_lon prev)
                      (EARTH_RADIUS * 1.01))
                   "interpolated")). exact Hadj.
    + apply (IH (GpPoint a (g_lat prev) (g_lon prev)
                   (latLonToVector3 (g_lat prev) (g_lon prev)
                      (EARTH_RADIUS * 1.01))
                   "interpolated")). exact Hadj.
    + apply (IH (GpPoint a pla plo
                   (latLonToVector3 pla plo (EARTH_RADIUS * 1.01))
                   "GPlates")). exact Hadj.
    + apply (IH (GpPoint a (g_lat prev) (g_lon prev)
                   (latLonToVector3 (g_lat prev) (g_lon prev)
                      (EARTH_RADIUS * 1.01))
                   "interpolated")). exact Hadj.
Qed.

(** X25. When no other handler of the page runs while it awaits, the
    trajectory of [generateTrajectoryGPlates] is the input point at age 0,
    marked original, followed by one point for each age 10, 20, ...,
    10 * n, where n is the integer part of [maxAge / 10], in strictly
    increasing order; whatever handlers run meanwhile, these same points
    are what it appends to what the global holds by then.  A point whose
    request returned coordinates has those coordinates (the first pair,
    longitude first), marked GPlates; a point whose request failed or
    returned none repeats the coordinates of the point before it, marked
    interpolated. *)
Theorem generateTrajectoryGPlates_spec `{JSMath}
    (fetch : request -> fetchResult) (lat0 lon0 maxAge : Q)
    (modelName : string) :
  exists results : list gpPoint,
    generateTrajectoryGPlates fetch lat0 lon0 maxAge modelName []
    = GpPoint 0 lat0 lon0 (latLonToVector3 lat0 lon0 (EARTH_RADIUS * 1.01))
        "original"
      :: results
    /\ (forall during : list (list gpPoint -> list gpPoint),
          generateTrajectoryGPlates fetch lat0 lon0 maxAge modelName during
          = fold_left (fun points h => h points) during
              [GpPoint 0 lat0 lon0
                 (latLonToVector3 lat0 lon0 (EARTH_RADIUS * 1.01)) "original"]
            ++ results)
    /\ Forall2 (fun q k => g_age q == inject_Z (Z.of_nat k) * 10)
         results (seq 1 (Z.to_nat (Qfloor (maxAge / 10))))
    /\ StronglySorted Qlt (0 :: map g_age results)
    /\ (forall p q,
          adjacent_in p q
            (GpPoint 0 lat0 lon0
               (latLonToVector3 lat0 lon0 (EARTH_RADIUS * 1.01)) "original"
             :: results) ->
          match fetch (Request lon0 lat0 (g_age q) modelName) with
          | FetchData (Some ((paleoLon, paleoLat) :: _)) =>
              g_lat q = paleoLat /\ g_lon q = paleoLon
              /\ g_source q = "GPlates"
              /\ g_position q
                 = latLonToVector3 paleoLat paleoLon (EARTH_RADIUS * 1.01)
          | _ =>
              g_lat q = g_lat p /\ g_lon q = g_lon p
              /\ g_source q = "interpolated"
              /\ g_position q
                 = latLonToVector3 (g_lat p) (g_lon p) (EARTH_RADIUS * 1.01)
          end).
Proof.
  exists (processResults
            (map (fun a => (a, fetch (Request lon0 lat0 a modelName)))
               (agesBy 10 maxAge))
            lat0 lon0).
  assert (Hages : map g_age
                    (processResults
                       (map (fun a => (a, fetch (Request lon0 lat0 a modelName)))
                          (agesBy 10 maxAge))
                       lat0 lon0)
                  = agesBy 10 maxAge).
  { rewrite processResults_ages, map_map. cbn [fst]. apply map_id. }
  split; [reflexivity|]. split; [reflexivity|]. split; [|split].
  - assert (Hten : 0 < 10) by reflexivity.
    destruct (agesBy_multiples 10 maxAge Hten) as (Hlen & Hmul & _).
    rewrite Hlen, <- Hages in Hmul.
    remember (processResults _ lat0 lon0) as results eqn:Hr. clear Hr Hages.
    remember (seq 1 _) as ks eqn:Hk. clear Hk Hlen.
    revert ks Hmul. induction results as [|q results IH]; intros ks Hmul;
      inversion Hmul; subst; constructor; [assumption|now apply IH].
  - rewrite Hages.
    constructor; [now apply agesBy_increasing|].
    apply Forall_forall. intros a Ha.
    apply list_elem_of_In in Ha. now apply (agesBy_positive 10 maxAge).
  - intros p q Hadj.
    apply (processResults_adjacent fetch lat0 lon0 modelName
             (agesBy 10 maxAge)
             (GpPoint 0 lat0 lon0
                (latLonToVector3 lat0 lon0 (EARTH_RADIUS * 1.01)) "original")
             p q Hadj).
Qed.

(** ** detectContinent *)

Lemma inBox_spec (ptLat ptLon latMin latMax lonMin lonMax : Q) :
  inBox ptLat ptLon latMin latMax lonMin lonMax = true
  <-> latMin <= ptLat <= latMax /\ lonMin <= ptLon <= lonMax.
Proof.
  unfold inBox, js_ge, js_le. rewrite !andb_true_iff, !Qle_bool_iff. tauto.
Qed.

Lemma inBox_false (ptLat ptLon latMin latMax lonMin lonMax : Q) :
  ptLat < latMin \/ latMax < ptLat \/ ptLon < lonMin \/ lonMax < ptLon ->
  inBox ptLat ptLon latMin latMax lonMin lonMax = false.
Proof.
  intros Hout. destruct (inBox _ _ _ _ _ _) eqn:E; [|reflexivity].
  apply inBox_spec in E. exfalso. lra.
Qed.

(** X26. [detectContinent] always returns a name that has an entry in
    [EULER_POLES], so that [reconstructPaleoCoordsLocal] never falls back
    to the pole of the ocean for a missing entry; it never returns India,
    whose pole is therefore never used: every point with latitude in
    [5, 77] and longitude in (52, 180], the Indian subcontinent included,
    is detected as Asia.  Every point at or below latitude -60 is detected
    as Antarctica. *)
Theorem detectContinent_spec (ptLat ptLon : Q) :
  (exists pole,
      poleOf (detectContinent ptLat ptLon) = Some pole
      /\ localPole ptLat ptLon = pole)
  /\ detectContinent ptLat ptLon <> "India"
  /\ (5 <= ptLat <= 77 -> 52 < ptLon <= 180 ->
      detectContinent ptLat ptLon = "Asia")
  /\ (ptLat <= -60 -> detectContinent ptLat ptLon = "Antarctica").
Proof.
  split; [|split; [|split]].
  - unfold localPole, detectContinent.
    repeat match goal with
           | |- context [if ?b then _ else _] => destruct b
           end; eexists; split; reflexivity.
  - unfold detectContinent.
    repeat match goal with
           | |- context [if ?b then _ else _] => destruct b
           end; discriminate.
  - intros Hlat Hlon. unfold detectContinent.
    rewrite !inBox_false by lra.
    assert (E : inBox ptLat ptLon 5 77 40 180 = true)
      by (apply inBox_spec; lra).
    now rewrite E.
  - intros Hlat. unfold detectContinent.
    rewrite !inBox_false by lra.
    assert (E : js_le ptLat (-60) = true) by (apply Qle_bool_iff; exact Hlat).
    now rewrite E.
Qed.

(** ** The ages of generateFullTrajectoryAsync *)

(** X27. The ages that [generateFullTrajectoryAsync] queries are exactly
    the multiples [step], [2 * step], ..., [n * step] of the step chosen
    for [maxAge], where [n] is the integer part of [maxAge / step] (none
    when [maxAge] is below the step): every one is at most [maxAge] and
    the next multiple is above it. *)
Theorem agesOf_multiples (maxAge : Q) :
  length (agesOf maxAge) = Z.to_nat (Qfloor (maxAge / stepOf maxAge))
  /\ Forall2 (fun a k => a == inject_Z (Z.of_nat k) * stepOf maxAge)
       (agesOf maxAge) (seq 1 (length (agesOf maxAge)))
  /\ Forall (fun a => a <= maxAge) (agesOf maxAge)
  /\ maxAge
     < inject_Z (Z.of_nat (S (length (agesOf maxAge)))) * stepOf maxAge.
Proof. exact (agesBy_multiples (stepOf maxAge) maxAge (stepOf_pos maxAge)). Qed.

(** ** main: the check of the existing cache *)

Lemma partition_cached_fold (d : disk_cache) (url_list : list url_item) :
  forall acc : nat * list url_item,
    fold_left
      (fun acc item =>
         match d !! get_cache_path (item_url item) with
         | Some _ => (S (fst acc), snd acc)
         | None => (fst acc, snd acc ++ [item])
         end)
      url_list acc
    = ((fst acc
        + length (List.filter
                    (fun item =>
                       match d !! get_cache_path (item_url item) with
                       | Some _ => true
                       | None => false
                       end) url_list))%nat,
       snd acc
       ++ List.filter
            (fun item =>
               match d !! get_cache_path (item_url item) with
               | Some _ => false
               | None => true
               end) url_list).
Proof.
  induction url_list as [|item rest IH]; intros [n l]; cbn [fold_left List.filter].
  - cbn. now rewrite Nat.add_0_r, app_nil_r.
  - rewrite IH.
    destruct (d !! get_cache_path (item_url item)); cbn [fst snd length].
    + f_equal. lia.
    + f_equal. now rewrite <- app_assoc.
Qed.

(** X28. The check of the existing cache in [main] splits the URL list:
    the items to download are, in their order, exactly those whose cache
    file does not exist, the others are counted as cached, and nothing is
    left to download exactly when every item has its file.  After
    [download_and_cache] has reported a URL as cached or downloaded, a
    new check no longer lists any item of that URL, and lists nothing
    that the check before did not list. *)
Theorem partition_cached_resume (d : disk_cache) (url_list : list url_item) :
  (fst (partition_cached d url_list)
   + length (snd (partition_cached d url_list)) = length url_list)%nat
  /\ snd (partition_cached d url_list)
     = List.filter
         (fun item =>
            match d !! get_cache_path (item_url item) with
            | Some _ => false
            | None => true
            end) url_list
  /\ (snd (partition_cached d url_list) = []
      <-> forall item, In item url_list ->
            is_Some (d !! get_cache_path (item_url item)))
  /\ (forall (json_loads : string -> bool) (e : env) (url : string),
        fst (download_and_cache json_loads e url d) <> Failed ->
        forall item,
          In item
            (snd (partition_cached
                    (snd (download_and_cache json_loads e url d)) url_list)) ->
          item_url item <> url
          /\ In item (snd (partition_cached d url_list))).
Proof.
  assert (Hsnd : forall d0,
             snd (partition_cached d0 url_list)
             = List.filter
                 (fun item =>
                    match d0 !! get_cache_path (item_url item) with
                    | Some _ => false
                    | None => true
                    end) url_list).
  { intros d0. unfold partition_cached. now rewrite partition_cached_fold. }
  split; [|split; [apply Hsnd|split]].
  - unfold partition_cached. rewrite partition_cached_fold. cbn [fst snd app].
    clear Hsnd. induction url_list as [|item rest IH]; [reflexivity|].
    cbn [List.filter length].
    destruct (d !! get_cache_path (item_url item)); cbn [length]; lia.
  - rewrite Hsnd. split.
    + intros Hnil item Hin.
      destruct (d !! get_cache_path (item_url item)) as [text|] eqn:Hd;
        [now exists text|].
      assert (Hf : In item
                (List.filter
                   (fun item =>
                      match d !! get_cache_path (item_url item) with
                      | Some _ => false
                      | None => true
                      end) url_list)).
      { apply filter_In. split; [exact Hin|now rewrite Hd]. }
      rewrite Hnil in Hf. destruct Hf.
    + intros Hall.
      destruct (List.filter _ url_list) as [|item rest] eqn:Hf; [reflexivity|].
      assert (Hin : In item (item :: rest)) by now left.
      rewrite <- Hf in Hin. apply filter_In in Hin. destruct Hin as [Hin Hd].
      destruct (Hall item Hin) as [text Htext]. rewrite Htext in Hd.
      discriminate.
  - intros json_loads e url Hst item. rewrite !Hsnd, !filter_In.
    intros [Hin Hd].
    destruct (download_and_cache_cases json_loads e url d)
      as [[Heq Hc]|[Hnone [data Heq]]]; rewrite Heq in Hd.
    + destruct Hc as [Hc|[text Htext]]; [contradiction|].
      split; [|now split].
      intros Hu. rewrite Hu, Htext in Hd. discriminate.
    + destruct (decide (get_cache_path (item_url item) = get_cache_path url))
        as [Hp|Hp].
      * rewrite Hp, lookup_insert_eq in Hd. discriminate.
      * rewrite lookup_insert_ne in Hd by congruence.
        split; [congruence|now split].
Qed.
